(** * cc-lib/threadutil.h: bounded-concurrency dispatch and the throttled
      asynchronous runner

    A shallow embedding of [ParallelComp], [ParallelAppi], [ParallelApp],
    [ParallelMap], the serial [UnParallelComp] and [UnParallelMap],
    [struct Asynchronously], and [ReadWithLock] and [WriteWithLock] with
    the [MutexLock] they are made of.  Threads are modelled by
    program counters, one per statement of the source that touches shared
    state; a scheduler picks which thread performs its next statement, so
    that every interleaving of the C++ threads is an execution of the
    model.  A mutex is the identity of its holder, if any. *)

From stdpp Require Import prelude.
From Stdlib Require Import ZArith Lia.

Local Open Scope Z_scope.

(** ** Machine integers *)

Definition INT_MAX : Z := 2147483647.
Definition INT_MIN : Z := -2147483648.

(** [i++] on an [int]: signed overflow has no defined result in C++. *)
Definition int_succ (i : Z) : option Z :=
  if i <? INT_MAX then Some (i + 1) else None.

(** [i--] on an [int]. *)
Definition int_pred (i : Z) : option Z :=
  if INT_MIN <? i then Some (i - 1) else None.

(** The cast [(int)vec.size()] keeps the low 32 bits, read as signed. *)
Definition to_int (z : Z) : Z := (z + 2 ^ 31) `mod` 2 ^ 32 - 2 ^ 31.

(** An [int] compared with a [size_t] is first converted to [size_t]. *)
Definition to_size_t (i : Z) : Z := i `mod` 2 ^ 64.

(** [vec[i]] with an [int] index; outside the vector nothing is defined. *)
Definition vec_at {T : Type} (vec : list T) (i : Z) : option T :=
  if i <? 0 then None else vec !! Z.to_nat i.

(** What one statement of one thread does: it moves to a next state, or it
    cannot be performed now (the mutex is taken, the joined thread still
    runs, the thread has returned or does not exist), or its behaviour is
    undefined. *)
Inductive outcome (S : Type) : Type :=
  | Step (s : S)
  | NoStep
  | UB.
Arguments Step {S} s.
Arguments NoStep {S}.
Arguments UB {S}.

(** ** The dispatcher: [ParallelComp] and [ParallelAppi] *)

Module Dispatch.

(** Program points of the worker lambda [th]. *)
Inductive wpc : Type :=
  | AtLock                    (* index_m.lock() *)
  | AtTest                    (* if (next_index == num), mutex held *)
  | AtExit                    (* index_m.unlock(); return;  mutex held *)
  | AtClaim                   (* int my_index = next_index++;  mutex held *)
  | AtUnlock (my_index : Z)   (* index_m.unlock();  mutex held *)
  | AtCall (my_index : Z)     (* (void)f(my_index) *)
  | Exited.                   (* th has returned *)

(** Program points of the calling thread. *)
Inductive mpc : Type :=
  | Spawning (i : Z)          (* for (int i = 0; i < max_concurrency; i++) *)
  | Joining (j : nat)         (* for (std::thread &t : threads) t.join() *)
  | Returned.

Inductive actor : Type :=
  | Main
  | Worker (t : nat).

#[global] Instance wpc_eq_dec : EqDecision wpc.
Proof. solve_decision. Defined.

#[global] Instance mpc_eq_dec : EqDecision mpc.
Proof. solve_decision. Defined.

Definition holds_mutex (pc : wpc) : bool :=
  match pc with
  | AtTest | AtExit | AtClaim | AtUnlock _ => true
  | AtLock | AtCall _ | Exited => false
  end.

(** The index a worker has claimed and not yet passed to [f]. *)
Definition claimed (pc : wpc) : option Z :=
  match pc with
  | AtUnlock i | AtCall i => Some i
  | _ => None
  end.

Section Model.
Context {St : Type}.

(** [exit_test] is the test [next_index == num] (or [== vec.size()]);
    [call_f i] is the effect of the call of [f] on index [i] on the data
    the caller shares with [f], undefined where the source is;
    [max_concurrency] is the value after the two clamping lines.  A call
    of [f] is one statement: its effect on the shared data is applied at
    once, as for an [f] that synchronizes its accesses; the source calls
    [f] with no lock held and leaves that to the caller. *)
Variable exit_test : Z → bool.
Variable call_f : Z → St → option St.
Variable max_concurrency : Z.

(** [calls] records the indices [f] was invoked on, in the order of the
    invocations; it is the only component that is not in the source. *)
Record state : Type := mkState {
  next_index : Z;
  index_m : option nat;
  threads : list wpc;
  main : mpc;
  calls : list Z;
  user : St
}.

Definition init (u : St) : state :=
  mkState 0 None [] (Spawning 0) [] u.

Definition set_thread (t : nat) (pc : wpc) (s : state) : state :=
  mkState (next_index s) (index_m s) (<[t := pc]> (threads s)) (main s)
          (calls s) (user s).

Definition set_mutex (m : option nat) (s : state) : state :=
  mkState (next_index s) m (threads s) (main s) (calls s) (user s).

Definition set_next_index (n : Z) (s : state) : state :=
  mkState n (index_m s) (threads s) (main s) (calls s) (user s).

Definition set_main (pc : mpc) (s : state) : state :=
  mkState (next_index s) (index_m s) (threads s) pc (calls s) (user s).

Definition spawn (s : state) : state :=
  mkState (next_index s) (index_m s) (threads s ++ [AtLock]) (main s)
          (calls s) (user s).

Definition record_call (i : Z) (u : St) (s : state) : state :=
  mkState (next_index s) (index_m s) (threads s) (main s)
          (calls s ++ [i]) u.

(** One statement of the lambda [th], run by thread [t]. *)
Definition worker_step (t : nat) (s : state) : outcome state :=
  match threads s !! t with
  | None => NoStep
  | Some AtLock =>
      match index_m s with
      | None => Step (set_thread t AtTest (set_mutex (Some t) s))
      | Some _ => NoStep
      end
  | Some AtTest =>
      if exit_test (next_index s)
      then Step (set_thread t AtExit s)
      else Step (set_thread t AtClaim s)
  | Some AtExit => Step (set_thread t Exited (set_mutex None s))
  | Some AtClaim =>
      match int_succ (next_index s) with
      | Some n =>
          Step (set_thread t (AtUnlock (next_index s)) (set_next_index n s))
      | None => UB
      end
  | Some (AtUnlock i) => Step (set_thread t (AtCall i) (set_mutex None s))
  | Some (AtCall i) =>
      match call_f i (user s) with
      | Some u => Step (set_thread t AtLock (record_call i u s))
      | None => UB
      end
  | Some Exited => NoStep
  end.

(** One statement of the calling thread: the spawn loop, then the joins. *)
Definition main_step (s : state) : outcome state :=
  match main s with
  | Spawning i =>
      if i <? max_concurrency
      then match int_succ i with
           | Some i' => Step (set_main (Spawning i') (spawn s))
           | None => UB
           end
      else Step (set_main (Joining 0) s)
  | Joining j =>
      match threads s !! j with
      | Some Exited => Step (set_main (Joining (S j)) s)
      | Some _ => NoStep
      | None => Step (set_main Returned s)
      end
  | Returned => NoStep
  end.

Definition step (a : actor) (s : state) : outcome state :=
  match a with
  | Main => main_step s
  | Worker t => worker_step t s
  end.

(** An execution under a given schedule. *)
Fixpoint run (sched : list actor) (s : state) : outcome state :=
  match sched with
  | [] => Step s
  | a :: sched' =>
      match step a s with
      | Step s' => run sched' s'
      | NoStep => NoStep
      | UB => UB
      end
  end.

Inductive reachable (s0 : state) : state → Prop :=
  | reach_init : reachable s0 s0
  | reach_step s a s' :
      reachable s0 s → step a s = Step s' → reachable s0 s'.

(** The indices claimed by some worker and not yet passed to [f]. *)
Definition pending (s : state) : list Z := omap claimed (threads s).

(** The data shared with [f], recomputed from the record of the calls. *)
Definition replay (cs : list Z) (u : St) : option St :=
  foldl (λ ou i, ou ≫= call_f i) (Some u) cs.

(** A bound on the statements still to be performed. *)
Definition weight (pc : wpc) : nat :=
  match pc with
  | Exited => 0
  | AtExit => 1
  | AtTest => 2
  | AtLock => 3
  | AtClaim => 1
  | AtUnlock _ => 5
  | AtCall _ => 4
  end.

Definition main_weight (pc : mpc) : Z :=
  match pc with
  | Spawning i => 4 * (max_concurrency - i) + max_concurrency + 2
  | Joining j => max_concurrency - Z.of_nat j + 1
  | Returned => 0
  end.

Definition measure (limit : Z) (s : state) : Z :=
  5 * (limit - next_index s)
  + Z.of_nat (sum_list_with weight (threads s))
  + main_weight (main s).

End Model.

Arguments state : clear implicits.

End Dispatch.

(** [ParallelComp(num, f, max_concurrency)].  [f] is any callable; a call
    of it is observed through the record of calls only. *)
Module ParallelComp.

Definition max_concurrency (num m : Z) : Z := Z.max (Z.min num m) 1.

Definition exit_test (num : Z) (next_index : Z) : bool := next_index =? num.

Definition call_f (i : Z) (u : unit) : option unit := Some u.

Definition init : Dispatch.state unit := Dispatch.init tt.

Definition step (num m : Z) :=
  Dispatch.step (exit_test num) call_f (max_concurrency num m).

Definition run (num m : Z) :=
  Dispatch.run (exit_test num) call_f (max_concurrency num m).

Definition reachable (num m : Z) : Dispatch.state unit → Prop :=
  Dispatch.reachable (exit_test num) call_f (max_concurrency num m) init.

End ParallelComp.

(** The dispatcher of [ParallelComp] in a build where [int] arithmetic
    wraps round.  The increment of [next_index] at [INT_MAX] has no
    defined result in C++; where signed arithmetic is two's complement and
    wraps (as with [-fwrapv]) the counter goes on from [INT_MIN]. *)
Module Wrapping.
Import Dispatch.

(** [i++] on an [int] where the overflow wraps round. *)
Definition int_succ_wrap (i : Z) : Z :=
  if i <? INT_MAX then i + 1 else INT_MIN.

Section Model.
Context {St : Type}.
Variable exit_test : Z → bool.
Variable call_f : Z → St → option St.
Variable max_concurrency : Z.

(** One statement of the lambda [th]: the claim wraps round, and every
    other statement is the dispatcher's. *)
Definition worker_step (t : nat) (s : state St) : outcome (state St) :=
  match threads s !! t with
  | Some AtClaim =>
      Step (set_thread t (AtUnlock (next_index s))
              (set_next_index (int_succ_wrap (next_index s)) s))
  | _ => Dispatch.worker_step exit_test call_f t s
  end.

Definition step (a : actor) (s : state St) : outcome (state St) :=
  match a with
  | Main => main_step max_concurrency s
  | Worker t => worker_step t s
  end.

Fixpoint run (sched : list actor) (s : state St) : outcome (state St) :=
  match sched with
  | [] => Step s
  | a :: sched' =>
      match step a s with
      | Step s' => run sched' s'
      | NoStep => NoStep
      | UB => UB
      end
  end.

End Model.
End Wrapping.

(** [UnParallelComp(num, f, max_concurrency_ignored)].  [call_f i] is the
    effect of the call [f(i)], as for the dispatcher. *)
Module UnParallelComp.
Section Model.
Context {St : Type}.
Variable num : Z.
Variable call_f : Z → St → option St.

(** [for (int i = ...; i < num; i++) (void)f(i);] with the record of the
    calls made.  The loop runs at most [fuel] times; [None] is undefined
    behaviour or a loop that needs more. *)
Fixpoint loop (fuel : nat) (i : Z) (cs : list Z) (u : St)
    : option (list Z * St) :=
  if i <? num then
    match fuel with
    | O => None
    | S fuel' =>
        match call_f i u with
        | Some u' =>
            match int_succ i with
            | Some i' => loop fuel' i' (cs ++ [i]) u'
            | None => None
            end
        | None => None
        end
    end
  else Some (cs, u).

Definition UnParallelComp (max_concurrency_ignored : Z) (u : St)
    : option (list Z * St) :=
  loop (Z.to_nat num) 0 [] u.

End Model.
End UnParallelComp.

(** [ParallelAppi(vec, f, max_concurrency)].  [f i x] is the effect of the
    call [f(i, vec[i])] on the data it shares with its caller. *)
Module ParallelAppi.
Section Model.
Context {T St : Type}.
Variable vec : list T.
Variable f : Z → T → St → option St.
Variable m : Z.

Definition size : Z := Z.of_nat (length vec).

Definition max_concurrency : Z := Z.max (Z.min (to_int size) m) 1.

Definition exit_test (next_index : Z) : bool :=
  to_size_t next_index =? size.

Definition call_f (my_index : Z) (u : St) : option St :=
  match vec_at vec my_index with
  | Some x => f my_index x u
  | None => None
  end.

Definition step := Dispatch.step exit_test call_f max_concurrency.
Definition run := Dispatch.run exit_test call_f max_concurrency.
Definition reachable (u : St) : Dispatch.state St → Prop :=
  Dispatch.reachable exit_test call_f max_concurrency (Dispatch.init u).

End Model.
End ParallelAppi.

(** [ParallelApp(vec, f, max_concurrency)].  [f x] is the effect of the
    call [f(x)] on the data it shares with its caller. *)
Module ParallelApp.
Section Model.
Context {T St : Type}.
Variable vec : list T.
Variable f : T → St → option St.
Variable m : Z.

(** [ff = [&f](int i_unused, const T &arg) { return f(arg); }] *)
Definition ff (i_unused : Z) (arg : T) : St → option St := f arg.

Definition step := ParallelAppi.step vec ff m.
Definition run := ParallelAppi.run vec ff m.
Definition reachable (u : St) : Dispatch.state St → Prop :=
  ParallelAppi.reachable vec ff m u.


End Model.
End ParallelApp.

(** [ParallelMap(vec, f, max_concurrency)] for a function [f] without
    effects; [dflt] is the default-constructed [R]. *)
Module ParallelMap.
Section Model.
Context {T R : Type}.
Variable dflt : R.
Variable vec : list T.
Variable f : T → R.
Variable m : Z.

(** [result.resize(vec.size())] *)
Definition result0 : list R := replicate (length vec) dflt.

(** [data[idx] = f(arg)]; [data] points to the [length data] slots of
    [result]. *)
Definition run_write (idx : Z) (arg : T) (data : list R) : option (list R) :=
  if (0 <=? idx) && (idx <? Z.of_nat (length data))
  then Some (<[Z.to_nat idx := f arg]> data)
  else None.

Definition init : Dispatch.state (list R) := Dispatch.init result0.

Definition step := ParallelAppi.step vec run_write m.
Definition run := ParallelAppi.run vec run_write m.
Definition reachable : Dispatch.state (list R) → Prop :=
  ParallelAppi.reachable vec run_write m result0.

(** [return result], once [ParallelAppi] has returned. *)
Definition returns (result : list R) : Prop :=
  ∃ s, reachable s ∧ Dispatch.main s = Dispatch.Returned
       ∧ Dispatch.user s = result.

End Model.
End ParallelMap.

(** [UnParallelMap(vec, f, max_concurrency_ignored)]. *)
Module UnParallelMap.
Section Model.
Context {T R : Type}.
Variable dflt : R.
Variable vec : list T.
Variable f : T → R.

(** [result[i] = r] *)
Definition write (result : list R) (i : Z) (r : R) : option (list R) :=
  if (0 <=? i) && (i <? Z.of_nat (length result))
  then Some (<[Z.to_nat i := r]> result)
  else None.

(** [for (int i = ...; i < vec.size(); i++) result[i] = f(vec[i]);]
    The loop runs at most [fuel] times; [None] is undefined behaviour
    or a loop that needs more. *)
Fixpoint loop (fuel : nat) (i : Z) (result : list R) : option (list R) :=
  if to_size_t i <? Z.of_nat (length vec) then
    match fuel with
    | O => None
    | S fuel' =>
        match vec_at vec i with
        | Some x =>
            match write result i (f x), int_succ i with
            | Some result', Some i' => loop fuel' i' result'
            | _, _ => None
            end
        | None => None
        end
    end
  else Some result.

Definition UnParallelMap (max_concurrency_ignored : Z) : option (list R) :=
  loop (length vec) 0 (replicate (length vec) dflt).

End Model.
End UnParallelMap.

(** The number of workers in the words of the specification: the
    concurrency is clamped to [1, N], and to [1, 1] when [N] is 0. *)
Module SpecWords.

Definition clamp (v lo hi : Z) : Z :=
    if v <? lo then lo else if hi <? v then hi else v.

Definition workers (N M : Z) : Z :=
    if N =? 0 then clamp M 1 1 else clamp M 1 N.

End SpecWords.

(** ** [struct Asynchronously] *)

Module Asynchronously.

Inductive actor : Type :=
  | Caller
  | Detached (t : nat).

(** A task is known by a number; running it is observed as two events. *)
Inductive event : Type :=
  | Started (a : actor) (f : nat)
  | Finished (a : actor) (f : nat).

(** Program points of the thread that owns the runner: inside [Run(f)],
    inside the destructor, or between two member calls. *)
Inductive cpc : Type :=
  | Idle
  | RunLock (f : nat)         (* m.lock() *)
  | RunTest (f : nat)         (* if (threads_active < max_threads) *)
  | RunIncr (f : nat)         (* threads_active++ *)
  | RunUnlockAsync (f : nat)  (* m.unlock() *)
  | RunSpawn (f : nat)        (* std::thread t{...}; t.detach() *)
  | RunUnlockSync (f : nat)   (* m.unlock() *)
  | RunCall (f : nat)         (* f() is entered *)
  | RunInCall (f : nat)       (* f() returns *)
  | DtorLock                  (* MutexLock ml(&m) *)
  | DtorTest                  (* if (threads_active == 0) *)
  | DtorUnlockRetry           (* ~MutexLock at the end of the loop body *)
  | DtorUnlockReturn          (* return; ~MutexLock *)
  | Destroyed.

(** Program points of the lambda run by a detached thread. *)
Inductive dpc : Type :=
  | DCall (f : nat)           (* f() is entered *)
  | DInCall (f : nat)         (* f() returns *)
  | DLock                     (* MutexLock ml(&this->m) *)
  | DDecr                     (* threads_active-- *)
  | DUnlock                   (* ~MutexLock: m->unlock() *)
  | DExited.                  (* past m->unlock(): the runner is not used *)

#[global] Instance actor_eq_dec : EqDecision actor.
Proof. solve_decision. Defined.

#[global] Instance cpc_eq_dec : EqDecision cpc.
Proof. solve_decision. Defined.

#[global] Instance dpc_eq_dec : EqDecision dpc.
Proof. solve_decision. Defined.

Definition caller_holds (pc : cpc) : bool :=
  match pc with
  | RunTest _ | RunIncr _ | RunUnlockAsync _ | RunUnlockSync _
  | DtorTest | DtorUnlockRetry | DtorUnlockReturn => true
  | _ => false
  end.

Definition detached_holds (pc : dpc) : bool :=
  match pc with
  | DDecr | DUnlock => true
  | _ => false
  end.

(** [todo] is what the owner still does with the runner: the tasks it will
    pass to [Run], in order; after the last one the runner goes out of
    scope.  [trace] records the task events and is not in the source. *)
Record state : Type := mkState {
  threads_active : Z;
  max_threads : Z;
  m : option actor;
  caller : cpc;
  todo : list nat;
  detached : list dpc;
  trace : list event
}.

(** [Asynchronously(int max_threads)] *)
Definition init (max_threads : Z) (todo : list nat) : state :=
  mkState 0 max_threads None Idle todo [] [].

Definition set_caller (pc : cpc) (s : state) : state :=
  mkState (threads_active s) (max_threads s) (m s) pc (todo s) (detached s)
          (trace s).

Definition set_todo (l : list nat) (s : state) : state :=
  mkState (threads_active s) (max_threads s) (m s) (caller s) l (detached s)
          (trace s).

Definition set_m (h : option actor) (s : state) : state :=
  mkState (threads_active s) (max_threads s) h (caller s) (todo s)
          (detached s) (trace s).

Definition set_threads_active (n : Z) (s : state) : state :=
  mkState n (max_threads s) (m s) (caller s) (todo s) (detached s) (trace s).

Definition set_detached (t : nat) (pc : dpc) (s : state) : state :=
  mkState (threads_active s) (max_threads s) (m s) (caller s) (todo s)
          (<[t := pc]> (detached s)) (trace s).

Definition detach (pc : dpc) (s : state) : state :=
  mkState (threads_active s) (max_threads s) (m s) (caller s) (todo s)
          (detached s ++ [pc]) (trace s).

Definition emit (e : event) (s : state) : state :=
  mkState (threads_active s) (max_threads s) (m s) (caller s) (todo s)
          (detached s) (trace s ++ [e]).

(** One statement of the owner. *)
Definition caller_step (s : state) : outcome state :=
  match caller s with
  | Idle =>
      match todo s with
      | f :: rest => Step (set_caller (RunLock f) (set_todo rest s))
      | [] => Step (set_caller DtorLock s)
      end
  | RunLock f =>
      match m s with
      | None => Step (set_caller (RunTest f) (set_m (Some Caller) s))
      | Some _ => NoStep
      end
  | RunTest f =>
      if threads_active s <? max_threads s
      then Step (set_caller (RunIncr f) s)
      else Step (set_caller (RunUnlockSync f) s)
  | RunIncr f =>
      match int_succ (threads_active s) with
      | Some n => Step (set_caller (RunUnlockAsync f) (set_threads_active n s))
      | None => UB
      end
  | RunUnlockAsync f => Step (set_caller (RunSpawn f) (set_m None s))
  | RunSpawn f => Step (set_caller Idle (detach (DCall f) s))
  | RunUnlockSync f => Step (set_caller (RunCall f) (set_m None s))
  | RunCall f => Step (set_caller (RunInCall f) (emit (Started Caller f) s))
  | RunInCall f => Step (set_caller Idle (emit (Finished Caller f) s))
  | DtorLock =>
      match m s with
      | None => Step (set_caller DtorTest (set_m (Some Caller) s))
      | Some _ => NoStep
      end
  | DtorTest =>
      if threads_active s =? 0
      then Step (set_caller DtorUnlockReturn s)
      else Step (set_caller DtorUnlockRetry s)
  | DtorUnlockRetry => Step (set_caller DtorLock (set_m None s))
  | DtorUnlockReturn => Step (set_caller Destroyed (set_m None s))
  | Destroyed => NoStep
  end.

(** The runner's members exist until its destructor has returned. *)
Definition alive (s : state) : bool :=
  match caller s with
  | Destroyed => false
  | _ => true
  end.

(** One statement of the lambda [[this, f]() { f(); MutexLock ml(&this->m);
    threads_active--; }] on detached thread [t]. *)
Definition detached_step (t : nat) (s : state) : outcome state :=
  match detached s !! t with
  | None => NoStep
  | Some (DCall f) =>
      Step (set_detached t (DInCall f) (emit (Started (Detached t) f) s))
  | Some (DInCall f) =>
      Step (set_detached t DLock (emit (Finished (Detached t) f) s))
  | Some DLock =>
      if alive s then
        match m s with
        | None => Step (set_detached t DDecr (set_m (Some (Detached t)) s))
        | Some _ => NoStep
        end
      else UB
  | Some DDecr =>
      if alive s then
        match int_pred (threads_active s) with
        | Some n => Step (set_detached t DUnlock (set_threads_active n s))
        | None => UB
        end
      else UB
  | Some DUnlock =>
      if alive s then Step (set_detached t DExited (set_m None s)) else UB
  | Some DExited => NoStep
  end.

Definition step (a : actor) (s : state) : outcome state :=
  match a with
  | Caller => caller_step s
  | Detached t => detached_step t s
  end.

Fixpoint run (sched : list actor) (s : state) : outcome state :=
  match sched with
  | [] => Step s
  | a :: sched' =>
      match step a s with
      | Step s' => run sched' s'
      | NoStep => NoStep
      | UB => UB
      end
  end.

Inductive reachable (s0 : state) : state → Prop :=
  | reach_init : reachable s0 s0
  | reach_step s a s' :
      reachable s0 s → step a s = Step s' → reachable s0 s'.

(** A detached thread that has not yet decremented the counter. *)
Definition counted (pc : dpc) : bool :=
  match pc with
  | DCall _ | DInCall _ | DLock | DDecr => true
  | DUnlock | DExited => false
  end.

(** The owner has incremented the counter for a thread it has not yet
    started. *)
Definition owed (pc : cpc) : Z :=
  match pc with
  | RunUnlockAsync _ | RunSpawn _ => 1
  | _ => 0
  end.

(** What a detached thread contributes to the counter. *)
Definition count_weight (pc : dpc) : nat := if counted pc then 1 else 0.

(** The task a thread is about to run or is running. *)
Definition caller_task (pc : cpc) : list nat :=
  match pc with
  | RunLock f | RunTest f | RunIncr f | RunUnlockAsync f | RunSpawn f
  | RunUnlockSync f | RunCall f | RunInCall f => [f]
  | _ => []
  end.

Definition detached_task (pc : dpc) : option nat :=
  match pc with
  | DCall f | DInCall f => Some f
  | _ => None
  end.

(** The tasks that have been submitted or will be, and have not finished. *)
Definition unfinished (s : state) : list nat :=
  caller_task (caller s) ++ omap detached_task (detached s) ++ todo s.

(** The tasks that have run to their end, in the order they finished. *)
Definition finished (tr : list event) : list nat :=
  omap (λ e, match e with Finished _ f => Some f | Started _ _ => None end) tr.

Definition event_actor (e : event) : actor :=
  match e with
  | Started a _ | Finished a _ => a
  end.

(** The events on the owner's thread. *)
Definition caller_events (tr : list event) : list event :=
  filter (λ e, event_actor e = Caller) tr.

(** The events of a run in which every task runs on the owner's thread. *)
Definition all_synchronous (l : list nat) : list event :=
  l ≫= (λ f, [Started Caller f; Finished Caller f]).

(** The statements of the owner in a schedule. *)
Definition count_caller (sched : list actor) : nat :=
  length (filter (λ a, a = Caller) sched).

(** Where the owner is in [Run(f)], [k] of its statements after it has
    reached the test, in the branch that starts a thread ([async]) and in
    the other. *)
Definition Run_pc (async : bool) (f : nat) (k : nat) : cpc :=
  match k, async with
  | 0%nat, _ => RunTest f
  | 1%nat, true => RunIncr f
  | 2%nat, true => RunUnlockAsync f
  | 3%nat, true => RunSpawn f
  | 1%nat, false => RunUnlockSync f
  | 2%nat, false => RunCall f
  | 3%nat, false => RunInCall f
  | _, _ => Idle
  end.

(** What [Run(f)] has done [k] statements of the owner after the test, in
    a state [s] reached from the state [s0] of the test, whatever the other
    threads did meanwhile.  While the owner holds the mutex the counter is
    the one of the test, plus 1 from the increment on; the branch [async]
    adds one thread, with its last statement, and nothing to the events on
    the owner's thread; the other branch adds no thread, and the start of
    [f] with its third statement and the end of [f] with its last. *)
Definition Run_effect (async : bool) (f : nat) (k : nat) (s0 s : state)
    : Prop :=
  caller s = Run_pc async f k
  ∧ todo s = todo s0
  ∧ max_threads s = max_threads s0
  ∧ (caller_holds (Run_pc async f k) = true →
       threads_active s
       = threads_active s0 + (if async && (2 <=? k)%nat then 1 else 0))
  ∧ length (detached s)
    = (length (detached s0) + (if async && (4 <=? k)%nat then 1 else 0))%nat
  ∧ caller_events (trace s)
    = caller_events (trace s0)
      ++ (if negb async && (3 <=? k)%nat then [Started Caller f] else [])
      ++ (if negb async && (4 <=? k)%nat then [Finished Caller f] else [])
  ∧ (async = true → (4 ≤ k)%nat →
       detached s !! length (detached s0) = Some (DCall f)
       ∨ Started (Detached (length (detached s0))) f ∈ trace s).

(** What the events say of a detached thread: it has entered [f] when it
    is inside, and it has entered and left [f] when it is past the call. *)
Definition thread_events (tr : list event) (t : nat) (pc : dpc) : Prop :=
  match pc with
  | DCall _ => True
  | DInCall f => Started (Detached t) f ∈ tr
  | _ => ∃ f, Started (Detached t) f ∈ tr ∧ Finished (Detached t) f ∈ tr
  end.

(** The events of one thread, in their order. *)
Definition events_of (a : actor) (tr : list event) : list event :=
  filter (λ e, event_actor e = a) tr.

(** Detached thread [t] at [pc] runs the task [f] and nothing else: before
    the call it is about to call [f] and has left no event; inside the call
    it has entered [f]; past the call it has entered and left [f], once. *)
Definition runs_task (tr : list event) (t : nat) (f : nat) (pc : dpc)
    : Prop :=
  match pc with
  | DCall g => g = f ∧ events_of (Detached t) tr = []
  | DInCall g => g = f ∧ events_of (Detached t) tr = [Started (Detached t) f]
  | _ => events_of (Detached t) tr
         = [Started (Detached t) f; Finished (Detached t) f]
  end.

(** The state after the five statements of the lambda of detached thread
    [t] for the task [f], from [s], when no other thread moves. *)
Definition lambda_done (t : nat) (f : nat) (s : state) : state :=
  mkState (threads_active s - 1) (max_threads s) None (caller s) (todo s)
          (<[t := DExited]> (detached s))
          (trace s ++ [Started (Detached t) f; Finished (Detached t) f]).

Definition detached_weight (pc : dpc) : nat :=
  match pc with
  | DCall _ => 5
  | DInCall _ => 4
  | DLock => 3
  | DDecr => 2
  | DUnlock => 1
  | DExited => 0
  end.

Definition caller_weight (s : state) : Z :=
  let rest := 12 * Z.of_nat (length (todo s)) + 10 in
  match caller s with
  | Idle => rest
  | RunLock _ => rest + 11
  | RunTest _ => rest + 10
  | RunIncr _ | RunUnlockSync _ => rest + 9
  | RunUnlockAsync _ | RunCall _ => rest + 8
  | RunSpawn _ | RunInCall _ => rest + 7
  | DtorLock => 4
  | DtorTest => if threads_active s =? 0 then 2 else 6
  | DtorUnlockRetry => 5
  | DtorUnlockReturn => 1
  | Destroyed => 0
  end.

Definition measure (s : state) : Z :=
  Z.of_nat (sum_list_with detached_weight (detached s)) + caller_weight s.

End Asynchronously.

(** ** [MutexLock], [ReadWithLock] and [WriteWithLock]

    One object [*t] and the mutex [*m] that protects it, used by any number
    of threads through [ReadWithLock(m, t)] and [WriteWithLock(m, t, val)].
    A [MutexLock] locks the mutex where it is declared and unlocks it where
    its scope ends: in [ReadWithLock] after the value to return has been
    copied. *)
Module WithLock.
Section Model.
Context {T : Type}.

(** A call: [ReadWithLock(m, t)] or [WriteWithLock(m, t, val)]. *)
Inductive call : Type :=
  | Read
  | Write (val : T).

(** Program points of a thread. *)
Inductive pc : Type :=
  | Outside                 (* between two calls: MutexLock ml(m) is next *)
  | ReadLocked              (* return *t;  mutex held *)
  | ReadCopied (v : T)      (* ~MutexLock, v is returned;  mutex held *)
  | WriteLocked (val : T)   (* *t = val;  mutex held *)
  | WriteDone.              (* ~MutexLock;  mutex held *)

(** A thread: where it is, the calls it still makes, and the values its
    calls of [ReadWithLock] have returned so far. *)
Record thread : Type := mkThread {
  at_pc : pc;
  todo : list call;
  got : list T
}.

Record state : Type := mkState {
  cell : T;
  m : option nat;
  threads : list thread
}.

Definition holds (p : pc) : bool :=
  match p with
  | Outside => false
  | _ => true
  end.

Definition enter (c : call) : pc :=
  match c with
  | Read => ReadLocked
  | Write val => WriteLocked val
  end.

(** The threads with the calls each of them makes, before any call. *)
Definition init (c : T) (progs : list (list call)) : state :=
  mkState c None ((λ p, mkThread Outside p []) <$> progs).

Definition set_thread (t : nat) (th : thread) (s : state) : state :=
  mkState (cell s) (m s) (<[t := th]> (threads s)).

Definition set_m (h : option nat) (s : state) : state :=
  mkState (cell s) h (threads s).

Definition set_cell (c : T) (s : state) : state :=
  mkState c (m s) (threads s).

(** One statement of thread [t]. *)
Definition step (t : nat) (s : state) : outcome state :=
  match threads s !! t with
  | None => NoStep
  | Some th =>
      match at_pc th with
      | Outside =>
          match todo th with
          | [] => NoStep
          | c :: rest =>
              match m s with
              | None =>
                  Step (set_thread t (mkThread (enter c) rest (got th))
                          (set_m (Some t) s))
              | Some _ => NoStep
              end
          end
      | ReadLocked =>
          Step (set_thread t (mkThread (ReadCopied (cell s)) (todo th) (got th))
                  s)
      | ReadCopied v =>
          Step (set_thread t (mkThread Outside (todo th) (got th ++ [v]))
                  (set_m None s))
      | WriteLocked val =>
          Step (set_thread t (mkThread WriteDone (todo th) (got th))
                  (set_cell val s))
      | WriteDone =>
          Step (set_thread t (mkThread Outside (todo th) (got th))
                  (set_m None s))
      end
  end.

Fixpoint run (sched : list nat) (s : state) : outcome state :=
  match sched with
  | [] => Step s
  | t :: sched' =>
      match step t s with
      | Step s' => run sched' s'
      | NoStep => NoStep
      | UB => UB
      end
  end.

Inductive reachable (s0 : state) : state → Prop :=
  | reach_init : reachable s0 s0
  | reach_step s t s' :
      reachable s0 s → step t s = Step s' → reachable s0 s'.

(** What the calls [cs] return and leave in the object when one thread
    makes them with nothing in between, from the content [c]. *)
Fixpoint reads_of (c : T) (cs : list call) : list T :=
  match cs with
  | [] => []
  | Read :: cs' => c :: reads_of c cs'
  | Write val :: cs' => reads_of val cs'
  end.

Fixpoint cell_after (c : T) (cs : list call) : T :=
  match cs with
  | [] => c
  | Read :: cs' => cell_after c cs'
  | Write val :: cs' => cell_after val cs'
  end.

(** The statements a thread still has to perform. *)
Definition pc_weight (p : pc) : nat :=
  match p with
  | Outside => 0
  | ReadLocked | WriteLocked _ => 2
  | ReadCopied _ | WriteDone => 1
  end.

Definition weight (th : thread) : nat :=
  (3 * length (todo th) + pc_weight (at_pc th))%nat.

Definition measure (s : state) : nat := sum_list_with weight (threads s).

(** A thread that has made all its calls. *)
Definition finished (th : thread) : Prop :=
  at_pc th = Outside ∧ todo th = [].

End Model.

Arguments call : clear implicits.
Arguments pc : clear implicits.
Arguments thread : clear implicits.
Arguments state : clear implicits.

End WithLock.

(** * What the reachable states satisfy *)

Section DispatchInvariants.
Import Dispatch.
Context {St : Type}.
Variable call_f : Z → St → option St.
Variable K N : Z.
Variable UI : St → Prop.
Variable u0 : St.

(** The dispatcher with [K] workers and the limit [N].  The mutex is held
    by the worker whose program point says so; [next_index] is between 0
    and [N], is [N] once a worker is on its way out and below [N] where a
    worker is about to claim; the indices passed to [f], with those claimed
    and not yet passed, are the indices below [next_index], each once; the
    calling thread has started the workers its loop has counted and has
    joined only workers that have returned; and the data shared with [f]
    is what the calls made so far have left. *)
Record dispatch_inv (s : state St) : Prop := mk_dispatch_inv {
  inv_lock : ∀ t pc, threads s !! t = Some pc →
             (holds_mutex pc = true ↔ index_m s = Some t);
  inv_holder : ∀ t, index_m s = Some t → is_Some (threads s !! t);
  inv_range : 0 ≤ next_index s ≤ N;
  inv_exit : ∀ t pc, threads s !! t = Some pc →
             pc = AtExit ∨ pc = Exited → next_index s = N;
  inv_claim : ∀ t, threads s !! t = Some AtClaim → next_index s < N;
  inv_perm : calls s ++ pending s ≡ₚ seqZ 0 (next_index s);
  inv_main :
    match main s with
    | Spawning i => 0 ≤ i ≤ K ∧ length (threads s) = Z.to_nat i
    | Joining j =>
        length (threads s) = Z.to_nat K ∧ (j ≤ length (threads s))%nat
        ∧ ∀ t, (t < j)%nat → threads s !! t = Some Exited
    | Returned =>
        length (threads s) = Z.to_nat K
        ∧ ∀ t pc, threads s !! t = Some pc → pc = Exited
    end;
  inv_user : UI (user s);
  inv_replay : replay call_f (calls s) u0 = Some (user s)
}.

(** Worker [i] exists once the spawn loop has passed [i]; the joins start
    when all [K] exist, and no worker is started later. *)
Definition spawned_ok (s : state St) : Prop :=
  match main s with
  | Spawning i => 0 ≤ i ≤ K ∧ length (threads s) = Z.to_nat i
  | Joining _ | Returned => length (threads s) = Z.to_nat K
  end.

(** A worker that is in its loop. *)
Definition in_loop (pc : wpc) : Prop := pc ≠ AtExit ∧ pc ≠ Exited.

(** With an exit test that fails from 0 to [INT_MAX]: every worker is in
    its loop and the calling thread waits for the first of them. *)
Record noexit_inv (s : state St) : Prop := mk_noexit_inv {
  ne_range : 0 ≤ next_index s ≤ INT_MAX;
  ne_loop : ∀ t pc, threads s !! t = Some pc → in_loop pc;
  ne_main :
    match main s with
    | Spawning i => 0 ≤ i ≤ K ∧ length (threads s) = Z.to_nat i
    | Joining j => j = 0%nat ∧ length (threads s) = Z.to_nat K
    | Returned => False
    end
}.

End DispatchInvariants.

Arguments inv_lock {St call_f K N UI u0} s _.
Arguments inv_holder {St call_f K N UI u0} s _.
Arguments inv_range {St call_f K N UI u0} s _.
Arguments inv_exit {St call_f K N UI u0} s _.
Arguments inv_claim {St call_f K N UI u0} s _.
Arguments inv_perm {St call_f K N UI u0} s _.
Arguments inv_main {St call_f K N UI u0} s _.
Arguments inv_user {St call_f K N UI u0} s _.
Arguments inv_replay {St call_f K N UI u0} s _.

(** The slots of [result] stay as many as the items of [vec]. *)
Definition sized {T R : Type} (vec : list T) (data : list R) : Prop :=
  length data = length vec.

(** A vector of [2 ^ 31] items, one more than [INT_MAX]; it is not
    evaluated anywhere. *)
Definition oversize : list unit := replicate (Z.to_nat (2 ^ 31)) ().

Section RunnerInvariants.
Import Asynchronously.
Variable cap : Z.
Variable todo0 : list nat.

(** The runner of capacity [cap] whose owner submits the tasks [todo0].
    The mutex is held by the thread whose program point says so;
    [threads_active] counts the detached threads that have not decremented
    it, and one more between the owner's increment and the start of the
    thread; it is below the capacity where the owner is about to increment
    it; past a successful test of the destructor every detached thread has
    run to its end; and the tasks finished, with those running or still to
    be submitted, are the tasks [todo0]. *)
Record runner_inv (s : state) : Prop := mk_runner_inv {
  ri_cap : max_threads s = cap;
  ri_lock_caller : caller_holds (caller s) = true ↔ m s = Some Caller;
  ri_lock_detached : ∀ t pc, detached s !! t = Some pc →
      (detached_holds pc = true ↔ m s = Some (Detached t));
  ri_holder : ∀ t, m s = Some (Detached t) → is_Some (detached s !! t);
  ri_count : threads_active s
             = Z.of_nat (sum_list_with count_weight (detached s))
               + owed (caller s);
  ri_incr : ∀ f, caller s = RunIncr f → threads_active s < cap;
  ri_le : threads_active s ≤ Z.max cap 0;
  ri_closing : caller s = DtorUnlockReturn ∨ caller s = Destroyed →
      ∀ t pc, detached s !! t = Some pc → pc = DExited;
  ri_tasks : finished (trace s) ++ unfinished s ≡ₚ todo0
}.

Definition in_destructor (pc : cpc) : bool :=
  match pc with
  | DtorLock | DtorTest | DtorUnlockRetry | DtorUnlockReturn | Destroyed => true
  | _ => false
  end.

(** The destructor runs when nothing is left to submit, and it is on its
    way round the loop only when the counter was not 0 at its test. *)
Definition dtor_inv (s : state) : Prop :=
  (in_destructor (caller s) = true → todo s = [])
  ∧ (caller s = DtorUnlockRetry → threads_active s ≠ 0).

(** With a capacity that is not positive the owner is never in the branch
    of [Run] that starts a thread, nor on its way round the destructor's
    loop. *)
Definition never_async (pc : cpc) : Prop :=
  match pc with
  | RunIncr _ | RunUnlockAsync _ | RunSpawn _ | DtorUnlockRetry => False
  | _ => True
  end.

Record sync_inv (s : state) : Prop := mk_sync_inv {
  si_cap : max_threads s = cap;
  si_count : threads_active s = 0;
  si_detached : detached s = [];
  si_caller : never_async (caller s);
  si_trace : ∀ e, e ∈ trace s → event_actor e = Caller;
  si_lock : m s = None ∨ m s = Some Caller
}.

(** Every detached thread has left in the events what its program point
    says. *)
Definition threads_events (s : state) : Prop :=
  ∀ t pc, detached s !! t = Some pc → thread_events (trace s) t pc.

(** Every detached thread has run one task and nothing else, as far as
    its program point says, and a thread not yet started has left no
    event. *)
Definition threads_ran (s : state) : Prop :=
  (∀ t pc, detached s !! t = Some pc → ∃ f, runs_task (trace s) t f pc)
  ∧ (∀ t, (length (detached s) ≤ t)%nat →
       events_of (Detached t) (trace s) = []).

End RunnerInvariants.

Arguments ri_cap {cap todo0} s _.
Arguments ri_lock_caller {cap todo0} s _.
Arguments ri_lock_detached {cap todo0} s _.
Arguments ri_holder {cap todo0} s _.
Arguments ri_count {cap todo0} s _.
Arguments ri_incr {cap todo0} s _.
Arguments ri_le {cap todo0} s _.
Arguments ri_closing {cap todo0} s _.
Arguments ri_tasks {cap todo0} s _.

Section DispatchLock.
Import Dispatch.
Context {St : Type}.

(** Whatever the limit and whatever [f] does: the mutex [index_m] is held
    by the worker whose program point says so, and by no thread that does
    not exist. *)
Definition lock_inv (s : state St) : Prop :=
  (∀ t pc, threads s !! t = Some pc →
     (holds_mutex pc = true ↔ index_m s = Some t))
  ∧ (∀ t, index_m s = Some t → is_Some (threads s !! t)).

(** With one worker: the indices passed to [f], followed by the
    one that is claimed, are the indices below [next_index] in increasing
    order. *)
Definition serial_inv (s : state St) : Prop :=
  0 ≤ next_index s ∧ calls s ++ pending s = seqZ 0 (next_index s).

End DispatchLock.

Section RunnerThrottle.
Import Asynchronously.
Variable cap : Z.
Variable todo0 : list nat.

(** A detached thread that has not yet released the mutex for the last
    time: the [m.unlock()] of its [~MutexLock], its last access to the
    runner, is still to come. *)
Definition uses_runner (pc : dpc) : bool :=
  match pc with
  | DExited => false
  | _ => true
  end.

Definition user_weight (pc : dpc) : nat := if uses_runner pc then 1 else 0.

Definition runner_users (s : state) : nat :=
  sum_list_with user_weight (detached s).

(** A detached thread that has decremented the counter and still holds the
    mutex. *)
Definition unlock_weight (pc : dpc) : nat :=
  match pc with
  | DUnlock => 1
  | _ => 0
  end.

(** The counter leaves room for the thread that has decremented it and is
    about to release the mutex. *)
Definition release_inv (s : state) : Prop :=
  threads_active s + Z.of_nat (sum_list_with unlock_weight (detached s))
  ≤ Z.max cap 0.

(** The owner is in [Run] and has not incremented the counter. *)
Definition awaiting (pc : cpc) : Z :=
  match pc with
  | RunLock _ | RunTest _ | RunIncr _ => 1
  | _ => 0
  end.

Definition never_sync (pc : cpc) : Prop :=
  match pc with
  | RunUnlockSync _ | RunCall _ | RunInCall _ => False
  | _ => True
  end.

(** With a capacity of at least the number of tasks: the counter leaves
    room for every task still to be started, the owner is never in the
    branch of [Run] that runs the task itself, no task event is on the
    owner's thread, and there is a thread for every task [Run] has been
    through. *)
Record room_inv (s : state) : Prop := mk_room_inv {
  ro_cap : max_threads s = cap;
  ro_room : threads_active s + Z.of_nat (length (todo s)) + awaiting (caller s)
            ≤ cap;
  ro_caller : never_sync (caller s);
  ro_trace : ∀ e, e ∈ trace s → event_actor e ≠ Caller;
  ro_threads : (length (detached s) + length (caller_task (caller s))
                + length (todo s))%nat
               = length todo0
}.

End RunnerThrottle.

Section WithLockInvariants.
Import WithLock.
Context {T : Type}.

(** The mutex is held by the thread that is inside a call, and by no
    thread that does not exist. *)
Definition cell_lock_inv (s : state T) : Prop :=
  (∀ t th, threads s !! t = Some th →
     (holds (at_pc th) = true ↔ m s = Some t))
  ∧ (∀ t, m s = Some t → is_Some (threads s !! t)).

(** A thread that makes no call of [WriteWithLock]. *)
Definition reads_only (th : thread T) : Prop :=
  Forall (λ c, c = Read) (todo th)
  ∧ match at_pc th with
    | WriteLocked _ | WriteDone => False
    | _ => True
    end.

(** The one thread that writes, with the calls [p] it makes in all: the
    calls [done] are behind it, the values it has read and the content of
    the object are those of [done] made with nothing in between, and the
    call it is in and those it still makes are the rest of [p]. *)
Definition writer_inv (c0 : T) (p : list (call T)) (s : state T)
    (th : thread T) : Prop :=
  ∃ done,
    got th = reads_of c0 done
    ∧ match at_pc th with
      | Outside => p = done ++ todo th ∧ cell s = cell_after c0 done
      | ReadLocked =>
          p = done ++ Read :: todo th ∧ cell s = cell_after c0 done
      | ReadCopied v =>
          p = done ++ Read :: todo th ∧ cell s = cell_after c0 done
          ∧ v = cell s
      | WriteLocked val =>
          p = done ++ Write val :: todo th ∧ cell s = cell_after c0 done
      | WriteDone => p = done ++ Write (cell s) :: todo th
      end.

Definition single_writer_inv (c0 : T) (progs : list (list (call T)))
    (w : nat) (s : state T) : Prop :=
  (∀ t th, threads s !! t = Some th → t ≠ w → reads_only th)
  ∧ (∀ th p, threads s !! w = Some th → progs !! w = Some p →
       writer_inv c0 p s th).

End WithLockInvariants.

(** * Proofs *)

(** ** Lists of program counters *)

Lemma sum_list_with_insert {A} (w : A → nat) (l : list A) (t : nat) (x y : A) :
  l !! t = Some x →
  (sum_list_with w (<[t := y]> l) + w x = sum_list_with w l + w y)%nat.
Proof.
  revert t. induction l as [|a l IH]; intros [|t] Ht; simplify_eq/=.
  - lia.
  - specialize (IH _ Ht). lia.
Qed.

Lemma omap_insert_perm {A B} (g : A → option B) (l : list A) (t : nat)
    (x y : A) :
  l !! t = Some x →
  omap g (<[t := y]> l) ++ option_list (g x)
  ≡ₚ omap g l ++ option_list (g y).
Proof.
  revert t. induction l as [|a l IH]; intros [|t] Ht; simplify_eq/=.
  - destruct (g x), (g y); simpl; try done.
    + rewrite <- !Permutation_cons_append. apply perm_swap.
    + by rewrite <- Permutation_cons_append, app_nil_r.
    + by rewrite <- Permutation_cons_append, app_nil_r.
  - specialize (IH _ Ht). destruct (g a); simpl; [by f_equiv | done].
Qed.

Lemma omap_insert_same {A B} (g : A → option B) (l : list A) (t : nat)
    (x y : A) :
  l !! t = Some x → g x = g y → omap g (<[t := y]> l) = omap g l.
Proof.
  revert t. induction l as [|a l IH]; intros [|t] Ht Hg; simplify_eq/=.
  - by rewrite Hg.
  - by rewrite (IH _ Ht Hg).
Qed.

Lemma int_succ_Some i n : int_succ i = Some n ↔ i < INT_MAX ∧ n = i + 1.
Proof.
  unfold int_succ. destruct (Z.ltb_spec i INT_MAX); split.
  - intros [= <-]. done.
  - intros [_ ->]. done.
  - done.
  - lia.
Qed.

Lemma int_pred_Some i n : int_pred i = Some n ↔ INT_MIN < i ∧ n = i - 1.
Proof.
  unfold int_pred. destruct (Z.ltb_spec INT_MIN i); split.
  - intros [= <-]. done.
  - intros [_ ->]. done.
  - done.
  - lia.
Qed.

(** ** The dispatcher with a limit that the counter can reach

    [N] is the number of items: the exit test holds at [N] and nowhere
    else among the values an [int] counter takes on its way up from 0.
    [UI] is what the calls of [f] keep true of the data they share. *)

Section DispatchSafety.
Import Dispatch.
Context {St : Type}.
Variable exit_test : Z → bool.
Variable call_f : Z → St → option St.
Variable K N : Z.
Variable UI : St → Prop.
Variable u0 : St.
Hypothesis N_range : 0 ≤ N ≤ INT_MAX.
Hypothesis K_range : 1 ≤ K ≤ INT_MAX.
Hypothesis exit_spec : ∀ n, 0 ≤ n ≤ INT_MAX → exit_test n = true ↔ n = N.
Hypothesis UI_init : UI u0.
Hypothesis call_ok :
  ∀ i u, 0 ≤ i < N → UI u → ∃ u', call_f i u = Some u' ∧ UI u'.

Local Abbreviation dinv := (dispatch_inv call_f K N UI u0).

Lemma dispatch_inv_init : dinv (init u0).
Proof.
  constructor; simpl; try done; try lia.
  all: try (intros ? ?; rewrite lookup_nil; done).
Qed.

Lemma pending_spawn (s : state St) : pending (spawn s) = pending s.
Proof. unfold pending; simpl. by rewrite omap_app, app_nil_r. Qed.

Lemma dispatch_inv_main_step s s' :
  dinv s → main_step K s = Step s' → dinv s'.
Proof.
  intros I Hs. unfold main_step in Hs.
  pose proof (inv_main _ I) as Im.
  destruct (main s) as [i|j|] eqn:Hm; [| |done].
  - destruct (Z.ltb_spec i K).
    + destruct (int_succ i) as [i'|] eqn:Hi; [|done].
      apply int_succ_Some in Hi as [? ->]. simplify_eq.
      destruct Im as [Hi Hlen].
      constructor; simpl; try apply I.
      * intros t pc [Ht|[Hge Ht]]%lookup_app_Some; [by apply I|].
        apply list_lookup_singleton_Some in Ht as [_ <-]. simpl.
        split; [done|]. intros Hh. apply (inv_holder _ I) in Hh.
        apply lookup_lt_is_Some in Hh. lia.
      * intros t Hh. apply (inv_holder _ I) in Hh.
        apply lookup_lt_is_Some. apply lookup_lt_is_Some in Hh.
        rewrite length_app. simpl. lia.
      * intros t pc [Ht|[Hge Ht]]%lookup_app_Some; [by eapply I|].
        apply list_lookup_singleton_Some in Ht as [_ <-]. by intros [|].
      * intros t [Ht|[Hge Ht]]%lookup_app_Some; [by eapply I|].
        by apply list_lookup_singleton_Some in Ht as [_ ?].
      * change (calls s ++ pending (spawn s) ≡ₚ seqZ 0 (next_index s)).
        rewrite pending_spawn. apply I.
      * rewrite length_app. simpl. lia.
    + simplify_eq. destruct Im as [Hi Hlen].
      constructor; simpl; try apply I.
      split; [|split]; [lia|lia|lia].
  - destruct Im as (Hlen & Hj & Hex).
    destruct (threads s !! j) as [pc|] eqn:Hj'.
    + destruct pc; simplify_eq.
      constructor; simpl; try apply I.
      split; [done|]. split.
      * apply lookup_lt_Some in Hj'. lia.
      * intros t Ht. destruct (decide (t = j)) as [->|]; [done|].
        apply Hex. lia.
    + simplify_eq. apply lookup_ge_None in Hj'.
      constructor; simpl; try apply I.
      split; [done|]. intros t pc Ht. 
      assert (t < j)%nat by (apply lookup_lt_Some in Ht; lia).
      rewrite Hex in Ht by done. by simplify_eq.
Qed.


Ltac ins :=
  repeat match goal with
  | H : <[_ := _]> _ !! _ = Some _ |- _ =>
      apply list_lookup_insert_Some in H as [(-> & ? & ?)|(? & H)]
  end; simplify_eq.

Lemma dispatch_inv_worker_step t s s' :
  dinv s → worker_step exit_test call_f t s = Step s' → dinv s'.
Proof.
  intros I Hs. unfold worker_step in Hs.
  destruct (threads s !! t) as [pc|] eqn:Ht; [|done].
  pose proof (inv_lock _ I _ _ Ht) as Hl.
  pose proof (inv_main _ I) as Im.
  pose proof (inv_range _ I) as Ir.
  assert (Hmain : ∀ pc', pc ≠ Exited →
    match main s with
    | Spawning i => 0 ≤ i ≤ K ∧ length (<[t:=pc']> (threads s)) = Z.to_nat i
    | Joining j =>
        length (<[t:=pc']> (threads s)) = Z.to_nat K
        ∧ (j ≤ length (<[t:=pc']> (threads s)))%nat
        ∧ ∀ t', (t' < j)%nat → <[t:=pc']> (threads s) !! t' = Some Exited
    | Returned =>
        length (<[t:=pc']> (threads s)) = Z.to_nat K
        ∧ ∀ t' pc0, <[t:=pc']> (threads s) !! t' = Some pc0 → pc0 = Exited
    end).
  { intros pc' Hne. rewrite !length_insert. destruct (main s); [done| |].
    - destruct Im as (? & ? & Hex). split; [done|]. split; [done|].
      intros t' Ht'. rewrite list_lookup_insert_ne; [by apply Hex|].
      intros ->. rewrite Hex in Ht by done. by simplify_eq.
    - destruct Im as (? & Hex). by apply Hex in Ht. }
  assert (Hlen : (t < length (threads s))%nat) by by eapply lookup_lt_Some.
  destruct pc; simpl in Hl.
  - (* index_m.lock() *)
    destruct (index_m s) as [h|] eqn:Hm; [done|]. simplify_eq.
    constructor; simpl; try apply I; try (apply Hmain; done).
    + intros t0 pc0 Hlk. ins; simpl; [done|].
      pose proof (inv_lock _ I _ _ Hlk) as Hl0. rewrite Hm in Hl0.
      split; [intros ?%Hl0; done|congruence].
    + intros t0 [= <-]. by rewrite list_lookup_insert_eq.
    + intros t0 pc0 Hlk Hpc. ins; [by destruct Hpc|by eapply I].
    + intros t0 Hlk. ins. by eapply I.
    + unfold pending; simpl. rewrite (omap_insert_same _ _ _ _ _ Ht) by done.
      apply I.
  - (* if (next_index == num) *)
    destruct Hl as [Hl _]. specialize (Hl eq_refl).
    assert (Hx : exit_test (next_index s) = true ↔ next_index s = N)
      by (apply exit_spec; lia).
    destruct (exit_test (next_index s)); simplify_eq.
    + constructor; simpl; try apply I; try (apply Hmain; done).
      * intros t0 pc0 Hlk. ins; simpl; [by rewrite Hl|by apply I].
      * intros t0 Hh. apply lookup_lt_is_Some. rewrite length_insert.
        apply lookup_lt_is_Some. by apply I.
      * intros t0 pc0 Hlk Hpc. ins; [by apply Hx|by eapply I].
      * intros t0 Hlk. ins. by eapply I.
      * unfold pending; simpl.
        rewrite (omap_insert_same _ _ _ _ _ Ht) by done. apply I.
    + assert (next_index s ≠ N) by (intros ?%Hx; done).
      constructor; simpl; try apply I; try (apply Hmain; done).
      * intros t0 pc0 Hlk. ins; simpl; [by rewrite Hl|by apply I].
      * intros t0 Hh. apply lookup_lt_is_Some. rewrite length_insert.
        apply lookup_lt_is_Some. by apply I.
      * intros t0 pc0 Hlk Hpc. ins; [by destruct Hpc|by eapply I].
      * intros t0 Hlk. ins; [lia|by eapply I].
      * unfold pending; simpl.
        rewrite (omap_insert_same _ _ _ _ _ Ht) by done. apply I.
  - (* index_m.unlock(); return *)
    destruct Hl as [Hl _]. specialize (Hl eq_refl). simplify_eq.
    constructor; simpl; try apply I; try (apply Hmain; done).
    + intros t0 pc0 Hlk. ins; simpl; [done|].
      pose proof (inv_lock _ I _ _ Hlk) as Hl0. rewrite Hl in Hl0.
      split; [|done]. intros ?%Hl0. congruence.
    + done.
    + intros t0 pc0 Hlk Hpc. ins; [|by eapply I].
      eapply (inv_exit _ I); [exact Ht|by left].
    + intros t0 Hlk. ins. by eapply I.
    + unfold pending; simpl. rewrite (omap_insert_same _ _ _ _ _ Ht) by done.
      apply I.
  - (* int my_index = next_index++ *)
    destruct Hl as [Hl _]. specialize (Hl eq_refl).
    destruct (int_succ (next_index s)) as [n|] eqn:Hn; [|done].
    apply int_succ_Some in Hn as [? ->]. simplify_eq.
    pose proof (inv_claim _ I _ Ht) as Hlt.
    constructor; simpl; try apply I; try (apply Hmain; done).
    + intros t0 pc0 Hlk. ins; simpl; [by rewrite Hl|by apply I].
    + intros t0 Hh. apply lookup_lt_is_Some. rewrite length_insert.
      apply lookup_lt_is_Some. by apply I.
    + lia.
    + intros t0 pc0 Hlk Hpc. ins; [by destruct Hpc|].
      pose proof (inv_exit _ I _ _ Hlk Hpc). lia.
    + intros t0 Hlk. ins.
      pose proof (inv_lock _ I _ _ Hlk) as [Hl0 _].
      specialize (Hl0 eq_refl). congruence.
    + unfold pending; simpl.
      pose proof (omap_insert_perm claimed _ _ _ (AtUnlock (next_index s)) Ht)
        as Hp. simpl in Hp. rewrite app_nil_r in Hp.
      rewrite Hp, app_assoc.
      replace (next_index s + 1) with (Z.of_nat (S (Z.to_nat (next_index s))))
        by lia.
      rewrite seqZ_S, Z2Nat.id by lia. simpl.
      rewrite Z.add_0_l. f_equiv. apply I.
  - (* index_m.unlock() *)
    destruct Hl as [Hl _]. specialize (Hl eq_refl). simplify_eq.
    constructor; simpl; try apply I; try (apply Hmain; done).
    + intros t0 pc0 Hlk. ins; simpl; [done|].
      pose proof (inv_lock _ I _ _ Hlk) as Hl0. rewrite Hl in Hl0.
      split; [|done]. intros ?%Hl0. congruence.
    + done.
    + intros t0 pc0 Hlk Hpc. ins; [by destruct Hpc|by eapply I].
    + intros t0 Hlk. ins. by eapply I.
    + unfold pending; simpl. rewrite (omap_insert_same _ _ _ _ _ Ht) by done.
      apply I.
  - (* (void)f(my_index) *)
    destruct (call_f my_index (user s)) as [u|] eqn:Hu; [|done]. simplify_eq.
    assert (Hin : 0 ≤ my_index < N).
    { assert (my_index ∈ seqZ 0 (next_index s)) as Hin.
      { rewrite <- (inv_perm _ I). apply elem_of_app. right.
        unfold pending. apply list_elem_of_omap. exists (AtCall my_index).
        split; [|done]. by eapply list_elem_of_lookup_2. }
      apply elem_of_seqZ in Hin. lia. }
    destruct (call_ok my_index (user s) Hin (inv_user _ I)) as (u' & Hu' & HUI).
    rewrite Hu in Hu'. simplify_eq.
    constructor; simpl; try apply I; try (apply Hmain; done); try done.
    + intros t0 pc0 Hlk. ins; simpl; [|by apply I]. split; [done|].
      intros Hh. destruct Hl as [_ Hl]. by apply Hl in Hh.
    + intros t0 Hh. apply lookup_lt_is_Some. rewrite length_insert.
      apply lookup_lt_is_Some. by apply I.
    + intros t0 pc0 Hlk Hpc. ins; [by destruct Hpc|by eapply I].
    + intros t0 Hlk. ins. by eapply I.
    + unfold pending; simpl.
      pose proof (omap_insert_perm claimed _ _ _ AtLock Ht) as Hp.
      simpl in Hp. rewrite app_nil_r in Hp.
      rewrite <- app_assoc, (Permutation_app_comm [my_index]), Hp. apply I.
    + unfold replay. rewrite foldl_app. simpl.
      fold (replay call_f (calls s) u0). by rewrite (inv_replay _ I).
  - done.
Qed.

Lemma dispatch_inv_step a s s' :
  dinv s → step exit_test call_f K a s = Step s' → dinv s'.
Proof.
  destruct a; simpl; eauto using dispatch_inv_main_step, dispatch_inv_worker_step.
Qed.

Lemma dispatch_inv_reachable s :
  reachable exit_test call_f K (init u0) s → dinv s.
Proof. induction 1; eauto using dispatch_inv_init, dispatch_inv_step. Qed.

Lemma dispatch_run_reachable s0 sched s s' :
  reachable exit_test call_f K s0 s →
  run exit_test call_f K sched s = Step s' →
  reachable exit_test call_f K s0 s'.
Proof.
  revert s. induction sched as [|a sched IH]; intros s Hr Hrun; simpl in Hrun.
  - by simplify_eq.
  - destruct (step exit_test call_f K a s) as [s1| |] eqn:Hs; [|done|done].
    eapply IH; [|done]. by eapply reach_step.
Qed.

Lemma dispatch_run_app sched1 sched2 (s s1 : state St) :
  run exit_test call_f K sched1 s = Step s1 →
  run exit_test call_f K (sched1 ++ sched2) s
  = run exit_test call_f K sched2 s1.
Proof.
  revert s. induction sched1 as [|a sched1 IH]; intros s Hrun; simpl in *.
  - by simplify_eq.
  - destruct (step exit_test call_f K a s); [|done|done]. by apply IH.
Qed.

(** Every statement is one that the bound has counted. *)
Lemma dispatch_measure_step a s s' :
  dinv s → step exit_test call_f K a s = Step s' →
  measure K N s' < measure K N s.
Proof.
  intros I Hs. pose proof (inv_main _ I) as Im. unfold measure.
  destruct a as [|t]; simpl in Hs.
  - unfold main_step in Hs. destruct (main s) as [i|j|] eqn:Hm; [| |done].
    + destruct (Z.ltb_spec i K).
      * destruct (int_succ i) as [i'|] eqn:Hi; [|done].
        apply int_succ_Some in Hi as [? ->]. simplify_eq. simpl.
        rewrite sum_list_with_app. simpl. lia.
      * simplify_eq. simpl. lia.
    + destruct (threads s !! j) as [[]|] eqn:Hj; simplify_eq; simpl; lia.
  - unfold worker_step in Hs.
    destruct (threads s !! t) as [pc|] eqn:Ht; [|done].
    destruct pc;
      repeat match type of Hs with
             | context [match ?x with _ => _ end] => destruct x eqn:?
             end; simplify_eq; simpl;
      match goal with
      | |- context [<[t:=?pc']> _] =>
          pose proof (sum_list_with_insert weight _ _ _ pc' Ht) as Hw
      end; simpl in Hw;
      try match goal with
          | H : int_succ _ = Some _ |- _ => apply int_succ_Some in H as [? ->]
          end; lia.
Qed.

Lemma dispatch_measure_nonneg s : dinv s → 0 ≤ measure K N s.
Proof.
  intros I. pose proof (inv_main _ I) as Im. pose proof (inv_range _ I).
  unfold measure. destruct (main s); simpl; lia.
Qed.

(** An execution has at most as many statements as the bound says. *)
Lemma dispatch_run_bounded sched s s' :
  dinv s → run exit_test call_f K sched s = Step s' →
  Z.of_nat (length sched) ≤ measure K N s - measure K N s'.
Proof.
  revert s. induction sched as [|a sched IH]; intros s I Hrun; simpl in Hrun.
  - simplify_eq. simpl. lia.
  - destruct (step exit_test call_f K a s) as [s1| |] eqn:Hs; [|done|done].
    pose proof (dispatch_measure_step _ _ _ I Hs).
    specialize (IH _ (dispatch_inv_step _ _ _ I Hs) Hrun). simpl length. lia.
Qed.

(** No statement that can be reached has undefined behaviour. *)
Lemma dispatch_no_UB a s : dinv s → step exit_test call_f K a s ≠ UB.
Proof.
  intros I. pose proof (inv_main _ I) as Im.
  destruct a as [|t]; simpl.
  - unfold main_step. destruct (main s) as [i|j|]; [| |done].
    + destruct (Z.ltb_spec i K); [|done].
      unfold int_succ. destruct (Z.ltb_spec i INT_MAX); [done|lia].
    + by destruct (threads s !! j) as [[]|].
  - unfold worker_step. destruct (threads s !! t) as [pc|] eqn:Ht; [|done].
    destruct pc; try done.
    + by destruct (index_m s).
    + by destruct (exit_test (next_index s)).
    + pose proof (inv_claim _ I _ Ht). unfold int_succ.
      destruct (Z.ltb_spec (next_index s) INT_MAX); [done|lia].
    + assert (Hin : 0 ≤ my_index < N).
      { assert (my_index ∈ seqZ 0 (next_index s)) as Hin.
        { rewrite <- (inv_perm _ I). apply elem_of_app. right.
          unfold pending. apply list_elem_of_omap. exists (AtCall my_index).
          split; [|done]. by eapply list_elem_of_lookup_2. }
        apply elem_of_seqZ in Hin. pose proof (inv_range _ I). lia. }
      destruct (call_ok my_index (user s) Hin (inv_user _ I)) as (u' & -> & _).
      done.
Qed.

(** Until the call has returned, some thread can perform a statement. *)
Lemma dispatch_progress s :
  dinv s → main s ≠ Returned → ∃ a s', step exit_test call_f K a s = Step s'.
Proof.
  intros I Hm. pose proof (inv_main _ I) as Im.
  assert (Hhold : ∀ t pc, threads s !! t = Some pc → holds_mutex pc = true →
            ∃ s', worker_step exit_test call_f t s = Step s').
  { intros t pc Ht Hh. pose proof (dispatch_no_UB (Worker t) s I) as Hub.
    simpl in Hub. unfold worker_step in *. rewrite Ht in *.
    destruct pc; try done; eauto.
    - destruct (exit_test (next_index s)); eauto.
    - destruct (int_succ (next_index s)); eauto. done. }
  assert (Hfree : ∀ t pc, threads s !! t = Some pc → index_m s = None →
            pc ≠ Exited → ∃ s', worker_step exit_test call_f t s = Step s').
  { intros t pc Ht Hfree Hne. pose proof (dispatch_no_UB (Worker t) s I) as Hub.
    simpl in Hub. unfold worker_step in *. rewrite Ht, ?Hfree in *.
    destruct pc; try done; eauto.
    - destruct (exit_test (next_index s)); eauto.
    - destruct (int_succ (next_index s)); eauto. done.
    - destruct (call_f my_index (user s)); eauto. done. }
  destruct (main s) as [i|j|] eqn:Hmain; [| |done].
  - exists Main. simpl. unfold main_step. rewrite Hmain.
    pose proof (dispatch_no_UB Main s I) as Hub. simpl in Hub.
    unfold main_step in Hub. rewrite Hmain in Hub.
    destruct (i <? K); [|eauto]. destruct (int_succ i); eauto. done.
  - destruct (threads s !! j) as [pc|] eqn:Hj.
    + destruct (decide (pc = Exited)) as [->|Hne].
      * exists Main. simpl. unfold main_step. rewrite Hmain, Hj. eauto.
      * destruct (index_m s) as [h|] eqn:Hh.
        -- destruct (inv_holder _ I _ Hh) as [pc' Hpc'].
           pose proof (inv_lock _ I _ _ Hpc') as [_ Hl].
           destruct (Hhold _ _ Hpc' (Hl Hh)) as [s' Hs'].
           exists (Worker h), s'. done.
        -- destruct (Hfree _ _ Hj eq_refl Hne) as [s' Hs'].
           exists (Worker j), s'. done.
    + exists Main. simpl. unfold main_step. rewrite Hmain, Hj. eauto.
Qed.

(** Some schedule runs the call to its return. *)
Lemma dispatch_completes s :
  dinv s → ∃ sched s', run exit_test call_f K sched s = Step s'
                     ∧ main s' = Returned.
Proof.
  intros I. remember (Z.to_nat (measure K N s)) as n eqn:Hn.
  revert s I Hn. induction (lt_wf n) as [n _ IH]. intros s I ->.
  destruct (decide (main s = Returned)) as [Hm|Hm].
  - exists [], s. done.
  - destruct (dispatch_progress s I Hm) as (a & s1 & Hs).
    pose proof (dispatch_measure_step _ _ _ I Hs).
    pose proof (dispatch_measure_nonneg _ (dispatch_inv_step _ _ _ I Hs)).
    destruct (IH (Z.to_nat (measure K N s1)) ltac:(lia) s1
                 (dispatch_inv_step _ _ _ I Hs) eq_refl) as (sched & s' & Hrun & Hret).
    exists (a :: sched), s'. simpl. rewrite Hs. done.
Qed.

(** Once the call has returned every index below [N] has been passed to
    [f] once, and no other. *)
Lemma dispatch_returned s :
  dinv s → main s = Returned →
  calls s ≡ₚ seqZ 0 N ∧ length (threads s) = Z.to_nat K
  ∧ replay call_f (calls s) u0 = Some (user s).
Proof.
  intros I Hm. pose proof (inv_main _ I) as Im. rewrite Hm in Im.
  destruct Im as [Hlen Hex].
  assert (Hn : next_index s = N).
  { destruct (threads s !! 0%nat) as [pc|] eqn:H0.
    - eapply (inv_exit _ I); [exact H0|]. right. by eapply Hex.
    - apply lookup_ge_None in H0. lia. }
  assert (Hp : pending s = []).
  { unfold pending. clear -Hex. induction (threads s) as [|pc l IHl]; [done|].
    rewrite (Hex 0%nat pc eq_refl). simpl. apply IHl.
    intros t pc' Ht. by apply (Hex (S t)). }
  pose proof (inv_perm _ I) as Hperm. rewrite Hp, app_nil_r, Hn in Hperm.
  split; [done|]. split; [done|]. apply I.
Qed.

(** The calls made so far are on distinct indices below [N]. *)
Lemma dispatch_calls_distinct s :
  dinv s → NoDup (calls s) ∧ ∀ i, i ∈ calls s → 0 ≤ i < N.
Proof.
  intros I. pose proof (inv_perm _ I) as Hp. pose proof (inv_range _ I).
  split.
  - assert (NoDup (calls s ++ pending s)) as Hnd
      by (rewrite Hp; apply NoDup_seqZ).
    by apply NoDup_app in Hnd as [? _].
  - intros i Hi. assert (i ∈ seqZ 0 (next_index s)) as Hin.
    { rewrite <- Hp. apply elem_of_app. by left. }
    apply elem_of_seqZ in Hin. lia.
Qed.

Lemma dispatch_bounded sched s :
  run exit_test call_f K sched (init u0) = Step s →
  Z.of_nat (length sched) ≤ 5 * N + 5 * K + 2.
Proof.
  intros Hrun.
  pose proof (dispatch_run_bounded _ _ _ dispatch_inv_init Hrun) as Hb.
  assert (dinv s) as I.
  { apply dispatch_inv_reachable.
    eapply dispatch_run_reachable; [constructor|done]. }
  pose proof (dispatch_measure_nonneg _ I).
  unfold measure in Hb at 1. simpl in Hb. lia.
Qed.

Lemma dispatch_returns :
  ∃ sched s', run exit_test call_f K sched (init u0) = Step s'
              ∧ main s' = Returned.
Proof. apply dispatch_completes, dispatch_inv_init. Qed.

End DispatchSafety.

(** ** The number of workers, whatever the limit and whatever [f] does *)

Section DispatchSpawn.
Import Dispatch.
Context {St : Type}.
Variable exit_test : Z → bool.
Variable call_f : Z → St → option St.
Variable K : Z.
Hypothesis K_range : 1 ≤ K ≤ INT_MAX.

Lemma spawned_ok_step a s s' :
  spawned_ok K s → step exit_test call_f K a s = Step s' → spawned_ok K s'.
Proof.
  unfold spawned_ok. intros I Hs. destruct a as [|t]; simpl in Hs.
  - unfold main_step in Hs. destruct (main s) as [i|j|] eqn:Hm; [| |done].
    + destruct (Z.ltb_spec i K).
      * destruct (int_succ i) as [i'|] eqn:Hi; [|done].
        apply int_succ_Some in Hi as [? ->]. simplify_eq. simpl.
        rewrite length_app. simpl. lia.
      * simplify_eq. simpl. f_equal. lia.
    + by destruct (threads s !! j) as [[]|]; simplify_eq.
  - unfold worker_step in Hs.
    destruct (threads s !! t) as [pc|] eqn:Ht; [|done].
    destruct pc;
      repeat match type of Hs with
             | context [match ?x with _ => _ end] => destruct x eqn:?
             end; simplify_eq; simpl; by rewrite length_insert.
Qed.

Lemma spawned_ok_reachable u0 s :
  reachable exit_test call_f K (init u0) s → spawned_ok K s.
Proof.
  induction 1; eauto using spawned_ok_step.
  unfold spawned_ok. simpl. lia.
Qed.

Lemma spawned_at_most u0 s :
  reachable exit_test call_f K (init u0) s →
  (length (threads s) ≤ Z.to_nat K)%nat
  ∧ (main s = Returned → length (threads s) = Z.to_nat K).
Proof.
  intros Hr%spawned_ok_reachable. unfold spawned_ok in Hr.
  destruct (main s); split; try done; lia.
Qed.

End DispatchSpawn.

(** ** The dispatcher with a limit that the counter cannot reach

    The exit test fails at every value from 0 to [INT_MAX], as it does
    for a negative [num]. *)

Section DispatchNoExit.
Import Dispatch.
Context {St : Type}.
Variable exit_test : Z → bool.
Variable call_f : Z → St → option St.
Variable K : Z.
Variable u0 : St.
Hypothesis K_range : 1 ≤ K ≤ INT_MAX.
Hypothesis exit_never : ∀ n, 0 ≤ n ≤ INT_MAX → exit_test n = false.

Lemma noexit_inv_step a s s' :
  noexit_inv K s → step exit_test call_f K a s = Step s' → noexit_inv K s'.
Proof.
  intros [Ir Il Im] Hs. destruct a as [|t]; simpl in Hs.
  - unfold main_step in Hs. destruct (main s) as [i|j|] eqn:Hm; [| |done].
    + destruct (Z.ltb_spec i K).
      * destruct (int_succ i) as [i'|] eqn:Hi; [|done].
        apply int_succ_Some in Hi as [? ->]. simplify_eq.
        constructor; simpl; [done| |rewrite length_app; simpl; lia].
        intros t pc [Ht|[_ Ht]]%lookup_app_Some; [by eapply Il|].
        by apply list_lookup_singleton_Some in Ht as [_ <-].
      * simplify_eq. constructor; simpl; [done|done|].
        split; [done|]. f_equal. lia.
    + destruct Im as [-> Hlen].
      destruct (threads s !! 0%nat) as [pc|] eqn:H0.
      * destruct (Il _ _ H0) as [_ ?]. by destruct pc.
      * apply lookup_ge_None in H0. lia.
  - unfold worker_step in Hs.
    destruct (threads s !! t) as [pc|] eqn:Ht; [|done].
    assert (Hk : ∀ pc', in_loop pc' →
              ∀ t' pc0, <[t:=pc']> (threads s) !! t' = Some pc0 → in_loop pc0).
    { intros pc' Hpc' t' pc0 [(_ & <- & _)|(_ & Hl)]%list_lookup_insert_Some;
        [done|by eapply Il]. }
    destruct pc.
    + destruct (index_m s); simplify_eq.
      constructor; simpl; [done| |by rewrite length_insert]. by apply Hk.
    + rewrite exit_never in Hs by done. simplify_eq.
      constructor; simpl; [done| |by rewrite length_insert]. by apply Hk.
    + by destruct (Il _ _ Ht) as [? _].
    + destruct (int_succ (next_index s)) as [n|] eqn:Hn; [|done].
      apply int_succ_Some in Hn as [? ->]. simplify_eq.
      constructor; simpl; [lia| |by rewrite length_insert]. by apply Hk.
    + simplify_eq.
      constructor; simpl; [done| |by rewrite length_insert]. by apply Hk.
    + destruct (call_f my_index (user s)); simplify_eq.
      constructor; simpl; [done| |by rewrite length_insert]. by apply Hk.
    + done.
Qed.

Lemma noexit_inv_reachable s :
  reachable exit_test call_f K (init u0) s → noexit_inv K s.
Proof.
  induction 1; eauto using noexit_inv_step.
  constructor; simpl; [unfold INT_MAX; lia| |lia].
  intros t pc. by rewrite lookup_nil.
Qed.

End DispatchNoExit.


(** ** The mutex of the dispatcher, whatever the limit *)

Section DispatchLockProofs.
Import Dispatch.
Context {St : Type}.
Variable exit_test : Z → bool.
Variable call_f : Z → St → option St.
Variable K : Z.

Lemma lock_inv_init (u0 : St) : lock_inv (init u0).
Proof.
  split; simpl; [|done]. intros t pc. by rewrite lookup_nil.
Qed.

(** A statement of worker [t] that leaves the mutex to the other workers
    as it was. *)
Lemma lock_inv_update (s s' : state St) t pc pc' :
  lock_inv s → threads s !! t = Some pc →
  threads s' = <[t := pc']> (threads s) →
  (holds_mutex pc' = true ↔ index_m s' = Some t) →
  (∀ t0, t0 ≠ t → index_m s' = Some t0 ↔ index_m s = Some t0) →
  lock_inv s'.
Proof.
  intros [Hl Hh] Ht Hth Hown Hother. split.
  - intros t0 pc0. rewrite Hth. intros Hlk.
    apply list_lookup_insert_Some in Hlk as [(-> & -> & _)|(Hne & Hlk)];
      [done|].
    rewrite (Hl _ _ Hlk). symmetry. apply Hother. congruence.
  - intros t0 Hm. rewrite Hth. apply lookup_lt_is_Some.
    rewrite length_insert. destruct (decide (t0 = t)) as [->|Hne].
    + by eapply lookup_lt_Some.
    + apply lookup_lt_is_Some, Hh. by apply Hother.
Qed.

Lemma lock_inv_step a s s' :
  lock_inv s → step exit_test call_f K a s = Step s' → lock_inv s'.
Proof.
  intros I Hs. destruct a as [|t]; simpl in Hs.
  - destruct I as [Hl Hh]. unfold main_step in Hs.
    destruct (main s) as [i|j|]; [| |done].
    + destruct (i <? K).
      * destruct (int_succ i); [|done]. simplify_eq. split; simpl.
        -- intros t pc [Ht|[Hge Ht]]%lookup_app_Some; [by apply Hl|].
           apply list_lookup_singleton_Some in Ht as [_ <-]. simpl.
           split; [done|]. intros Hm%Hh%lookup_lt_is_Some. lia.
        -- intros t Hm%Hh%lookup_lt_is_Some. apply lookup_lt_is_Some.
           rewrite length_app. simpl. lia.
      * by simplify_eq.
    + destruct (threads s !! j) as [[]|]; by simplify_eq.
  - unfold worker_step in Hs.
    destruct (threads s !! t) as [pc|] eqn:Ht; [|done].
    pose proof (proj1 I _ _ Ht) as Hown.
    destruct pc; simpl in Hown.
    + destruct (index_m s) as [h|] eqn:Hm; [done|]. simplify_eq.
      apply (lock_inv_update s _ t AtLock AtTest I Ht); [done|..]; simpl.
      * done.
      * intros t0 Hne. split; congruence.
    + destruct Hown as [Hown _]. specialize (Hown eq_refl).
      destruct (exit_test (next_index s)); simplify_eq.
      * by apply (lock_inv_update s _ t AtTest AtExit I Ht).
      * by apply (lock_inv_update s _ t AtTest AtClaim I Ht).
    + destruct Hown as [Hown _]. specialize (Hown eq_refl). simplify_eq.
      apply (lock_inv_update s _ t AtExit Exited I Ht); [done|..]; simpl.
      * done.
      * intros t0 Hne. split; congruence.
    + destruct Hown as [Hown _]. specialize (Hown eq_refl).
      destruct (int_succ (next_index s)); [|done]. simplify_eq.
      by apply (lock_inv_update s _ t AtClaim (AtUnlock (next_index s)) I Ht).
    + destruct Hown as [Hown _]. specialize (Hown eq_refl). simplify_eq.
      apply (lock_inv_update s _ t (AtUnlock my_index) (AtCall my_index) I
               Ht); [done|..]; simpl.
      * done.
      * intros t0 Hne. split; congruence.
    + destruct (call_f my_index (user s)); [|done]. simplify_eq.
      apply (lock_inv_update s _ t (AtCall my_index) AtLock I Ht); [done|..];
        simpl; [|done].
      split; [done|]. intros Hm. by apply Hown in Hm.
    + done.
Qed.

Lemma lock_inv_reachable u0 s :
  reachable exit_test call_f K (init u0) s → lock_inv s.
Proof. induction 1; eauto using lock_inv_init, lock_inv_step. Qed.

(** What a statement does to the mutex. *)
Lemma index_m_step a s s' :
  lock_inv s → step exit_test call_f K a s = Step s' →
  index_m s' = index_m s
  ∨ ∃ t, a = Worker t
         ∧ (index_m s = None ∧ index_m s' = Some t
            ∧ threads s !! t = Some AtLock
            ∨ index_m s = Some t ∧ index_m s' = None).
Proof.
  intros I Hs. destruct a as [|t]; simpl in Hs.
  - left. unfold main_step in Hs. destruct (main s) as [i|j|]; [| |done].
    + destruct (i <? K); [destruct (int_succ i); [|done]|]; by simplify_eq.
    + destruct (threads s !! j) as [[]|]; by simplify_eq.
  - unfold worker_step in Hs.
    destruct (threads s !! t) as [pc|] eqn:Ht; [|done].
    pose proof (proj1 I _ _ Ht) as Hown.
    destruct pc; simpl in Hown.
    + destruct (index_m s) as [h|] eqn:Hm; [done|]. simplify_eq.
      right. exists t. split; [done|]. by left.
    + left. destruct (exit_test (next_index s)); by simplify_eq.
    + simplify_eq. right. exists t. split; [done|]. right.
      split; [by apply Hown|done].
    + left. destruct (int_succ (next_index s)); [|done]. by simplify_eq.
    + simplify_eq. right. exists t. split; [done|]. right.
      split; [by apply Hown|done].
    + left. destruct (call_f my_index (user s)); [|done]. by simplify_eq.
    + done.
Qed.

End DispatchLockProofs.

(** ** The length of the executions when the counter cannot reach the limit *)

Section DispatchNoExitRuns.
Import Dispatch.
Context {St : Type}.
Variable exit_test : Z → bool.
Variable call_f : Z → St → option St.
Variable K : Z.
Variable u0 : St.
Hypothesis K_range : 1 ≤ K ≤ INT_MAX.
Hypothesis exit_never : ∀ n, 0 ≤ n ≤ INT_MAX → exit_test n = false.

(** Every statement is one of those the counter leaves room for before it
    is at [INT_MAX]. *)
Lemma noexit_measure_step a s s' :
  noexit_inv K s → step exit_test call_f K a s = Step s' →
  measure K INT_MAX s' < measure K INT_MAX s.
Proof.
  intros [Ir Il Im] Hs. unfold measure.
  destruct a as [|t]; simpl in Hs.
  - unfold main_step in Hs. destruct (main s) as [i|j|] eqn:Hm; [| |done].
    + destruct (Z.ltb_spec i K).
      * destruct (int_succ i) as [i'|] eqn:Hi; [|done].
        apply int_succ_Some in Hi as [? ->]. simplify_eq. simpl.
        rewrite sum_list_with_app. simpl. lia.
      * simplify_eq. simpl. lia.
    + destruct (threads s !! j) as [[]|] eqn:Hj; simplify_eq; simpl; lia.
  - unfold worker_step in Hs.
    destruct (threads s !! t) as [pc|] eqn:Ht; [|done].
    destruct pc;
      repeat match type of Hs with
             | context [match ?x with _ => _ end] => destruct x eqn:?
             end; simplify_eq; simpl;
      match goal with
      | |- context [<[t:=?pc']> _] =>
          pose proof (sum_list_with_insert weight _ _ _ pc' Ht) as Hw
      end; simpl in Hw;
      try match goal with
          | H : int_succ _ = Some _ |- _ => apply int_succ_Some in H as [? ->]
          end; lia.
Qed.

Lemma noexit_measure_nonneg (s : state St) :
  noexit_inv K s → 0 ≤ measure K INT_MAX s.
Proof.
  intros [Ir Il Im]. unfold measure. destruct (main s); simpl; lia.
Qed.

(** No execution is longer than the counter allows. *)
Lemma noexit_run_bounded sched s :
  run exit_test call_f K sched (init u0) = Step s →
  Z.of_nat (length sched) ≤ 5 * INT_MAX + 5 * K + 2.
Proof.
  assert (Hgen : ∀ sched (s1 s2 : state St), noexit_inv K s1 →
            run exit_test call_f K sched s1 = Step s2 →
            Z.of_nat (length sched)
            ≤ measure K INT_MAX s1 - measure K INT_MAX s2).
  { clear sched s. intros sched.
    induction sched as [|a sched IH]; intros s1 s2 I Hrun; simpl in Hrun.
    - simplify_eq. simpl. lia.
    - destruct (step exit_test call_f K a s1) as [s3| |] eqn:Hs; [|done|done].
      pose proof (noexit_measure_step _ _ _ I Hs).
      specialize (IH _ _ (noexit_inv_step _ _ _ K_range exit_never _ _ _ I Hs)
                    Hrun).
      simpl length. lia. }
  intros Hrun.
  assert (I0 : noexit_inv K (init u0))
    by (apply (noexit_inv_reachable exit_test call_f K u0 K_range exit_never);
        constructor).
  pose proof (Hgen _ _ _ I0 Hrun) as Hb.
  assert (I : noexit_inv K s).
  { apply (noexit_inv_reachable exit_test call_f K u0 K_range exit_never).
    eapply dispatch_run_reachable; [constructor|done]. }
  pose proof (noexit_measure_nonneg _ I).
  unfold measure in Hb at 1. simpl in Hb. lia.
Qed.

(** Some thread always has a statement to perform, defined or not. *)
Lemma noexit_not_stuck s :
  noexit_inv K s → lock_inv s → ∃ a, step exit_test call_f K a s ≠ NoStep.
Proof.
  intros [Ir Il Im] [Hl Hh].
  destruct (main s) as [i|j|] eqn:Hm; [| |done].
  - exists Main. simpl. unfold main_step. rewrite Hm.
    destruct (i <? K); [|done]. by destruct (int_succ i).
  - destruct Im as [-> Hlen].
    destruct (index_m s) as [h|] eqn:Hmx.
    + destruct (Hh _ eq_refl) as [pc Hpc].
      pose proof (proj2 (Hl _ _ Hpc) eq_refl) as Hhold.
      destruct (Il _ _ Hpc) as [Hne1 Hne2].
      exists (Worker h). simpl. unfold worker_step. rewrite Hpc.
      destruct pc; try done.
      * by destruct (exit_test (next_index s)).
      * by destruct (int_succ (next_index s)).
    + destruct (lookup_lt_is_Some_2 (threads s) 0%nat ltac:(lia)) as [pc Hpc].
      pose proof (Hl _ _ Hpc) as Hown.
      destruct (Il _ _ Hpc) as [Hne1 Hne2].
      exists (Worker 0). simpl. unfold worker_step. rewrite Hpc, ?Hmx.
      destruct pc; simpl in Hown; try done;
        try (destruct Hown as [Hown _]; by specialize (Hown eq_refl)).
      by destruct (call_f my_index (user s)).
Qed.

End DispatchNoExitRuns.

(** ** [ParallelComp] *)

Section ParallelCompProofs.
Import Dispatch.

Lemma ParallelComp_workers_range num m :
  num ≤ INT_MAX → 1 ≤ ParallelComp.max_concurrency num m ≤ INT_MAX.
Proof. unfold ParallelComp.max_concurrency, INT_MAX. lia. Qed.

Lemma ParallelComp_exit_spec num n :
  ParallelComp.exit_test num n = true ↔ n = num.
Proof. unfold ParallelComp.exit_test. apply Z.eqb_eq. Qed.

Lemma ParallelComp_call_ok (N i : Z) (u : unit) :
  0 ≤ i < N → True → ∃ u', ParallelComp.call_f i u = Some u' ∧ True.
Proof. intros _ _. by exists u. Qed.

Lemma ParallelComp_inv num m s :
  0 ≤ num ≤ INT_MAX → ParallelComp.reachable num m s →
  dispatch_inv ParallelComp.call_f (ParallelComp.max_concurrency num m) num
               (λ _, True) tt s.
Proof.
  intros Hnum Hr.
  eapply (dispatch_inv_reachable (ParallelComp.exit_test num)); try done.
  - apply ParallelComp_workers_range. lia.
  - intros n _. apply ParallelComp_exit_spec.
  - apply ParallelComp_call_ok.
Qed.

Lemma ParallelComp_run_reachable num m sched s :
  ParallelComp.run num m sched ParallelComp.init = Step s →
  ParallelComp.reachable num m s.
Proof. apply dispatch_run_reachable. constructor. Qed.

Lemma ParallelComp_returns num m :
  0 ≤ num ≤ INT_MAX →
  ∃ sched s, ParallelComp.run num m sched ParallelComp.init = Step s
             ∧ main s = Returned.
Proof.
  intros Hnum.
  eapply (dispatch_returns (ParallelComp.exit_test num) _ _ num (λ _, True));
    try done.
  - apply ParallelComp_workers_range. lia.
  - intros n _. apply ParallelComp_exit_spec.
  - apply ParallelComp_call_ok.
Qed.

Lemma ParallelComp_bounded num m sched s :
  0 ≤ num ≤ INT_MAX →
  ParallelComp.run num m sched ParallelComp.init = Step s →
  Z.of_nat (length sched)
  ≤ 5 * num + 5 * ParallelComp.max_concurrency num m + 2.
Proof.
  intros Hnum.
  eapply (dispatch_bounded (ParallelComp.exit_test num) _ _ num (λ _, True));
    try done.
  - apply ParallelComp_workers_range. lia.
  - intros n _. apply ParallelComp_exit_spec.
  - apply ParallelComp_call_ok.
Qed.

(** In every state that is reached: no undefined behaviour, a statement
    to perform until the return, calls on distinct indices below [num],
    and at the return all of them. *)
Lemma ParallelComp_safe (num m : Z) s :
  0 ≤ num ≤ INT_MAX → ParallelComp.reachable num m s →
  (∀ a, ParallelComp.step num m a s ≠ UB)
  ∧ (main s ≠ Returned → ∃ a s', ParallelComp.step num m a s = Step s')
  ∧ NoDup (calls s)
  ∧ (∀ i, i ∈ calls s → 0 ≤ i < num)
  ∧ (main s = Returned → calls s ≡ₚ seqZ 0 num).
Proof.
  intros Hnum Hr.
  pose proof (ParallelComp_workers_range num m ltac:(lia)) as HK.
  pose proof (ParallelComp_inv _ _ _ Hnum Hr) as I.
  split; [|split; [|split; [|split]]].
  - intros a. eapply dispatch_no_UB; eauto using ParallelComp_call_ok.
  - eapply dispatch_progress; eauto using ParallelComp_call_ok.
  - eapply dispatch_calls_distinct; eauto.
  - eapply dispatch_calls_distinct; eauto.
  - intros Hm. eapply dispatch_returned; eauto.
Qed.

(** C1.  For every [num] from 0 to [INT_MAX] and every [m],
    [ParallelComp(num, f, m)] returns: some schedule runs it to its return,
    no schedule runs more than [5 * num + 5 * max_concurrency + 2]
    statements, and until the return some thread can always perform its
    next statement, none with undefined behaviour.  At every moment the
    calls of [f] made so far are on distinct indices below [num], and when
    the call has returned they are the indices [0, ..., num - 1], each
    once. *)
Theorem ParallelComp_exactly_once (num m : Z) :
  0 ≤ num ≤ INT_MAX →
  (∃ sched s, ParallelComp.run num m sched ParallelComp.init = Step s
              ∧ main s = Returned)
  ∧ (∀ sched s, ParallelComp.run num m sched ParallelComp.init = Step s →
       Z.of_nat (length sched)
       ≤ 5 * num + 5 * ParallelComp.max_concurrency num m + 2)
  ∧ (∀ s, ParallelComp.reachable num m s →
       (∀ a, ParallelComp.step num m a s ≠ UB)
       ∧ (main s ≠ Returned → ∃ a s', ParallelComp.step num m a s = Step s')
       ∧ NoDup (calls s)
       ∧ (∀ i, i ∈ calls s → 0 ≤ i < num)
       ∧ (main s = Returned → calls s ≡ₚ seqZ 0 num)).
Proof.
  intros Hnum.
  split; [by apply ParallelComp_returns|].
  split; [intros sched s; by apply ParallelComp_bounded|].
  intros s Hr. by apply ParallelComp_safe.
Qed.

(** One turn of the loop of a worker that runs alone. *)
Lemma worker_alone_turn {St} exit_test (call_f : Z → St → option St) K
    n n' pc cs u u' :
  exit_test n = false → int_succ n = Some n' → call_f n u = Some u' →
  run exit_test call_f K (replicate 5 (Worker 0%nat))
      (mkState n None [AtLock] pc cs u)
  = Step (mkState n' None [AtLock] pc (cs ++ [n]) u').
Proof.
  intros He Hn Hc. simpl. unfold worker_step. simpl. rewrite He. simpl.
  rewrite Hn. simpl. by rewrite Hc.
Qed.

Lemma worker_alone_overflow {St} exit_test (call_f : Z → St → option St) K
    n pc cs u :
  exit_test n = false → int_succ n = None →
  run exit_test call_f K (replicate 3 (Worker 0%nat))
      (mkState n None [AtLock] pc cs u)
  = UB.
Proof.
  intros He Hn. simpl. unfold worker_step. simpl. rewrite He. simpl.
  by rewrite Hn.
Qed.

Lemma ParallelComp_exit_test_negative num n :
  num < 0 → 0 ≤ n → ParallelComp.exit_test num n = false.
Proof.
  intros Hnum Hn. unfold ParallelComp.exit_test.
  destruct (Z.eqb_spec n num); [lia|done].
Qed.

(** A negative [num]: one worker alone claims index after index. *)
Lemma ParallelComp_negative_claims num m (n : nat) :
  num < 0 → Z.of_nat n ≤ INT_MAX →
  ∃ sched,
    ParallelComp.run num m sched ParallelComp.init
    = Step (mkState (Z.of_nat n) None [AtLock] (Spawning 1)
                    (seqZ 0 (Z.of_nat n)) tt).
Proof.
  intros Hnum. assert (HK : ParallelComp.max_concurrency num m = 1)
    by (unfold ParallelComp.max_concurrency; lia).
  induction n as [|n IH]; intros Hn.
  - exists [Main]. unfold ParallelComp.run. simpl. unfold main_step. simpl.
    by rewrite HK.
  - destruct IH as [sched Hrun]; [lia|].
    exists (sched ++ replicate 5 (Worker 0%nat)).
    unfold ParallelComp.run in *. rewrite (dispatch_run_app _ _ _ _ _ _ _ Hrun).
    rewrite (worker_alone_turn _ _ _ (Z.of_nat n) (Z.of_nat (S n)) _ _ tt tt).
    + by rewrite seqZ_S, Z.add_0_l.
    + apply ParallelComp_exit_test_negative; lia.
    + apply int_succ_Some. lia.
    + done.
Qed.

(** ... until the counter can go no further. *)
Lemma ParallelComp_negative_overflows num m :
  num < 0 → ∃ sched, ParallelComp.run num m sched ParallelComp.init = UB.
Proof.
  intros Hnum.
  destruct (ParallelComp_negative_claims num m (Z.to_nat INT_MAX) Hnum)
    as [sched Hrun]; [by rewrite Z2Nat.id|].
  exists (sched ++ replicate 3 (Worker 0%nat)).
  unfold ParallelComp.run in *. rewrite (dispatch_run_app _ _ _ _ _ _ _ Hrun).
  apply worker_alone_overflow.
  - apply ParallelComp_exit_test_negative; lia.
  - rewrite Z2Nat.id by done. done.
Qed.

Lemma next_index_step {St} exit_test (call_f : Z → St → option St) K a
    (s s' : state St) :
  step exit_test call_f K a s = Step s' →
  next_index s' = next_index s
  ∨ (next_index s' = next_index s + 1
     ∧ ∃ t, a = Worker t ∧ threads s !! t = Some AtClaim
            ∧ threads s' !! t = Some (AtUnlock (next_index s))).
Proof.
  intros Hs. destruct a as [|t]; simpl in Hs.
  - left. unfold main_step in Hs.
    repeat match type of Hs with
           | context [match ?x with _ => _ end] => destruct x eqn:?
           end; by simplify_eq.
  - unfold worker_step in Hs.
    destruct (threads s !! t) as [pc|] eqn:Ht; [|done].
    destruct pc;
      repeat match type of Hs with
             | context [match ?x with _ => _ end] => destruct x eqn:?
             end; simplify_eq; simpl; auto.
    right. match goal with
           | H : int_succ _ = Some _ |- _ => apply int_succ_Some in H as [? ->]
           end.
    split; [done|]. exists t. split; [done|]. split; [done|].
    apply list_lookup_insert_eq. by eapply lookup_lt_Some.
Qed.

End ParallelCompProofs.

(** ** [ParallelAppi] *)

Lemma to_int_small z : 0 ≤ z ≤ INT_MAX → to_int z = z.
Proof.
  unfold to_int, INT_MAX. intros Hz.
  rewrite Z.mod_small; lia.
Qed.

Lemma to_size_t_small z : 0 ≤ z ≤ INT_MAX → to_size_t z = z.
Proof.
  unfold to_size_t, INT_MAX. intros Hz.
  rewrite Z.mod_small; lia.
Qed.

Lemma vec_at_lookup {T} (vec : list T) (i : nat) :
  vec_at vec (Z.of_nat i) = vec !! i.
Proof.
  unfold vec_at. destruct (Z.ltb_spec (Z.of_nat i) 0); [lia|].
  by rewrite Nat2Z.id.
Qed.

Section ParallelAppiProofs.
Import Dispatch.
Context {T St : Type}.
Variable vec : list T.
Variable f : Z → T → St → option St.
Variable m : Z.
Variable UI : St → Prop.
Variable u0 : St.
Hypothesis size_range : ParallelAppi.size vec ≤ INT_MAX.
Hypothesis UI_init : UI u0.
Hypothesis f_ok :
  ∀ i x u, vec !! i = Some x → UI u →
           ∃ u', f (Z.of_nat i) x u = Some u' ∧ UI u'.

Lemma ParallelAppi_size_range : 0 ≤ ParallelAppi.size vec ≤ INT_MAX.
Proof. unfold ParallelAppi.size in *. lia. Qed.

Lemma ParallelAppi_workers :
  ParallelAppi.max_concurrency vec m
  = Z.max (Z.min (ParallelAppi.size vec) m) 1.
Proof.
  unfold ParallelAppi.max_concurrency.
  by rewrite to_int_small by apply ParallelAppi_size_range.
Qed.

Lemma ParallelAppi_workers_range :
  1 ≤ ParallelAppi.max_concurrency vec m ≤ INT_MAX.
Proof.
  rewrite ParallelAppi_workers. pose proof ParallelAppi_size_range.
  unfold INT_MAX in *. lia.
Qed.

Lemma ParallelAppi_exit_spec n :
  0 ≤ n ≤ INT_MAX →
  ParallelAppi.exit_test vec n = true ↔ n = ParallelAppi.size vec.
Proof.
  intros Hn. unfold ParallelAppi.exit_test.
  rewrite to_size_t_small by done. apply Z.eqb_eq.
Qed.

Lemma ParallelAppi_call_ok i u :
  0 ≤ i < ParallelAppi.size vec → UI u →
  ∃ u', ParallelAppi.call_f vec f i u = Some u' ∧ UI u'.
Proof.
  unfold ParallelAppi.size, ParallelAppi.call_f. intros Hi HUI.
  replace i with (Z.of_nat (Z.to_nat i)) by lia. rewrite vec_at_lookup.
  destruct (lookup_lt_is_Some_2 vec (Z.to_nat i)) as [x Hx]; [lia|].
  rewrite Hx. by apply f_ok.
Qed.

Lemma ParallelAppi_inv s :
  ParallelAppi.reachable vec f m u0 s →
  dispatch_inv (ParallelAppi.call_f vec f) (ParallelAppi.max_concurrency vec m)
               (ParallelAppi.size vec) UI u0 s.
Proof.
  apply dispatch_inv_reachable;
    auto using ParallelAppi_size_range, ParallelAppi_workers_range,
               ParallelAppi_exit_spec, ParallelAppi_call_ok.
Qed.

Lemma ParallelAppi_returns :
  ∃ sched s, ParallelAppi.run vec f m sched (init u0) = Step s
             ∧ main s = Returned.
Proof.
  eapply dispatch_returns;
    eauto using ParallelAppi_size_range, ParallelAppi_workers_range,
                ParallelAppi_exit_spec, ParallelAppi_call_ok.
Qed.

Lemma ParallelAppi_bounded sched s :
  ParallelAppi.run vec f m sched (init u0) = Step s →
  Z.of_nat (length sched)
  ≤ 5 * ParallelAppi.size vec + 5 * ParallelAppi.max_concurrency vec m + 2.
Proof.
  eapply dispatch_bounded;
    eauto using ParallelAppi_size_range, ParallelAppi_workers_range,
                ParallelAppi_exit_spec, ParallelAppi_call_ok.
Qed.

Lemma ParallelAppi_safe s :
  ParallelAppi.reachable vec f m u0 s →
  (∀ a, ParallelAppi.step vec f m a s ≠ UB)
  ∧ (main s ≠ Returned → ∃ a s', ParallelAppi.step vec f m a s = Step s')
  ∧ (main s = Returned →
       calls s ≡ₚ seqZ 0 (ParallelAppi.size vec)
       ∧ length (threads s) = Z.to_nat (ParallelAppi.max_concurrency vec m)
       ∧ replay (ParallelAppi.call_f vec f) (calls s) u0 = Some (user s)).
Proof.
  intros I%ParallelAppi_inv. split; [|split].
  - intros a. eapply dispatch_no_UB;
      eauto using ParallelAppi_size_range, ParallelAppi_workers_range,
                  ParallelAppi_call_ok.
  - eapply dispatch_progress;
      eauto using ParallelAppi_size_range, ParallelAppi_workers_range,
                  ParallelAppi_call_ok.
  - eapply dispatch_returned; eauto using ParallelAppi_workers_range.
Qed.

End ParallelAppiProofs.

(** ** [ParallelMap] and [UnParallelMap] *)

Section MapProofs.
Import Dispatch.
Context {T R : Type}.
Variable dflt : R.
Variable vec : list T.
Variable f : T → R.
Hypothesis size_range : ParallelAppi.size vec ≤ INT_MAX.

Lemma run_write_ok (i : nat) x data :
  vec !! i = Some x → sized vec data →
  ∃ data', ParallelMap.run_write f (Z.of_nat i) x data = Some data'
           ∧ sized vec data'.
Proof.
  unfold ParallelMap.run_write, sized. intros Hx Hlen.
  apply lookup_lt_Some in Hx.
  destruct (Z.leb_spec 0 (Z.of_nat i)); [|lia].
  destruct (Z.ltb_spec (Z.of_nat i) (Z.of_nat (length data))); [|lia].
  simpl. eexists. split; [done|]. by rewrite length_insert.
Qed.

Lemma call_run_write (i : nat) x data :
  vec !! i = Some x → sized vec data →
  ParallelAppi.call_f vec (ParallelMap.run_write f) (Z.of_nat i) data
  = Some (<[i := f x]> data).
Proof.
  unfold ParallelAppi.call_f, ParallelMap.run_write, sized. intros Hx Hlen.
  rewrite vec_at_lookup, Hx. apply lookup_lt_Some in Hx.
  destruct (Z.leb_spec 0 (Z.of_nat i)); [|lia].
  destruct (Z.ltb_spec (Z.of_nat i) (Z.of_nat (length data))); [|lia].
  simpl. by rewrite Nat2Z.id.
Qed.

(** Writing the slots of the indices [cs], in any order and however often,
    fills exactly those slots. *)
Lemma replay_run_write cs data data' :
  sized vec data → (∀ i, i ∈ cs → 0 ≤ i < ParallelAppi.size vec) →
  replay (ParallelAppi.call_f vec (ParallelMap.run_write f)) cs data
  = Some data' →
  sized vec data'
  ∧ ∀ (i : nat) x, vec !! i = Some x →
      data' !! i = if decide (Z.of_nat i ∈ cs) then Some (f x) else data !! i.
Proof.
  unfold replay. revert data.
  induction cs as [|c cs IH]; intros data Hlen Hcs Hre; simpl in Hre.
  - simplify_eq. split; [done|]. intros i x _.
    by rewrite decide_False by apply not_elem_of_nil.
  - assert (0 ≤ c < ParallelAppi.size vec) as Hc by (apply Hcs; left).
    unfold ParallelAppi.size in Hc.
    destruct (lookup_lt_is_Some_2 vec (Z.to_nat c)) as [xc Hxc]; [lia|].
    pose proof (call_run_write _ _ _ Hxc Hlen) as Hw.
    rewrite Z2Nat.id in Hw by lia. rewrite Hw in Hre.
    destruct (IH (<[Z.to_nat c := f xc]> data)) as [Hlen' Hval].
    { unfold sized. by rewrite length_insert. }
    { intros i Hi. apply Hcs. by right. }
    { done. }
    split; [done|]. intros i x Hx. rewrite (Hval _ _ Hx).
    destruct (decide (Z.of_nat i ∈ cs)) as [Hin|Hin].
    + rewrite decide_True; [done|by right].
    + destruct (decide (Z.of_nat i = c)) as [<-|Hne].
      * rewrite decide_True by left. rewrite Nat2Z.id in *.
        rewrite Hxc in Hx. injection Hx as ->. apply list_lookup_insert_eq.
        unfold sized in Hlen. apply lookup_lt_Some in Hxc. lia.
      * rewrite decide_False by (by intros [?|?]%elem_of_cons).
        apply list_lookup_insert_ne. lia.
Qed.

Lemma ParallelMap_returns_map m result :
  ParallelMap.returns dflt vec f m result → result = f <$> vec.
Proof.
  intros (s & Hr & Hm & <-).
  destruct (ParallelAppi_safe vec (ParallelMap.run_write f) m (sized vec)
              (ParallelMap.result0 dflt vec) size_range) with (s := s)
    as (_ & _ & Hret); [by apply length_replicate|apply run_write_ok|done|].
  destruct (Hret Hm) as (Hperm & _ & Hre).
  apply replay_run_write in Hre as [Hlen Hval].
  - apply list_eq. intros i. rewrite list_lookup_fmap.
    destruct (vec !! i) as [x|] eqn:Hx; simpl.
    + rewrite (Hval _ _ Hx). rewrite decide_True; [done|].
      rewrite Hperm. apply elem_of_seqZ. apply lookup_lt_Some in Hx.
      unfold ParallelAppi.size. lia.
    + apply lookup_ge_None. apply lookup_ge_None in Hx.
      unfold sized in Hlen. lia.
  - by apply length_replicate.
  - intros i Hi. rewrite Hperm in Hi. apply elem_of_seqZ in Hi. lia.
Qed.

Lemma ParallelMap_does_return m :
  ∃ result, ParallelMap.returns dflt vec f m result.
Proof.
  destruct (ParallelAppi_returns vec (ParallelMap.run_write f) m (sized vec)
              (ParallelMap.result0 dflt vec) size_range)
    as (sched & s & Hrun & Hm); [by apply length_replicate|apply run_write_ok|].
  exists (user s), s. split; [|done].
  eapply dispatch_run_reachable; [constructor|exact Hrun].
Qed.

Lemma UnParallelMap_loop (fuel k : nat) :
  (k + fuel)%nat = length vec →
  UnParallelMap.loop vec f fuel (Z.of_nat k)
    ((f <$> take k vec) ++ replicate fuel dflt)
  = Some (f <$> vec).
Proof.
  pose proof (ParallelAppi_size_range vec size_range) as Hsz.
  unfold ParallelAppi.size in Hsz.
  revert k. induction fuel as [|fuel IH]; intros k Hk.
  - unfold UnParallelMap.loop. rewrite to_size_t_small by lia.
    destruct (Z.ltb_spec (Z.of_nat k) (Z.of_nat (length vec))); [lia|].
    rewrite take_ge by lia. simpl. by rewrite app_nil_r.
  - assert (Hlen : length ((f <$> take k vec) ++ replicate (S fuel) dflt)
                   = length vec).
    { rewrite length_app, length_fmap, length_take, length_replicate. lia. }
    destruct (lookup_lt_is_Some_2 vec k) as [x Hx]; [lia|].
    assert (Hw : UnParallelMap.write
                   ((f <$> take k vec) ++ replicate (S fuel) dflt)
                   (Z.of_nat k) (f x)
                 = Some ((f <$> take (S k) vec) ++ replicate fuel dflt)).
    { unfold UnParallelMap.write. rewrite Hlen.
      destruct (Z.leb_spec 0 (Z.of_nat k)); [|lia].
      destruct (Z.ltb_spec (Z.of_nat k) (Z.of_nat (length vec))); [|lia].
      rewrite Nat2Z.id, (take_S_r _ _ _ Hx), fmap_app, <- app_assoc.
      replace k with (length (f <$> take k vec) + 0)%nat at 1
        by (rewrite length_fmap, length_take; lia).
      by rewrite insert_app_r. }
    assert (Hi : int_succ (Z.of_nat k) = Some (Z.of_nat (S k)))
      by (apply int_succ_Some; lia).
    rewrite <- (IH (S k)) by lia.
    change (UnParallelMap.loop vec f (S fuel) (Z.of_nat k)
              ((f <$> take k vec) ++ replicate (S fuel) dflt))
      with (if to_size_t (Z.of_nat k) <? Z.of_nat (length vec) then
              match vec_at vec (Z.of_nat k) with
              | Some x =>
                  match UnParallelMap.write
                          ((f <$> take k vec) ++ replicate (S fuel) dflt)
                          (Z.of_nat k) (f x),
                        int_succ (Z.of_nat k) with
                  | Some result', Some i' =>
                      UnParallelMap.loop vec f fuel i' result'
                  | _, _ => None
                  end
              | None => None
              end
            else Some ((f <$> take k vec) ++ replicate (S fuel) dflt)).
    rewrite to_size_t_small by lia.
    destruct (Z.ltb_spec (Z.of_nat k) (Z.of_nat (length vec))); [|lia].
    by rewrite vec_at_lookup, Hx, Hw, Hi.
Qed.

Lemma UnParallelMap_map ignored :
  UnParallelMap.UnParallelMap dflt vec f ignored = Some (f <$> vec).
Proof.
  unfold UnParallelMap.UnParallelMap.
  by rewrite <- (UnParallelMap_loop (length vec) 0).
Qed.

End MapProofs.

Section Claims.
Import Dispatch.

Lemma ParallelComp_exactly_once_witness :
  0 ≤ 3 ≤ INT_MAX
  ∧ ∃ sched s, ParallelComp.run 3 2 sched ParallelComp.init = Step s
               ∧ main s = Returned ∧ calls s ≡ₚ [0; 1; 2].
Proof.
  assert (H3 : 0 ≤ 3 ≤ INT_MAX) by (unfold INT_MAX; lia).
  split; [exact H3|].
  destruct (ParallelComp_exactly_once 3 2 H3)
    as ((sched & s & Hrun & Hm) & _ & Hs).
  exists sched, s. split; [exact Hrun|]. split; [exact Hm|].
  apply (Hs s); [|exact Hm].
  exact (ParallelComp_run_reachable 3 2 sched s Hrun).
Defined.

(** X2.  [ParallelMap] on a vector whose size is an [int].  For every vector
    [vec] of at most [INT_MAX] items, every function
    [f] and every [m], [ParallelMap(vec, f, m)] returns, and whatever the
    interleaving of its workers the vector it returns has the length of
    [vec] and holds [f x] at the index of each item [x].  No statement on
    the way has undefined behaviour, and until the return some thread can
    perform its next statement. *)
Lemma ParallelMap_in_range {T R} (dflt : R) (vec : list T) (f : T → R)
    (m : Z) :
  ParallelAppi.size vec ≤ INT_MAX →
  (∃ result, ParallelMap.returns dflt vec f m result)
  ∧ (∀ result, ParallelMap.returns dflt vec f m result →
       length result = length vec
       ∧ ∀ i x, vec !! i = Some x → result !! i = Some (f x))
  ∧ (∀ sched s, ParallelMap.run vec f m sched (ParallelMap.init dflt vec)
                = Step s →
       Z.of_nat (length sched)
       ≤ 5 * ParallelAppi.size vec
         + 5 * ParallelAppi.max_concurrency vec m + 2)
  ∧ (∀ s, ParallelMap.reachable dflt vec f m s →
       (∀ a, ParallelMap.step vec f m a s ≠ UB)
       ∧ (main s ≠ Returned →
            ∃ a s', ParallelMap.step vec f m a s = Step s')).
Proof.
  intros Hsz. split; [by apply ParallelMap_does_return|].
  split; [|split].
  - intros result ->%ParallelMap_returns_map; [|done].
    split; [by rewrite length_fmap|].
    intros i x Hx. by rewrite list_lookup_fmap, Hx.
  - intros sched s.
    apply (ParallelAppi_bounded vec (ParallelMap.run_write f) m (sized vec)
             (ParallelMap.result0 dflt vec) Hsz);
      [by apply length_replicate|apply run_write_ok].
  - intros s Hr.
    destruct (ParallelAppi_safe vec (ParallelMap.run_write f) m (sized vec)
                (ParallelMap.result0 dflt vec) Hsz) with (s := s)
      as (Hub & Hpr & _);
      [by apply length_replicate|apply run_write_ok|done|done].
Qed.

(** The scenario of the specification: the squares of 1, 2, 3, 4 with three
    workers. *)
Lemma ParallelMap_squares :
  ParallelAppi.size [1; 2; 3; 4] ≤ INT_MAX
  ∧ ∃ result,
      ParallelMap.returns 0 [1; 2; 3; 4] (λ x, x * x) 3 result
      ∧ result !! 2%nat = Some 9.
Proof.
  assert (Hsz : ParallelAppi.size [1; 2; 3; 4] ≤ INT_MAX)
    by (unfold ParallelAppi.size, INT_MAX; simpl; lia).
  split; [exact Hsz|].
  destruct (ParallelMap_in_range 0 [1; 2; 3; 4] (λ x, x * x) 3 Hsz)
    as ((result & Hret) & Hval & _).
  exists result. split; [exact Hret|].
  exact (proj2 (Hval result Hret) 2%nat 3 eq_refl).
Defined.

(** X3.  [ParallelMap] against [UnParallelMap] on a vector whose size is an
    [int].  For every function [f], every vector [vec] of at most [INT_MAX]
    items and every [m] (those from 1 to the length of [vec] among them),
    [ParallelMap(vec, f, m)] returns, and the vector it returns, whatever
    the interleaving, is the one [UnParallelMap(vec, f, _)] returns. *)
Lemma ParallelMap_serial_in_range {T R} (dflt : R) (vec : list T)
    (f : T → R) (m ignored : Z) :
  ParallelAppi.size vec ≤ INT_MAX →
  (∃ result, ParallelMap.returns dflt vec f m result)
  ∧ ∀ result, ParallelMap.returns dflt vec f m result →
      UnParallelMap.UnParallelMap dflt vec f ignored = Some result.
Proof.
  intros Hsz. split; [by apply ParallelMap_does_return|].
  intros result ->%ParallelMap_returns_map; [|done].
  by apply UnParallelMap_map.
Qed.

(** The same scenario against the serial map. *)
Lemma ParallelMap_squares_serial :
  ParallelAppi.size [1; 2; 3; 4] ≤ INT_MAX
  ∧ ∃ result,
      ParallelMap.returns 0 [1; 2; 3; 4] (λ x, x * x) 3 result
      ∧ UnParallelMap.UnParallelMap 0 [1; 2; 3; 4] (λ x, x * x) 1
        = Some result.
Proof.
  assert (Hsz : ParallelAppi.size [1; 2; 3; 4] ≤ INT_MAX)
    by (unfold ParallelAppi.size, INT_MAX; simpl; lia).
  split; [exact Hsz|].
  destruct (ParallelMap_serial_in_range 0 [1; 2; 3; 4] (λ x, x * x) 3 1
              Hsz) as ((result & Hret) & Heq).
  exists result. split; [exact Hret|]. exact (Heq result Hret).
Defined.

Lemma workers_in_words N M :
  0 ≤ N → Z.max (Z.min N M) 1 = SpecWords.workers N M.
Proof.
  intros HN. unfold SpecWords.workers, SpecWords.clamp.
  destruct (Z.eqb_spec N 0) as [->|Hne].
  - destruct (Z.ltb_spec M 1), (Z.ltb_spec 1 M); lia.
  - destruct (Z.ltb_spec M 1), (Z.ltb_spec N M); lia.
Qed.

(** X4.  The number of workers for an item count that is an [int].  For every
    item count [N] from 0 to [INT_MAX] and every [M], the
    number of workers of [ParallelComp] and of [ParallelAppi] is [M]
    clamped to [1, N] (to [1, 1] for [N = 0]), a number from 1 to
    [max N 1]: never more workers than that exist, and exactly that many
    when the call has returned.  Whatever [M] is, zero, negative or above
    [N], no statement of [ParallelComp] has undefined behaviour and the
    call returns; the state holds no error to report. *)
Lemma workers_in_range (N M : Z) :
  0 ≤ N ≤ INT_MAX →
  ParallelComp.max_concurrency N M = SpecWords.workers N M
  ∧ 1 ≤ SpecWords.workers N M ≤ Z.max N 1
  ∧ (∃ sched s, ParallelComp.run N M sched ParallelComp.init = Step s
                ∧ main s = Returned)
  ∧ (∀ s, ParallelComp.reachable N M s →
       (∀ a, ParallelComp.step N M a s ≠ UB)
       ∧ (length (threads s) ≤ Z.to_nat (SpecWords.workers N M))%nat
       ∧ (main s = Returned →
            Z.of_nat (length (threads s)) = SpecWords.workers N M))
  ∧ (∀ T St (vec : list T) (f : Z → T → St → option St) (u0 : St),
       ParallelAppi.size vec = N →
       ParallelAppi.max_concurrency vec M = SpecWords.workers N M
       ∧ ∀ s, ParallelAppi.reachable vec f M u0 s →
           (length (threads s) ≤ Z.to_nat (SpecWords.workers N M))%nat
           ∧ (main s = Returned →
                Z.of_nat (length (threads s)) = SpecWords.workers N M)).
Proof.
  intros HN.
  assert (HK : ParallelComp.max_concurrency N M = SpecWords.workers N M)
    by (apply workers_in_words; lia).
  assert (Hr : 1 ≤ SpecWords.workers N M ≤ Z.max N 1)
    by (rewrite <- HK; unfold ParallelComp.max_concurrency; lia).
  split; [done|]. split; [done|].
  split; [by apply ParallelComp_returns|]. split.
  - intros s Hs. split.
    + by apply (ParallelComp_safe N M s HN).
    + rewrite <- HK.
      destruct (spawned_at_most (ParallelComp.exit_test N)
                  ParallelComp.call_f (ParallelComp.max_concurrency N M)
                  (ParallelComp_workers_range N M ltac:(lia)) tt s Hs)
        as [Hle Heq].
      split; [done|]. intros Hm. rewrite (Heq Hm). lia.
  - intros T St vec f u0 Hsz.
    assert (HKa : ParallelAppi.max_concurrency vec M = SpecWords.workers N M).
    { rewrite ParallelAppi_workers by lia. rewrite Hsz.
      apply workers_in_words; lia. }
    split; [done|]. intros s Hs. rewrite <- HKa.
    destruct (spawned_at_most (ParallelAppi.exit_test vec)
                (ParallelAppi.call_f vec f) (ParallelAppi.max_concurrency vec M)
                (ParallelAppi_workers_range vec M ltac:(lia)) u0 s Hs)
      as [Hle Heq].
    split; [done|]. intros Hm. rewrite (Heq Hm). lia.
Qed.

(** Five items with a concurrency that is negative, zero, in range and
    above the item count. *)
Lemma workers_in_range_examples :
  0 ≤ 5 ≤ INT_MAX
  ∧ ParallelComp.max_concurrency 5 (-3) = 1
  ∧ ParallelComp.max_concurrency 5 0 = 1
  ∧ ParallelComp.max_concurrency 5 2 = 2
  ∧ ParallelComp.max_concurrency 5 9 = 5
  ∧ ∃ sched s, ParallelComp.run 5 9 sched ParallelComp.init = Step s
               ∧ main s = Returned ∧ length (threads s) = 5%nat.
Proof.
  assert (H5 : 0 ≤ 5 ≤ INT_MAX) by (unfold INT_MAX; lia).
  split; [exact H5|].
  split; [exact (proj1 (workers_in_range 5 (-3) H5))|].
  split; [exact (proj1 (workers_in_range 5 0 H5))|].
  split; [exact (proj1 (workers_in_range 5 2 H5))|].
  split; [exact (proj1 (workers_in_range 5 9 H5))|].
  destruct (workers_in_range 5 9 H5)
    as (_ & _ & (sched & s & Hrun & Hm) & Hs & _).
  exists sched, s. split; [exact Hrun|]. split; [exact Hm|].
  apply Nat2Z.inj.
  exact (proj2 (proj2 (Hs s (ParallelComp_run_reachable 5 9 sched s Hrun)))
           Hm).
Defined.

(** C8 as stated fails: with no items and [max_concurrency = 4] the call
    starts a worker before it returns. *)
Lemma ParallelComp_zero_items_spawns :
  ¬ (∀ s, ParallelComp.reachable 0 4 s → main s = Returned →
          threads s = [] ∧ calls s = []).
Proof.
  intros Hclaim.
  assert (Hrun : ParallelComp.run 0 4
            [Main; Main; Worker 0; Worker 0; Worker 0; Main; Main]
            ParallelComp.init
          = Step (mkState 0 None [Exited] Returned [] tt))
    by (vm_compute; reflexivity).
  apply ParallelComp_run_reachable in Hrun.
  by destruct (Hclaim _ Hrun eq_refl) as [? _].
Qed.

(** C8, amended.  With no items and any [m], [ParallelComp(0, f, m)]
    starts one worker; the worker finds the counter at its limit at its
    first test and returns, and the call returns after joining it: seven
    statements in all, and no schedule runs more.  [f] is never called,
    and when the call has returned that worker is the only one there has
    been. *)
Theorem ParallelComp_zero_items (m : Z) :
  ParallelComp.max_concurrency 0 m = 1
  ∧ ParallelComp.run 0 m
      [Main; Main; Worker 0; Worker 0; Worker 0; Main; Main] ParallelComp.init
    = Step (mkState 0 None [Exited] Returned [] tt)
  ∧ (∀ sched s, ParallelComp.run 0 m sched ParallelComp.init = Step s →
       (length sched ≤ 7)%nat)
  ∧ (∀ s, ParallelComp.reachable 0 m s →
       calls s = [] ∧ (length (threads s) ≤ 1)%nat
       ∧ (main s = Returned → threads s = [Exited])).
Proof.
  assert (H0 : 0 ≤ 0 ≤ INT_MAX) by (unfold INT_MAX; lia).
  assert (HK : ParallelComp.max_concurrency 0 m = 1)
    by (unfold ParallelComp.max_concurrency; lia).
  split; [done|]. split; [|split].
  - unfold ParallelComp.run. simpl. unfold main_step. simpl. by rewrite HK.
  - intros sched s Hrun.
    pose proof (ParallelComp_bounded 0 m sched s H0 Hrun). lia.
  - intros s Hs. pose proof (ParallelComp_inv 0 m s H0 Hs) as I.
    destruct (ParallelComp_safe 0 m s H0 Hs) as (_ & _ & _ & Hin & _).
    pose proof (inv_main _ I) as Im. rewrite HK in Im.
    split; [|split].
    + destruct (calls s) as [|i l]; [done|].
      specialize (Hin i ltac:(left)). lia.
    + destruct (main s); lia.
    + intros Hm. rewrite Hm in Im. destruct Im as [Hlen Hex].
      destruct (threads s) as [|pc [|pc' l]]; simpl in Hlen; try lia.
      by rewrite (Hex 0%nat pc eq_refl).
Qed.

Lemma ParallelComp_noexit num m s :
  INT_MIN ≤ num < 0 → ParallelComp.reachable num m s →
  noexit_inv (ParallelComp.max_concurrency num m) s.
Proof.
  intros Hnum.
  apply (noexit_inv_reachable (ParallelComp.exit_test num)).
  - apply ParallelComp_workers_range. unfold INT_MAX. lia.
  - intros n Hn. unfold ParallelComp.exit_test.
    destruct (Z.eqb_spec n num); [lia|done].
Qed.

Lemma ParallelComp_negative_bounded num m sched s :
  INT_MIN ≤ num < 0 →
  ParallelComp.run num m sched ParallelComp.init = Step s →
  Z.of_nat (length sched)
  ≤ 5 * INT_MAX + 5 * ParallelComp.max_concurrency num m + 2.
Proof.
  intros Hnum.
  apply (noexit_run_bounded (ParallelComp.exit_test num)).
  - apply ParallelComp_workers_range. unfold INT_MAX. lia.
  - intros n Hn. unfold ParallelComp.exit_test.
    destruct (Z.eqb_spec n num); [lia|done].
Qed.

(** The only statement of [ParallelComp] without a defined result is the
    increment of [next_index] at [INT_MAX]. *)
Lemma ParallelComp_negative_UB num m s a :
  INT_MIN ≤ num < 0 → ParallelComp.reachable num m s →
  ParallelComp.step num m a s = UB →
  ∃ t, a = Worker t ∧ threads s !! t = Some AtClaim
       ∧ next_index s = INT_MAX.
Proof.
  intros Hnum Hr Hub.
  destruct (ParallelComp_noexit num m s Hnum Hr) as [Ir Il Im].
  pose proof (ParallelComp_workers_range num m ltac:(unfold INT_MAX; lia))
    as HK.
  destruct a as [|t]; unfold ParallelComp.step in Hub; simpl in Hub.
  - unfold main_step in Hub. destruct (main s) as [i|j|]; [| |done].
    + destruct (Z.ltb_spec i (ParallelComp.max_concurrency num m)); [|done].
      unfold int_succ in Hub. destruct (Z.ltb_spec i INT_MAX); [done|lia].
    + by destruct (threads s !! j) as [[]|].
  - unfold worker_step in Hub.
    destruct (threads s !! t) as [pc|] eqn:Ht; [|done].
    destruct pc; try done.
    + by destruct (index_m s).
    + by destruct (ParallelComp.exit_test num (next_index s)).
    + exists t. split; [done|]. split; [done|].
      unfold int_succ in Hub.
      destruct (Z.ltb_spec (next_index s) INT_MAX); [done|lia].
Qed.

(** C9 as stated fails: for [num = -1] the loop does not go on for ever.
    Were it to run without end there would be executions of every length;
    but an execution of [ParallelComp(-1, f, 2)] performs at most
    [5 * INT_MAX + 7] statements before [next_index++] overflows. *)
Lemma claim_loop_negative_ends :
  ¬ (∀ n : nat, ∃ sched s,
       (n ≤ length sched)%nat
       ∧ ParallelComp.run (-1) 2 sched ParallelComp.init = Step s).
Proof.
  intros Hclaim.
  pose (B := 5 * INT_MAX + 5 * ParallelComp.max_concurrency (-1) 2 + 2).
  assert (HB : 0 ≤ B)
    by (unfold B, ParallelComp.max_concurrency, INT_MAX; lia).
  destruct (Hclaim (S (Z.to_nat B))) as (sched & s & Hlen & Hrun).
  pose proof (ParallelComp_negative_bounded (-1) 2 sched s
                ltac:(unfold INT_MIN; lia) Hrun) as Hb.
  fold B in Hb. clearbody B. lia.
Qed.

(** C9, amended.  In [ParallelComp], [next_index] starts at 0 and a
    statement leaves it as it is or, when it is a worker's claim, adds 1
    to it.  For [0 <= num], a worker is on its way out only when
    [next_index = num], no schedule runs more than
    [5 * num + 5 * max_concurrency + 2] statements, and when no thread
    can perform a statement any more every worker has left its loop.
    For [num < 0] the loop does not go on for ever either: it runs into
    the overflow of [next_index].  In every state that is reached before
    the overflow, [next_index] is between 0 and [INT_MAX], where the exit
    test fails, so that no worker has left its loop and the call has not
    returned, and some thread has a statement to perform; no schedule runs
    more than [5 * INT_MAX + 5 * max_concurrency + 2] statements before
    the overflow; for every [n] up to [INT_MAX] some execution makes [n]
    claims; and the one statement that has no defined result, which some
    execution reaches, is the increment of [next_index] at [INT_MAX].
    What [0 <= num] is needed for is a defined result: nothing here says
    what the call does once [next_index] has overflowed. *)
Theorem claim_loop_terminates (num m : Z) :
  INT_MIN ≤ num ≤ INT_MAX →
  next_index ParallelComp.init = 0
  ∧ (∀ s a s', ParallelComp.step num m a s = Step s' →
       next_index s' = next_index s
       ∨ (next_index s' = next_index s + 1
          ∧ ∃ t, a = Worker t ∧ threads s !! t = Some AtClaim
                 ∧ threads s' !! t = Some (AtUnlock (next_index s))))
  ∧ (0 ≤ num →
       (∀ sched s, ParallelComp.run num m sched ParallelComp.init = Step s →
          Z.of_nat (length sched)
          ≤ 5 * num + 5 * ParallelComp.max_concurrency num m + 2)
       ∧ ∀ s, ParallelComp.reachable num m s →
           (∀ a, ParallelComp.step num m a s ≠ UB)
           ∧ (∀ t pc, threads s !! t = Some pc →
                pc = AtExit ∨ pc = Exited → next_index s = num)
           ∧ ((∀ a, ParallelComp.step num m a s = NoStep) →
              ∀ t pc, threads s !! t = Some pc → pc = Exited))
  ∧ (num < 0 →
       (∀ s, ParallelComp.reachable num m s →
          0 ≤ next_index s ≤ INT_MAX
          ∧ ParallelComp.exit_test num (next_index s) = false
          ∧ (∀ t pc, threads s !! t = Some pc → pc ≠ AtExit ∧ pc ≠ Exited)
          ∧ main s ≠ Returned
          ∧ (∃ a, ParallelComp.step num m a s ≠ NoStep)
          ∧ (∀ a, ParallelComp.step num m a s = UB →
               ∃ t, a = Worker t ∧ threads s !! t = Some AtClaim
                    ∧ next_index s = INT_MAX))
       ∧ (∀ sched s, ParallelComp.run num m sched ParallelComp.init = Step s →
            Z.of_nat (length sched)
            ≤ 5 * INT_MAX + 5 * ParallelComp.max_concurrency num m + 2)
       ∧ (∀ n, 0 ≤ n ≤ INT_MAX →
            ∃ s, ParallelComp.reachable num m s
                 ∧ next_index s = n ∧ calls s = seqZ 0 n)
       ∧ ∃ sched, ParallelComp.run num m sched ParallelComp.init = UB).
Proof.
  intros Hnum. split; [done|]. split; [|split].
  - intros s a s'. apply next_index_step.
  - intros H0. assert (Hn : 0 ≤ num ≤ INT_MAX) by lia.
    split; [intros sched s; by apply ParallelComp_bounded|].
    intros s Hs. pose proof (ParallelComp_inv num m s Hn Hs) as I.
    split; [by apply (ParallelComp_safe num m s Hn Hs)|]. split.
    + apply (inv_exit _ I).
    + intros Hstuck.
      destruct (decide (main s = Returned)) as [Hm|Hm].
      * pose proof (inv_main _ I) as Im. rewrite Hm in Im.
        apply Im.
      * destruct (ParallelComp_safe num m s Hn Hs)
          as (_ & (a & s' & Hstep) & _); [done|].
        by rewrite Hstuck in Hstep.
  - intros Hneg. split; [|split; [|split]].
    + intros s Hs.
      pose proof (ParallelComp_noexit num m s ltac:(lia) Hs) as Hne.
      pose proof Hne as [Hr Hl Hm].
      split; [done|]. split; [|split; [|split; [|split]]].
      * unfold ParallelComp.exit_test.
        destruct (Z.eqb_spec (next_index s) num); [lia|done].
      * apply Hl.
      * intros Heq. by rewrite Heq in Hm.
      * apply (noexit_not_stuck (ParallelComp.exit_test num)
                 ParallelComp.call_f (ParallelComp.max_concurrency num m));
          [|done|exact (lock_inv_reachable _ _ _ tt s Hs)].
        apply ParallelComp_workers_range. unfold INT_MAX. lia.
      * intros a. apply ParallelComp_negative_UB; [lia|done].
    + intros sched s. apply ParallelComp_negative_bounded. lia.
    + intros n Hn.
      destruct (ParallelComp_negative_claims num m (Z.to_nat n) Hneg)
        as [sched Hrun]; [lia|].
      rewrite Z2Nat.id in Hrun by lia.
      eexists. split; [exact (ParallelComp_run_reachable _ _ _ _ Hrun)|done].
    + by apply ParallelComp_negative_overflows.
Qed.

Lemma claim_loop_terminates_witness :
  (INT_MIN ≤ 3 ≤ INT_MAX ∧ 0 ≤ 3
   ∧ ∀ sched s, ParallelComp.run 3 2 sched ParallelComp.init = Step s →
       Z.of_nat (length sched) ≤ 27)
  ∧ (INT_MIN ≤ -1 ≤ INT_MAX ∧ -1 < 0
     ∧ ∀ sched s, ParallelComp.run (-1) 2 sched ParallelComp.init = Step s →
         Z.of_nat (length sched)
         ≤ 5 * INT_MAX + 5 * ParallelComp.max_concurrency (-1) 2 + 2).
Proof.
  assert (H3 : INT_MIN ≤ 3 ≤ INT_MAX) by (unfold INT_MIN, INT_MAX; lia).
  assert (H1 : INT_MIN ≤ -1 ≤ INT_MAX) by (unfold INT_MIN, INT_MAX; lia).
  assert (H03 : 0 ≤ 3) by lia.
  assert (H10 : -1 < 0) by lia.
  split.
  - split; [exact H3|]. split; [exact H03|].
    exact (proj1 (proj1 (proj2 (proj2 (claim_loop_terminates 3 2 H3))) H03)).
  - split; [exact H1|]. split; [exact H10|].
    exact (proj1 (proj2 (proj2 (proj2 (proj2
             (claim_loop_terminates (-1) 2 H1))) H10))).
Defined.

End Claims.

(** ** Vectors of more than [INT_MAX] items

    The size of the vector is cast to [int] for the number of workers and
    compared with the [int] counter in the exit test (the source notes the
    cast as unsafe). *)

Section Oversize.
Import Dispatch.

Lemma to_int_range z : INT_MIN ≤ to_int z ≤ INT_MAX.
Proof.
  unfold to_int, INT_MIN, INT_MAX.
  pose proof (Z.mod_pos_bound (z + 2 ^ 31) (2 ^ 32)). lia.
Qed.

Lemma oversize_size : ParallelAppi.size oversize = 2 ^ 31.
Proof.
  unfold ParallelAppi.size, oversize.
  rewrite length_replicate. apply Z2Nat.id. by apply Z.pow_nonneg.
Qed.

Lemma ParallelAppi_workers_range_any {T} (vec : list T) m :
  1 ≤ ParallelAppi.max_concurrency vec m ≤ INT_MAX.
Proof.
  unfold ParallelAppi.max_concurrency.
  pose proof (to_int_range (ParallelAppi.size vec)). unfold INT_MAX in *. lia.
Qed.

Lemma ParallelAppi_oversize_noexit {T St} (vec : list T)
    (f : Z → T → St → option St) m u0 s :
  INT_MAX < ParallelAppi.size vec → ParallelAppi.reachable vec f m u0 s →
  noexit_inv (ParallelAppi.max_concurrency vec m) s.
Proof.
  intros Hsz. apply (noexit_inv_reachable (ParallelAppi.exit_test vec)).
  - apply ParallelAppi_workers_range_any.
  - intros n Hn. unfold ParallelAppi.exit_test.
    rewrite to_size_t_small by done. apply Z.eqb_neq. lia.
Qed.

(** [ParallelMap] on such a vector never returns ... *)
Lemma ParallelMap_oversize_never_returns {T R} (dflt : R) (vec : list T)
    (f : T → R) m result :
  INT_MAX < ParallelAppi.size vec → ¬ ParallelMap.returns dflt vec f m result.
Proof.
  intros Hsz (s & Hr & Hm & _).
  destruct (ParallelAppi_oversize_noexit vec _ m _ s Hsz Hr) as [_ _ Hmain].
  by rewrite Hm in Hmain.
Qed.

Lemma write_slot {T R} (vec : list T) (f : T → R) (i : nat) x data :
  vec !! i = Some x → sized vec data →
  ParallelAppi.call_f vec (ParallelMap.run_write f) (Z.of_nat i) data
  = Some (<[i := f x]> data).
Proof.
  unfold ParallelAppi.call_f, ParallelMap.run_write, sized. intros Hx Hlen.
  rewrite vec_at_lookup, Hx. apply lookup_lt_Some in Hx.
  destruct (Z.leb_spec 0 (Z.of_nat i)); [|lia].
  destruct (Z.ltb_spec (Z.of_nat i) (Z.of_nat (length data))); [|lia].
  simpl. by rewrite Nat2Z.id.
Qed.

(** ... one worker alone writes slot after slot ... *)
Lemma ParallelMap_oversize_claims {T R} (dflt : R) (vec : list T) (f : T → R)
    m (n : nat) :
  INT_MAX < ParallelAppi.size vec → Z.of_nat n ≤ INT_MAX →
  ∃ sched data,
    ParallelMap.run vec f m sched (ParallelMap.init dflt vec)
    = Step (mkState (Z.of_nat n) None [AtLock] (Spawning 1)
                    (seqZ 0 (Z.of_nat n)) data)
    ∧ sized vec data.
Proof.
  intros Hsz.
  pose proof (ParallelAppi_workers_range_any vec m) as HK.
  induction n as [|n IH]; intros Hn.
  - exists [Main], (ParallelMap.result0 dflt vec). split.
    + unfold ParallelMap.run, ParallelAppi.run, ParallelMap.init. simpl.
      unfold main_step. simpl.
      destruct (Z.ltb_spec 0 (ParallelAppi.max_concurrency vec m)); [done|lia].
    + unfold sized, ParallelMap.result0. apply length_replicate.
  - destruct IH as (sched & data & Hrun & Hlen); [lia|].
    destruct (lookup_lt_is_Some_2 vec n) as [x Hx].
    { unfold ParallelAppi.size in Hsz. lia. }
    exists (sched ++ replicate 5 (Worker 0%nat)), (<[n := f x]> data).
    split; [|unfold sized; by rewrite length_insert].
    unfold ParallelMap.run, ParallelAppi.run in *.
    rewrite (dispatch_run_app _ _ _ _ _ _ _ Hrun).
    rewrite (worker_alone_turn _ _ _ (Z.of_nat n) (Z.of_nat (S n)) _ _ data
               (<[n := f x]> data)).
    + by rewrite seqZ_S, Z.add_0_l.
    + unfold ParallelAppi.exit_test. rewrite to_size_t_small by lia.
      apply Z.eqb_neq. lia.
    + apply int_succ_Some. lia.
    + by apply write_slot.
Qed.

(** ... until the counter can go no further. *)
Lemma ParallelMap_oversize_overflows {T R} (dflt : R) (vec : list T)
    (f : T → R) m :
  INT_MAX < ParallelAppi.size vec →
  ∃ sched, ParallelMap.run vec f m sched (ParallelMap.init dflt vec) = UB.
Proof.
  intros Hsz.
  destruct (ParallelMap_oversize_claims dflt vec f m (Z.to_nat INT_MAX) Hsz)
    as (sched & data & Hrun & _); [by rewrite Z2Nat.id|].
  exists (sched ++ replicate 3 (Worker 0%nat)).
  unfold ParallelMap.run, ParallelAppi.run in *.
  rewrite (dispatch_run_app _ _ _ _ _ _ _ Hrun).
  apply worker_alone_overflow.
  - unfold ParallelAppi.exit_test. rewrite Z2Nat.id by done.
    rewrite to_size_t_small by done. apply Z.eqb_neq. lia.
  - by rewrite Z2Nat.id.
Qed.

(** The loop of [UnParallelMap] on such a vector has no defined result,
    however long it may run. *)
Lemma UnParallelMap_loop_oversize {T R} (vec : list T) (f : T → R) fuel :
  INT_MAX < ParallelAppi.size vec →
  ∀ i result, 0 ≤ i ≤ INT_MAX →
    UnParallelMap.loop vec f fuel i result = None.
Proof.
  intros Hsz. unfold ParallelAppi.size in Hsz.
  induction fuel as [|fuel IH]; intros i result Hi.
  - unfold UnParallelMap.loop. rewrite to_size_t_small by done.
    destruct (Z.ltb_spec i (Z.of_nat (length vec))); [done|lia].
  - change (UnParallelMap.loop vec f (S fuel) i result)
      with (if to_size_t i <? Z.of_nat (length vec) then
              match vec_at vec i with
              | Some x =>
                  match UnParallelMap.write result i (f x), int_succ i with
                  | Some result', Some i' =>
                      UnParallelMap.loop vec f fuel i' result'
                  | _, _ => None
                  end
              | None => None
              end
            else Some result).
    rewrite to_size_t_small by done.
    destruct (Z.ltb_spec i (Z.of_nat (length vec))); [|lia].
    destruct (vec_at vec i); [|done].
    destruct (UnParallelMap.write result i (f t)); [|done].
    destruct (int_succ i) as [i'|] eqn:Hi'; [|done].
    apply int_succ_Some in Hi' as [? ->]. apply IH. lia.
Qed.

Lemma oversize_above_int : INT_MAX < ParallelAppi.size oversize.
Proof. rewrite oversize_size. done. Qed.

(** C2.  On the vector [oversize] of [2 ^ 31] items, with any function and
    any concurrency, [ParallelMap] returns no vector at all: no state it
    reaches is one in which it has returned, and an execution runs into
    the increment of [next_index] at [INT_MAX], which C++ leaves
    undefined. *)
Theorem ParallelMap_oversize_vector (f : unit → unit) (m : Z) :
  ParallelAppi.size oversize = 2 ^ 31
  ∧ (∀ result, ¬ ParallelMap.returns () oversize f m result)
  ∧ (∃ sched,
       ParallelMap.run oversize f m sched (ParallelMap.init () oversize) = UB).
Proof.
  split; [apply oversize_size|]. split.
  - intros result. apply ParallelMap_oversize_never_returns.
    apply oversize_above_int.
  - apply ParallelMap_oversize_overflows. apply oversize_above_int.
Qed.

(** C3.  On the vector [oversize], with any function and any concurrency,
    neither map produces an output: the loop of [UnParallelMap] has no
    defined result, and [ParallelMap] never returns. *)
Theorem ParallelMap_serial_oversize_vector (f : unit → unit) (m ignored : Z) :
  UnParallelMap.UnParallelMap () oversize f ignored = None
  ∧ ∀ result, ¬ ParallelMap.returns () oversize f m result.
Proof.
  split.
  - unfold UnParallelMap.UnParallelMap.
    apply UnParallelMap_loop_oversize; [apply oversize_above_int|].
    unfold INT_MAX. lia.
  - intros result. apply ParallelMap_oversize_never_returns.
    apply oversize_above_int.
Qed.

(** C7.  On the vector [oversize] with [max_concurrency = 4], the clamp of
    the specification gives 4 workers; the cast of the size to [int] gives
    [INT_MIN], [ParallelAppi] computes 1, and it never has more than one
    worker. *)
Theorem workers_oversize_vector :
  ParallelAppi.size oversize = 2 ^ 31
  ∧ SpecWords.workers (2 ^ 31) 4 = 4
  ∧ to_int (ParallelAppi.size oversize) = INT_MIN
  ∧ ParallelAppi.max_concurrency oversize 4 = 1
  ∧ ∀ St (f : Z → unit → St → option St) (u0 : St) s,
      ParallelAppi.reachable oversize f 4 u0 s →
      (length (threads s) ≤ 1)%nat.
Proof.
  assert (HK : ParallelAppi.max_concurrency oversize 4 = 1).
  { unfold ParallelAppi.max_concurrency. by rewrite oversize_size. }
  split; [apply oversize_size|]. split; [done|].
  split; [by rewrite oversize_size|]. split; [done|].
  intros St f u0 s Hr.
  destruct (spawned_at_most (ParallelAppi.exit_test oversize)
              (ParallelAppi.call_f oversize f)
              (ParallelAppi.max_concurrency oversize 4)
              (ParallelAppi_workers_range_any oversize 4) u0 s Hr)
    as [Hle _].
  rewrite HK in Hle. exact Hle.
Qed.

End Oversize.

(** ** [Asynchronously]: what every reachable state satisfies *)

Lemma count_weight_zero l :
  sum_list_with Asynchronously.count_weight l = 0%nat →
  ∀ t pc, l !! t = Some pc → Asynchronously.counted pc = false.
Proof.
  induction l as [|a l IH]; intros Hsum [|t] pc Hl; simplify_eq/=.
  - unfold Asynchronously.count_weight in Hsum.
    destruct (Asynchronously.counted pc); [lia|done].
  - eapply IH; [lia|done].
Qed.

Section RunnerSafety.
Import Asynchronously.
Variable cap : Z.
Variable todo0 : list nat.

Lemma runner_inv_init : runner_inv cap todo0 (init cap todo0).
Proof.
  constructor; simpl; try done; lia.
Qed.

Lemma finished_snoc tr e :
  finished (tr ++ [e])
  = finished tr ++ match e with Finished _ f => [f] | Started _ _ => [] end.
Proof. unfold finished. rewrite omap_app. by destruct e. Qed.

Ltac lock_detached I :=
  let t := fresh "t" in let pc := fresh "pc" in
  let Hd := fresh "Hd" in let Hld := fresh "Hld" in
  intros t pc Hd; pose proof (ri_lock_detached _ I _ _ Hd) as Hld;
  split; [intros ?%Hld; congruence|congruence].

Lemma runner_inv_caller_step s s' :
  runner_inv cap todo0 s → caller_step s = Step s' → runner_inv cap todo0 s'.
Proof.
  intros I Hs. unfold caller_step in Hs.
  pose proof (ri_lock_caller _ I) as Hlc.
  pose proof (ri_count _ I) as Hc.
  pose proof (ri_le _ I) as Hle.
  pose proof (ri_tasks _ I) as Ht. unfold unfinished in Ht.
  pose proof (ri_cap _ I) as Hcap.
  destruct (caller s) eqn:Hpc; simpl in Hlc, Hc, Ht;
    try (destruct Hlc as [Hlc _]; specialize (Hlc eq_refl));
    repeat match type of Hs with
           | context [match ?x with _ => _ end] => destruct x eqn:?
           end; simplify_eq;
    try match goal with
        | H : int_succ _ = Some _ |- _ => apply int_succ_Some in H as [? ->]
        end;
    try match goal with
        | H : todo s = _ |- _ => rewrite H in Ht
        end;
    constructor; unfold unfinished; simpl;
    try apply I; try done; try lia; try (by intros [?|?]);
    try (lock_detached I);
    rewrite ?finished_snoc, ?omap_app, ?sum_list_with_app; simpl;
    rewrite ?app_nil_r; try done; try lia.
  - by rewrite Heql.
  - by rewrite <- Ht, Permutation_middle.
  - pose proof (ri_incr _ I _ Hpc). lia.
  - intros t pc [Hd|[Hge Hd]]%lookup_app_Some; [by apply I|].
    apply list_lookup_singleton_Some in Hd as [_ <-]. simpl.
    split; [done|]. intros Hh%(ri_holder _ I).
    apply lookup_lt_is_Some in Hh. lia.
  - intros t Hh%(ri_holder _ I). apply lookup_lt_is_Some.
    apply lookup_lt_is_Some in Hh. rewrite length_app. simpl. lia.
  - rewrite <- Ht. apply Permutation_app_head.
    rewrite <- app_assoc. simpl. symmetry. apply Permutation_middle.
  - by rewrite <- app_assoc.
  - intros _ t pc Hd.
    pose proof (ri_lock_detached _ I _ _ Hd) as Hld.
    apply Z.eqb_eq in Heqb.
    assert (Hsum : sum_list_with count_weight (detached s) = 0%nat) by lia.
    pose proof (count_weight_zero _ Hsum _ _ Hd) as Hcnt.
    destruct pc; try done.
    destruct Hld as [Hld _]. specialize (Hld eq_refl). congruence.
  - intros _. apply (ri_closing _ I). left. done.
Qed.

Lemma runner_inv_detached_step t s s' :
  runner_inv cap todo0 s → detached_step t s = Step s' → runner_inv cap todo0 s'.
Proof.
  intros I Hs. unfold detached_step in Hs.
  destruct (detached s !! t) as [pc|] eqn:Hd; [|done].
  pose proof (ri_lock_caller _ I) as Hlc.
  pose proof (ri_lock_detached _ I _ _ Hd) as Hld.
  pose proof (ri_count _ I) as Hc.
  pose proof (ri_le _ I) as Hle.
  pose proof (ri_tasks _ I) as Ht. unfold unfinished in Ht.
  assert (Hlen : (t < length (detached s))%nat) by by eapply lookup_lt_Some.
  assert (Hclosing : pc ≠ DExited → ∀ pc',
            caller s = DtorUnlockReturn ∨ caller s = Destroyed →
            ∀ t' pc0, <[t:=pc']> (detached s) !! t' = Some pc0 → pc0 = DExited).
  { intros Hne pc' Hcl. by apply (ri_closing _ I Hcl) in Hd. }
  assert (Hholder : ∀ pc' t', m s = Some (Detached t') →
            is_Some (<[t:=pc']> (detached s) !! t')).
  { intros pc' t' Hh%(ri_holder _ I). apply lookup_lt_is_Some.
    rewrite length_insert. by apply lookup_lt_is_Some. }
  assert (Hsame : ∀ pc', detached_holds pc' = detached_holds pc →
            ∀ t' pc0, <[t:=pc']> (detached s) !! t' = Some pc0 →
            (detached_holds pc0 = true ↔ m s = Some (Detached t'))).
  { intros pc' Hh t' pc0 [(-> & <- & _)|(_ & Hd')]%list_lookup_insert_Some.
    - by rewrite Hh.
    - by apply I. }
  pose proof (λ pc', sum_list_with_insert count_weight _ _ _ pc' Hd) as Hsum.
  pose proof (λ pc', omap_insert_perm detached_task _ _ _ pc' Hd) as Hperm.
  destruct pc; simpl in Hld;
    repeat match type of Hs with
           | context [match ?x with _ => _ end] => destruct x eqn:?
           end; simplify_eq;
    try match goal with
        | H : int_pred _ = Some _ |- _ => apply int_pred_Some in H as [? ->]
        end.
  - (* f() is entered *)
    specialize (Hsum (DInCall f)). specialize (Hperm (DInCall f)).
    constructor; unfold unfinished; simpl;
      try apply I; try (by apply Hclosing); try (by apply Hholder); try (by apply Hsame); try done.
    + unfold count_weight in Hsum, Hc |- *. simpl in Hsum. lia.
    + rewrite finished_snoc, app_nil_r.
      rewrite (omap_insert_same _ _ _ _ _ Hd) by done. done.
  - (* f() returns *)
    specialize (Hsum DLock). specialize (Hperm DLock).
    constructor; unfold unfinished; simpl;
      try apply I; try (by apply Hclosing); try (by apply Hholder); try (by apply Hsame); try done.
    + unfold count_weight in Hsum, Hc |- *. simpl in Hsum. lia.
    + rewrite finished_snoc. simpl in Hperm. rewrite app_nil_r in Hperm.
      rewrite <- Ht, <- Hperm, <- !app_assoc.
      apply Permutation_app_head.
      rewrite !(app_assoc (caller_task _)). simpl. apply Permutation_middle.
  - (* MutexLock ml(&this->m) *)
    specialize (Hsum DDecr). specialize (Hperm DDecr).
    constructor; unfold unfinished; simpl;
      try apply I; try (by apply Hclosing); try (by apply Hholder); try done.
    + split; [|done]. intros Hh. apply Hlc in Hh. congruence.
    + intros t' pc0 [(-> & <- & _)|(Hne & Hd')]%list_lookup_insert_Some.
      * done.
      * pose proof (ri_lock_detached _ I _ _ Hd') as Hld'.
        split; [intros ?%Hld'; congruence|congruence].
    + intros t' [= <-]. by rewrite list_lookup_insert_eq.
    + unfold count_weight in Hsum, Hc |- *. simpl in Hsum. lia.
    + rewrite (omap_insert_same _ _ _ _ _ Hd) by done. done.
  - (* threads_active-- *)
    specialize (Hsum DUnlock). specialize (Hperm DUnlock).
    constructor; unfold unfinished; simpl;
      try apply I; try (by apply Hclosing); try (by apply Hholder); try (by apply Hsame); try done.
    + unfold count_weight in Hsum, Hc |- *. simpl in Hsum. lia.
    + intros f Hf. pose proof (ri_incr _ I _ Hf). lia.
    + lia.
    + rewrite (omap_insert_same _ _ _ _ _ Hd) by done. done.
  - (* ~MutexLock *)
    specialize (Hsum DExited). specialize (Hperm DExited).
    destruct Hld as [Hld _]. specialize (Hld eq_refl).
    constructor; unfold unfinished; simpl;
      try apply I; try (by apply Hclosing); try (by apply Hholder); try done.
    + split; [|done]. intros Hh. apply Hlc in Hh. congruence.
    + intros t' pc0 [(-> & <- & _)|(Hne & Hd')]%list_lookup_insert_Some.
      * done.
      * pose proof (ri_lock_detached _ I _ _ Hd') as Hld'.
        split; [intros ?%Hld'; congruence|congruence].
    + unfold count_weight in Hsum, Hc |- *. simpl in Hsum. lia.
    + rewrite (omap_insert_same _ _ _ _ _ Hd) by done. done.
Qed.

Lemma runner_inv_step a s s' :
  runner_inv cap todo0 s → step a s = Step s' → runner_inv cap todo0 s'.
Proof.
  destruct a; simpl;
    eauto using runner_inv_caller_step, runner_inv_detached_step.
Qed.

Lemma runner_inv_reachable s :
  reachable (init cap todo0) s → runner_inv cap todo0 s.
Proof. induction 1; eauto using runner_inv_init, runner_inv_step. Qed.


Lemma runner_run_reachable s0 sched s s' :
  reachable s0 s → run sched s = Step s' → reachable s0 s'.
Proof.
  revert s. induction sched as [|a sched IH]; intros s Hr Hrun; simpl in Hrun.
  - by simplify_eq.
  - destruct (step a s) as [s1| |] eqn:Hs; [|done|done].
    eapply IH; [|done]. by eapply reach_step.
Qed.

Lemma runner_run_app sched1 sched2 s s1 :
  run sched1 s = Step s1 → run (sched1 ++ sched2) s = run sched2 s1.
Proof.
  revert s. induction sched1 as [|a sched1 IH]; intros s Hrun; simpl in *.
  - by simplify_eq.
  - destruct (step a s); [|done|done]. by apply IH.
Qed.

(** A thread that has not decremented the counter is counted in it. *)
Lemma runner_counted_positive s t pc :
  runner_inv cap todo0 s → detached s !! t = Some pc → counted pc = true →
  1 ≤ threads_active s.
Proof.
  intros I Hd Hcnt. rewrite (ri_count _ I).
  pose proof (sum_list_with_in pc count_weight (detached s)
                (list_elem_of_lookup_2 _ _ _ Hd)) as Hin.
  unfold count_weight in Hin at 1. rewrite Hcnt in Hin.
  assert (0 ≤ owed (caller s)) by (destruct (caller s); simpl; lia).
  lia.
Qed.

Hypothesis cap_range : cap ≤ INT_MAX.

(** No statement that can be reached has undefined behaviour: the counter
    stays an [int], and no thread uses the runner after its destructor
    has returned. *)
Lemma runner_no_UB a s : runner_inv cap todo0 s → step a s ≠ UB.
Proof.
  intros I. destruct a as [|t]; simpl.
  - unfold caller_step. destruct (caller s) eqn:Hpc; try done.
    + by destruct (todo s).
    + by destruct (m s).
    + by destruct (threads_active s <? max_threads s).
    + pose proof (ri_incr _ I _ Hpc). unfold int_succ.
      destruct (Z.ltb_spec (threads_active s) INT_MAX); [done|lia].
    + by destruct (m s).
    + by destruct (threads_active s =? 0).
  - unfold detached_step. destruct (detached s !! t) as [pc|] eqn:Hd; [|done].
    assert (Halive : pc ≠ DExited → alive s = true).
    { intros Hne. unfold alive. destruct (caller s) eqn:Hpc; try done.
      by apply (ri_closing _ I (or_intror Hpc)) in Hd. }
    destruct pc; try done; rewrite Halive by done.
    + by destruct (m s).
    + pose proof (runner_counted_positive _ _ _ I Hd eq_refl).
      unfold int_pred.
      destruct (Z.ltb_spec INT_MIN (threads_active s)); [done|].
      unfold INT_MIN in *. lia.
    + done.
Qed.

Lemma runner_measure_nonneg s : 0 ≤ measure s.
Proof.
  unfold measure, caller_weight.
  destruct (caller s); try lia. destruct (threads_active s =? 0); lia.
Qed.

(** Until the destructor has returned, some thread can perform a statement
    that brings the end nearer. *)
Lemma runner_progress s :
  runner_inv cap todo0 s → caller s ≠ Destroyed →
  ∃ a s', step a s = Step s' ∧ measure s' < measure s.
Proof.
  intros I Halive.
  pose proof (ri_lock_caller _ I) as Hlc.
  pose proof (ri_count _ I) as Hc.
  assert (Hdet : ∀ t pc, detached s !! t = Some pc → pc ≠ DExited →
            (detached_holds pc = true ∨ m s = None) →
            caller s ≠ DtorTest →
            ∃ s', detached_step t s = Step s' ∧ measure s' < measure s).
  { intros t pc Hd Hne Hfree Htest.
    pose proof (runner_no_UB (Detached t) s I) as Hub. simpl in Hub.
    pose proof (ri_lock_detached _ I _ _ Hd) as Hld.
    pose proof (λ pc', sum_list_with_insert detached_weight _ _ _ pc' Hd)
      as Hsum.
    unfold detached_step in *. rewrite Hd in *.
    assert (Hal : alive s = true) by (unfold alive; by destruct (caller s)).
    rewrite Hal in *.
    unfold measure, caller_weight.
    destruct pc; simpl in *; try done.
    - eexists. split; [done|]. simpl. specialize (Hsum (DInCall f)).
      simpl in Hsum. lia.
    - eexists. split; [done|]. simpl. specialize (Hsum DLock).
      simpl in Hsum. lia.
    - destruct Hfree as [?|Hfree]; [done|]. rewrite Hfree.
      eexists. split; [done|]. simpl. specialize (Hsum DDecr).
      simpl in Hsum. lia.
    - destruct (int_pred (threads_active s)) as [n|]; [|done].
      eexists. split; [done|]. simpl. specialize (Hsum DUnlock).
      simpl in Hsum. destruct (caller s); try done; lia.
    - eexists. split; [done|]. simpl. specialize (Hsum DExited).
      simpl in Hsum. lia. }
  destruct (m s) as [[|t]|] eqn:Hm.
  - (* the owner holds the mutex *)
    exists Caller. simpl. unfold caller_step, measure, caller_weight.
    destruct Hlc as [_ Hlc]. specialize (Hlc eq_refl).
    destruct (caller s) eqn:Hpc; try done; simpl.
    + destruct (threads_active s <? max_threads s);
        eexists; (split; [done|]); simpl; rewrite ?Hpc; simpl; lia.
    + pose proof (runner_no_UB Caller s I) as Hub. simpl in Hub.
      unfold caller_step in Hub. rewrite Hpc in Hub.
      destruct (int_succ (threads_active s)); [|done].
      eexists; (split; [done|]); simpl; rewrite ?Hpc; simpl; lia.
    + eexists; (split; [done|]); simpl; rewrite ?Hpc; simpl; lia.
    + eexists; (split; [done|]); simpl; rewrite ?Hpc; simpl; lia.
    + destruct (threads_active s =? 0);
        eexists; (split; [done|]); simpl; rewrite ?Hpc; simpl; lia.
    + eexists; (split; [done|]); simpl; rewrite ?Hpc; simpl; lia.
    + eexists; (split; [done|]); simpl; rewrite ?Hpc; simpl; lia.
  - (* a detached thread holds the mutex *)
    destruct (ri_holder _ I _ Hm) as [pc Hd].
    pose proof (ri_lock_detached _ I _ _ Hd) as [_ Hld].
    specialize (Hld Hm).
    destruct (Hdet t pc Hd) as (s' & Hs' & Hlt).
    + by destruct pc.
    + by left.
    + intros Hpc. rewrite Hpc in Hlc. simpl in Hlc.
      destruct Hlc as [Hlc _]. specialize (Hlc eq_refl). congruence.
    + by exists (Detached t), s'.
  - (* the mutex is free *)
    assert (Hnt : caller s ≠ DtorTest).
    { intros Hpc. rewrite Hpc in Hlc. simpl in Hlc.
      destruct Hlc as [Hlc _]. specialize (Hlc eq_refl). congruence. }
    destruct (decide (Forall (λ pc, pc = DExited) (detached s)))
      as [Hall|Hex].
    + exists Caller. simpl. unfold caller_step, measure, caller_weight.
      destruct (caller s) eqn:Hpc; try done; simpl;
        try (simpl in Hlc; destruct Hlc as [Hlc _];
             by specialize (Hlc eq_refl)).
      * destruct (todo s) as [|f rest] eqn:Htodo;
          eexists; (split; [done|]); simpl; rewrite ?Hpc; lia.
      * rewrite Hm. eexists; (split; [done|]); simpl; rewrite ?Hpc; simpl; lia.
      * eexists; (split; [done|]); simpl. rewrite ?Hpc.
        rewrite sum_list_with_app. simpl. lia.
      * eexists; (split; [done|]); simpl; rewrite ?Hpc; simpl; lia.
      * eexists; (split; [done|]); simpl; rewrite ?Hpc; simpl; lia.
      * rewrite Hm. eexists; (split; [done|]); simpl.
        assert (Hz : sum_list_with count_weight (detached s) = 0%nat).
        { clear -Hall. induction Hall as [|pc l -> _ IH]; [done|].
          simpl. by rewrite IH. }
        assert (threads_active s = 0) as -> by (simpl in Hc; lia).
        simpl. lia.
    + apply not_Forall_Exists in Hex; [|apply _].
      apply Exists_exists in Hex as (pc & Hin & Hne).
      apply list_elem_of_lookup in Hin as [t Hd].
      destruct (Hdet t pc Hd Hne (or_intror eq_refl) Hnt) as (s' & Hs' & Hlt).
      by exists (Detached t), s'.
Qed.

(** From every state that can be reached, some schedule brings the
    destructor to its return. *)
Lemma runner_drains s :
  runner_inv cap todo0 s → ∃ sched s', run sched s = Step s' ∧ caller s' = Destroyed.
Proof.
  intros I. remember (Z.to_nat (measure s)) as n eqn:Hn.
  revert s I Hn. induction (lt_wf n) as [n _ IH]. intros s I ->.
  destruct (decide (caller s = Destroyed)) as [Hm|Hm].
  - exists [], s. done.
  - destruct (runner_progress s I Hm) as (a & s1 & Hs & Hlt).
    pose proof (runner_measure_nonneg s1).
    destruct (IH (Z.to_nat (measure s1)) ltac:(lia) s1
                 (runner_inv_step _ _ _ I Hs) eq_refl)
      as (sched & s' & Hrun & Hret).
    exists (a :: sched), s'. simpl. rewrite Hs. done.
Qed.

End RunnerSafety.

(** ** [Asynchronously]: the destructor *)

Section RunnerDestructor.
Import Asynchronously.
Variable cap : Z.
Variable todo0 : list nat.

Lemma dtor_inv_step a s s' :
  runner_inv cap todo0 s → dtor_inv s → step a s = Step s' → dtor_inv s'.
Proof.
  intros I [Htodo Hretry] Hs. destruct a as [|t]; simpl in Hs.
  - unfold caller_step in Hs.
    destruct (caller s) eqn:Hpc; simpl in *;
      repeat match type of Hs with
             | context [match ?x with _ => _ end] => destruct x eqn:?
             end; simplify_eq; split; simpl; try done; auto.
    intros _. by apply Z.eqb_neq.
  - unfold detached_step in Hs.
    destruct (detached s !! t) as [pc|] eqn:Hd; [|done].
    pose proof (ri_lock_detached _ I _ _ Hd) as Hld.
    pose proof (ri_lock_caller _ I) as Hlc.
    destruct pc; simpl in Hld;
      repeat match type of Hs with
             | context [match ?x with _ => _ end] => destruct x eqn:?
             end; simplify_eq; split; simpl; try done.
    intros Hpc. rewrite Hpc in Hlc. simpl in Hlc.
    destruct Hlc as [Hlc _], Hld as [Hld _].
    specialize (Hlc eq_refl). specialize (Hld eq_refl). congruence.
Qed.

Lemma dtor_inv_reachable s : reachable (init cap todo0) s → dtor_inv s.
Proof.
  induction 1 as [|s a s' Hr IH Hs].
  - split; simpl; done.
  - exact (dtor_inv_step _ _ _ (runner_inv_reachable _ _ _ Hr) IH Hs).
Qed.


End RunnerDestructor.

(** ** [Asynchronously]: a capacity that is not positive *)

Section RunnerNoCapacity.
Import Asynchronously.
Variable cap : Z.
Hypothesis cap_nonpos : cap ≤ 0.

Lemma sync_inv_step a s s' : sync_inv cap s → step a s = Step s' → sync_inv cap s'.
Proof.
  intros [Hcap Hcnt Hdet Hpc Htr Hm] Hs. destruct a as [|t]; simpl in Hs.
  - unfold caller_step in Hs.
    assert (Htest : (threads_active s <? max_threads s) = false)
      by (apply Z.ltb_ge; lia).
    assert (Hzero : (threads_active s =? 0) = true) by by apply Z.eqb_eq.
    rewrite Htest, Hzero in Hs.
    assert (Hev : ∀ e0, event_actor e0 = Caller →
              ∀ e, e ∈ trace s ++ [e0] → event_actor e = Caller).
    { intros e0 He0 e [?|He]%elem_of_app; [auto|].
      apply list_elem_of_singleton in He. by subst. }
    destruct (caller s) eqn:Hc; simpl in *;
      repeat match type of Hs with
             | context [match ?x with _ => _ end] => destruct x eqn:?
             end; simplify_eq; try done; constructor; simpl; auto;
      by apply Hev.
  - unfold detached_step in Hs. by rewrite Hdet in Hs.
Qed.

Lemma sync_inv_reachable todo0 s : reachable (init cap todo0) s → sync_inv cap s.
Proof.
  induction 1; eauto using sync_inv_step.
  constructor; simpl; auto. intros e. by rewrite elem_of_nil.
Qed.

(** [Run(f)] from start to end, and the destructor, on the owner alone. *)
Lemma sync_Run f rest tr :
  run (replicate 6 Caller) (mkState 0 cap None Idle (f :: rest) [] tr)
  = Step (mkState 0 cap None Idle rest []
                  (tr ++ [Started Caller f] ++ [Finished Caller f])).
Proof.
  assert (Htest : (0 <? cap) = false) by (apply Z.ltb_ge; lia).
  simpl. unfold caller_step. simpl. rewrite Htest. simpl.
  cbv [set_caller emit set_m set_todo threads_active max_threads m caller
       todo detached trace].
  by rewrite <- app_assoc.
Qed.

Lemma sync_destructor tr :
  run (replicate 4 Caller) (mkState 0 cap None Idle [] [] tr)
  = Step (mkState 0 cap None Destroyed [] [] tr).
Proof. done. Qed.

Lemma sync_run l tr :
  run (replicate (6 * length l + 4) Caller) (mkState 0 cap None Idle l [] tr)
  = Step (mkState 0 cap None Destroyed [] [] (tr ++ all_synchronous l)).
Proof.
  revert tr. induction l as [|f rest IH]; intros tr.
  - unfold all_synchronous. simpl. rewrite app_nil_r. apply sync_destructor.
  - replace (6 * length (f :: rest) + 4)%nat
      with (6 + (6 * length rest + 4))%nat by (simpl; lia).
    rewrite replicate_add, (runner_run_app _ _ _ _ (sync_Run f rest tr)), IH.
    unfold all_synchronous. simpl. by rewrite <- !app_assoc.
Qed.

End RunnerNoCapacity.

(** ** [Asynchronously]: [Run] among the threads it has started *)

Section RunnerRun.
Import Asynchronously.

Lemma thread_events_mono tr e t pc :
  thread_events tr t pc → thread_events (tr ++ [e]) t pc.
Proof.
  destruct pc; simpl; try done.
  - intros ?. apply elem_of_app. by left.
  - intros (f & ? & ?). exists f. split; apply elem_of_app; by left.
  - intros (f & ? & ?). exists f. split; apply elem_of_app; by left.
  - intros (f & ? & ?). exists f. split; apply elem_of_app; by left.
  - intros (f & ? & ?). exists f. split; apply elem_of_app; by left.
Qed.

Lemma threads_events_step a s s' :
  threads_events s → step a s = Step s' → threads_events s'.
Proof.
  unfold threads_events. intros I Hs. destruct a as [|t]; simpl in Hs.
  - unfold caller_step in Hs.
    destruct (caller s) eqn:Hpc;
      repeat match type of Hs with
             | context [match ?x with _ => _ end] => destruct x eqn:?
             end; simplify_eq; simpl; auto using thread_events_mono.
    intros t pc [Hd|[_ Hd]]%lookup_app_Some; [auto|].
    by apply list_lookup_singleton_Some in Hd as [_ <-].
  - unfold detached_step in Hs.
    destruct (detached s !! t) as [pc|] eqn:Hd; [|done].
    pose proof (I _ _ Hd) as It.
    destruct pc;
      repeat match type of Hs with
             | context [match ?x with _ => _ end] => destruct x eqn:?
             end; simplify_eq; simpl;
      intros t' pc' [(-> & <- & _)|(_ & Hd')]%list_lookup_insert_Some;
      auto using thread_events_mono; simpl in *.
    + apply elem_of_app. right. by apply list_elem_of_singleton.
    + exists f. split; apply elem_of_app; [by left|right].
      by apply list_elem_of_singleton.
Qed.

Lemma threads_events_reachable cap todo0 s :
  reachable (init cap todo0) s → threads_events s.
Proof.
  induction 1; eauto using threads_events_step.
  intros t pc. simpl. by rewrite lookup_nil.
Qed.

Lemma caller_events_snoc tr e :
  caller_events (tr ++ [e])
  = caller_events tr ++ (if decide (event_actor e = Caller) then [e] else []).
Proof.
  unfold caller_events. by rewrite filter_app.
Qed.

(** What a statement of a detached thread leaves as it is. *)
Lemma detached_step_frame cap todo0 t s s' :
  runner_inv cap todo0 s → detached_step t s = Step s' →
  caller s' = caller s ∧ todo s' = todo s ∧ max_threads s' = max_threads s
  ∧ length (detached s') = length (detached s)
  ∧ caller_events (trace s') = caller_events (trace s)
  ∧ (∀ e, e ∈ trace s → e ∈ trace s')
  ∧ (m s = Some Caller → threads_active s' = threads_active s)
  ∧ (∀ t' f, detached s !! t' = Some (DCall f) →
       detached s' !! t' = Some (DCall f)
       ∨ Started (Detached t') f ∈ trace s').
Proof.
  intros I Hs. unfold detached_step in Hs.
  destruct (detached s !! t) as [pc|] eqn:Hd; [|done].
  pose proof (ri_lock_detached _ I _ _ Hd) as Hld.
  assert (Hother : ∀ pc' t' f, pc ≠ DCall f →
            detached s !! t' = Some (DCall f) →
            <[t:=pc']> (detached s) !! t' = Some (DCall f)).
  { intros pc' t' f Hne Hd'. rewrite list_lookup_insert_ne; [done|].
    intros ->. congruence. }
  destruct pc; simpl in Hld;
    repeat match type of Hs with
           | context [match ?x with _ => _ end] => destruct x eqn:?
           end; simplify_eq; simpl;
    rewrite ?length_insert, ?caller_events_snoc; simpl; rewrite ?app_nil_r;
    repeat split; auto; try (intros e He; apply elem_of_app; by left).
  - intros t' f' Hd'. destruct (decide (t' = t)) as [->|Hne].
    + right. assert (f' = f) as -> by congruence.
      apply elem_of_app; right; by apply list_elem_of_singleton.
    + left. by rewrite list_lookup_insert_ne.
  - intros Hm. destruct Hld as [Hld _]. specialize (Hld eq_refl). congruence.
Qed.

Lemma Run_effect_start f s :
  caller s = RunTest f → ∀ b, Run_effect b f 0 s s.
Proof.
  intros Hpc b. unfold Run_effect. rewrite !andb_false_r. simpl.
  rewrite app_nil_r. repeat split; auto; lia.
Qed.

Lemma Run_effect_detached cap todo0 b f k s0 s t s1 :
  runner_inv cap todo0 s → Run_effect b f k s0 s →
  detached_step t s = Step s1 → Run_effect b f k s0 s1.
Proof.
  intros I (Hpc & Htodo & Hmax & Hta & Hlen & Hev & Hth) Hs.
  destruct (detached_step_frame _ _ _ _ _ I Hs)
    as (Hpc' & Htodo' & Hmax' & Hlen' & Hev' & Htr & Hta' & Hth').
  unfold Run_effect.
  rewrite Hpc', Htodo', Hmax', Hlen', Hev'. repeat split; auto.
  - intros Hh. rewrite Hta'; [auto|].
    apply (ri_lock_caller _ I). by rewrite Hpc.
  - intros Hb Hk. destruct (Hth Hb Hk) as [Hd|Hin]; [by apply Hth'|].
    right. by apply Htr.
Qed.

Lemma Run_effect_caller b f k s0 s s1 :
  Run_effect b f k s0 s → (k < 4)%nat →
  (k = 0%nat → b = (threads_active s0 <? max_threads s0)) →
  caller_step s = Step s1 → Run_effect b f (S k) s0 s1.
Proof.
  intros (Hpc & Htodo & Hmax & Hta & Hlen & Hev & Hth) Hk Hb Hs.
  unfold caller_step in Hs. unfold Run_effect.
  destruct k as [|[|[|[|k]]]]; [| | | |lia].
  - (* if (threads_active < max_threads) *)
    simpl in Hpc. rewrite Hpc in Hs. specialize (Hta eq_refl).
    simpl in Hta. rewrite andb_false_r in Hta.
    rewrite Hta, Hmax, Z.add_0_r, <- Hb in Hs by done.
    destruct b; simplify_eq; simpl in *; rewrite ?app_nil_r in *;
      repeat split; auto; try done; try (intros; lia).
  - destruct b; simpl in Hpc; rewrite Hpc in Hs; simpl in *.
    + (* threads_active++ *)
      specialize (Hta eq_refl).
      destruct (int_succ (threads_active s)) as [n|] eqn:Hn; [|done].
      apply int_succ_Some in Hn as [_ ->]. simplify_eq. simpl.
      rewrite ?app_nil_r in *. repeat split; auto; try done; try (intros; lia).
    + (* m.unlock() *)
      simplify_eq. simpl. rewrite ?app_nil_r in *.
      repeat split; auto; try done; try (intros; lia).
  - destruct b; simpl in Hpc; rewrite Hpc in Hs; simpl in *.
    + (* m.unlock() *)
      simplify_eq. simpl. rewrite ?app_nil_r in *.
      repeat split; auto; try done; try (intros; lia).
    + (* f() is entered *)
      simplify_eq. simpl. rewrite caller_events_snoc. simpl.
      rewrite ?app_nil_r in *. rewrite Hev.
      repeat split; auto; try done; try (intros; lia).
  - destruct b; simpl in Hpc; rewrite Hpc in Hs; simpl in *.
    + (* std::thread t{...}; t.detach() *)
      simplify_eq. simpl. rewrite ?app_nil_r in *. rewrite length_app.
      simpl. repeat split; auto; try done; try lia.
      intros _ _. left. rewrite Nat.add_0_r in Hlen. rewrite <- Hlen.
      by rewrite lookup_app_r, Nat.sub_diag by lia.
    + (* f() returns *)
      simplify_eq. simpl. rewrite caller_events_snoc. simpl.
      rewrite Hev, <- app_assoc.
      repeat split; auto; try done.
Qed.

Lemma count_caller_cons a sched :
  count_caller (a :: sched)
  = ((if decide (a = Caller) then 1 else 0) + count_caller sched)%nat.
Proof.
  unfold count_caller. rewrite filter_cons.
  by destruct (decide (a = Caller)).
Qed.

(** [Run(f)] from its test on, under any schedule. *)
Lemma Run_effect_run cap todo0 b f s0 sched :
  b = (threads_active s0 <? max_threads s0) →
  ∀ k s s', runner_inv cap todo0 s → Run_effect b f k s0 s →
    run sched s = Step s' → (k + count_caller sched ≤ 4)%nat →
    Run_effect b f (k + count_caller sched) s0 s'.
Proof.
  intros Hb. induction sched as [|a sched IH]; intros k s s' I He Hrun Hk.
  - simpl in Hrun. simplify_eq. unfold count_caller. simpl.
    by rewrite Nat.add_0_r.
  - simpl in Hrun. destruct (step a s) as [s1| |] eqn:Hs; [|done|done].
    pose proof (runner_inv_step _ _ _ _ _ I Hs) as I1.
    rewrite count_caller_cons in *.
    destruct (decide (a = Caller)) as [->|Hne]; simpl in Hs.
    + replace (k + (1 + count_caller sched))%nat
        with (S k + count_caller sched)%nat by lia.
      apply (IH (S k) s1 s' I1); [|done|lia].
      apply (Run_effect_caller b f k s0 s s1 He); [lia|done|done].
    + destruct a as [|t]; [done|]. simpl in *.
      apply (IH k s1 s' I1); [|done|lia].
      exact (Run_effect_detached _ _ _ _ _ _ _ _ _ I He Hs).
Qed.

(** The events of each detached thread. *)
Lemma events_of_snoc a tr e :
  events_of a (tr ++ [e])
  = events_of a tr ++ (if decide (event_actor e = a) then [e] else []).
Proof.
  unfold events_of. by rewrite filter_app.
Qed.

Lemma events_of_other a tr e :
  event_actor e ≠ a → events_of a (tr ++ [e]) = events_of a tr.
Proof.
  intros He. rewrite events_of_snoc, decide_False by done. apply app_nil_r.
Qed.

Lemma events_of_elem a tr e :
  e ∈ tr → event_actor e = a → e ∈ events_of a tr.
Proof.
  intros Hin He. by apply list_elem_of_filter.
Qed.

Lemma runs_task_other tr e t f pc :
  event_actor e ≠ Detached t →
  runs_task tr t f pc → runs_task (tr ++ [e]) t f pc.
Proof.
  intros He. destruct pc; simpl; by rewrite (events_of_other _ _ _ He).
Qed.

Lemma threads_ran_step a s s' :
  threads_ran s → step a s = Step s' → threads_ran s'.
Proof.
  intros [I J] Hs. destruct a as [|t]; simpl in Hs.
  - unfold caller_step in Hs.
    destruct (caller s) eqn:Hpc;
      repeat match type of Hs with
             | context [match ?x with _ => _ end] => destruct x eqn:?
             end; simplify_eq; split; simpl;
      try (intros t pc Hd; destruct (I t pc Hd) as [g Hg]; exists g;
           by apply runs_task_other);
      try (intros t Hl; rewrite events_of_other by done; by apply J);
      auto.
    + intros t pc [Hd|[Hl Hd]]%lookup_app_Some; [auto|].
      apply list_lookup_singleton_Some in Hd as [Ht <-].
      exists f. simpl. split; [done|]. apply J. lia.
    + intros t Hl. rewrite length_app in Hl. simpl in Hl. apply J. lia.
  - unfold detached_step in Hs.
    destruct (detached s !! t) as [pc|] eqn:Hd; [|done].
    destruct (I _ _ Hd) as [g It].
    pose proof (lookup_lt_Some _ _ _ Hd) as Hlt.
    assert (Hoth : ∀ e t' pc', event_actor e = Detached t → t ≠ t' →
              detached s !! t' = Some pc' →
              ∃ f, runs_task (trace s ++ [e]) t' f pc').
    { intros e t' pc' He Hne Hd'. destruct (I _ _ Hd') as [g' Hg'].
      exists g'. apply runs_task_other; [|done]. rewrite He. congruence. }
    assert (Hnew : ∀ e t', event_actor e = Detached t →
              (length (detached s) ≤ t')%nat →
              events_of (Detached t') (trace s ++ [e]) = []).
    { intros e t' He Hl. rewrite events_of_other; [by apply J|].
      rewrite He. intros [=]. lia. }
    destruct pc;
      repeat match type of Hs with
             | context [match ?x with _ => _ end] => destruct x eqn:?
             end; simplify_eq; split; simpl;
      try (intros t' Hl; rewrite length_insert in Hl; by auto);
      intros t' pc' [(-> & <- & _)|(Hne & Hd')]%list_lookup_insert_Some;
      eauto; simpl in It.
    + destruct It as [-> It]. exists g. simpl. split; [done|].
      rewrite events_of_snoc, It. simpl. by rewrite decide_True.
    + destruct It as [-> It]. exists g. simpl.
      rewrite events_of_snoc, It. simpl. by rewrite decide_True.
Qed.

Lemma threads_ran_reachable cap todo0 s :
  reachable (init cap todo0) s → threads_ran s.
Proof.
  induction 1; eauto using threads_ran_step.
  split; simpl; [|done]. intros t pc. by rewrite lookup_nil.
Qed.

(** The thread [Run(f)] has started runs [f]. *)
Lemma started_runs_task s t f pc :
  threads_ran s → detached s !! t = Some pc →
  detached s !! t = Some (DCall f) ∨ Started (Detached t) f ∈ trace s →
  runs_task (trace s) t f pc.
Proof.
  intros [I _] Hd Hf. destruct (I _ _ Hd) as [g Hg].
  assert (Hev : Started (Detached t) f ∈ trace s →
            Started (Detached t) f ∈ events_of (Detached t) (trace s)).
  { intros Hin. by apply events_of_elem. }
  destruct Hf as [Hd'|Hin%Hev].
  - rewrite Hd in Hd'. simplify_eq. simpl in *. by destruct Hg.
  - assert (Hfg : ∀ l, Started (Detached t) f ∈ Started (Detached t) g :: l →
              (∀ e, e ∈ l → ∀ a h, e ≠ Started a h) → f = g).
    { intros l [Heq|Hl]%elem_of_cons Hno; [by simplify_eq|].
      by destruct (Hno _ Hl (Detached t) f). }
    assert (Hno : ∀ l, l = [] ∨ l = [Finished (Detached t) g] →
              ∀ e, e ∈ l → ∀ a h, e ≠ Started a h).
    { intros l [->| ->] e He; [by apply elem_of_nil in He|].
      by apply list_elem_of_singleton in He as ->. }
    destruct pc; simpl in *.
    + destruct Hg as [_ Hg]. rewrite Hg in Hin. by apply elem_of_nil in Hin.
    + destruct Hg as [-> Hg]. rewrite Hg in Hin.
      by rewrite (Hfg _ Hin (Hno _ (or_introl eq_refl))).
    + rewrite Hg in Hin |- *.
      by rewrite (Hfg _ Hin (Hno _ (or_intror eq_refl))).
    + rewrite Hg in Hin |- *.
      by rewrite (Hfg _ Hin (Hno _ (or_intror eq_refl))).
    + rewrite Hg in Hin |- *.
      by rewrite (Hfg _ Hin (Hno _ (or_intror eq_refl))).
    + rewrite Hg in Hin |- *.
      by rewrite (Hfg _ Hin (Hno _ (or_intror eq_refl))).
Qed.

(** The lambda of a detached thread, when no other thread moves. *)
Lemma lambda_runs_alone s t f :
  detached s !! t = Some (DCall f) → m s = None → alive s = true →
  INT_MIN < threads_active s →
  run (replicate 5 (Detached t)) s = Step (lambda_done t f s).
Proof.
  destruct s as [ta mt h pc td dt tr]. unfold lambda_done. simpl.
  intros Hd -> Hal Hta.
  pose proof (lookup_lt_Some _ _ _ Hd) as Hlt.
  assert (Hlk : ∀ (x : dpc) l,
            length l = length dt → <[t:=x]> l !! t = Some x).
  { intros x l Hl. apply list_lookup_insert_eq. by rewrite Hl. }
  assert (Hal' : ∀ ta' h' dt' tr',
            alive (mkState ta' mt h' pc td dt' tr') = true).
  { intros. unfold alive in *. simpl in *. by destruct pc. }
  unfold detached_step at 1. cbn [detached]. rewrite Hd.
  unfold set_detached, emit.
  cbn [threads_active max_threads m caller todo detached trace].
  unfold detached_step at 1. cbn [detached]. rewrite Hlk by done.
  unfold set_detached, emit.
  cbn [threads_active max_threads m caller todo detached trace].
  unfold detached_step at 1. cbn [detached].
  rewrite Hlk, Hal' by (by rewrite length_insert).
  unfold set_detached, set_m.
  cbn [threads_active max_threads m caller todo detached trace].
  unfold detached_step at 1. cbn [detached].
  rewrite Hlk, Hal' by (by rewrite !length_insert).
  cbn [threads_active]. unfold int_pred.
  destruct (Z.ltb_spec INT_MIN ta) as [_|?]; [|lia].
  unfold set_detached, set_threads_active.
  cbn [threads_active max_threads m caller todo detached trace].
  unfold detached_step at 1. cbn [detached].
  rewrite Hlk, Hal' by (by rewrite !length_insert).
  unfold set_detached, set_m.
  cbn [threads_active max_threads m caller todo detached trace].
  by rewrite !list_insert_insert_eq, <- app_assoc.
Qed.

End RunnerRun.

Section RunnerClaims.
Import Asynchronously.

(** C4.  Take [Run(f)] at its capacity test, in any state [s] an owner
    can reach, and let the threads go on under any schedule in which the
    owner performs at most the four statements that are left of [Run(f)];
    [s'] is the state then.  The owner holds the mutex at the test, and
    the test alone decides the branch ([Run_effect], for the truth value
    of [threads_active s < max_threads s]).  If it holds, the owner
    increments [threads_active] with the mutex held, releases the mutex,
    starts one detached thread for [f] and has returned, without running
    [f] itself.  If it does not hold, the owner releases the mutex, starts
    no thread, enters [f] and leaves it on its own thread, and has returned
    only after that.  Whatever the other threads do, the counter is the
    number of detached threads that have not decremented it (plus one when
    the owner has incremented it for a thread not yet started); a thread
    that has decremented it has run its task to the end; and the decrement
    is made with the mutex held and takes one off.  The thread that [Run(f)]
    has started runs [f] and nothing else, and so does every detached
    thread with its task ([runs_task]: the events of the thread are none
    before the call, the start of its task inside the call, and the start
    and the end of its task after it).  Each statement of the lambda does
    what the source says: the thread enters its task, leaves it, acquires
    the mutex when it is free and waits when it is not, and releases the
    mutex it holds as its last statement; and when no other thread moves,
    the five statements of the lambda run the task once and leave
    [threads_active] one lower and the mutex free ([lambda_done]). *)
Theorem Run_branches (cap : Z) (todo0 : list nat) (s : state) (f : nat)
    (sched : list actor) (s' : state) :
  reachable (init cap todo0) s → caller s = RunTest f →
  run sched s = Step s' → (count_caller sched ≤ 4)%nat →
  m s = Some Caller
  ∧ Run_effect (threads_active s <? max_threads s) f (count_caller sched) s s'
  ∧ ((count_caller sched < 4)%nat → caller s' ≠ Idle)
  ∧ (count_caller sched = 4%nat → threads_active s < max_threads s →
       caller s' = Idle
       ∧ length (detached s') = S (length (detached s))
       ∧ caller_events (trace s') = caller_events (trace s))
  ∧ (count_caller sched = 4%nat → ¬ threads_active s < max_threads s →
       caller s' = Idle
       ∧ length (detached s') = length (detached s)
       ∧ caller_events (trace s')
         = caller_events (trace s) ++ [Started Caller f; Finished Caller f])
  ∧ (caller_holds (caller s') = true ↔ m s' = Some Caller)
  ∧ threads_active s'
    = Z.of_nat (sum_list_with count_weight (detached s')) + owed (caller s')
  ∧ (∀ t pc, detached s' !! t = Some pc → thread_events (trace s') t pc)
  ∧ (∀ t, detached s' !! t = Some DDecr →
       m s' = Some (Detached t)
       ∧ ∃ s'', step (Detached t) s' = Step s''
                ∧ threads_active s'' = threads_active s' - 1
                ∧ detached s'' !! t = Some DUnlock)
  ∧ (∀ t pc, detached s' !! t = Some pc → ∃ g, runs_task (trace s') t g pc)
  ∧ (count_caller sched = 4%nat → threads_active s < max_threads s →
       ∃ pc, detached s' !! length (detached s) = Some pc
             ∧ runs_task (trace s') (length (detached s)) f pc)
  ∧ (∀ t g, detached s' !! t = Some (DCall g) →
       step (Detached t) s'
       = Step (set_detached t (DInCall g)
                 (emit (Started (Detached t) g) s')))
  ∧ (∀ t g, detached s' !! t = Some (DInCall g) →
       step (Detached t) s'
       = Step (set_detached t DLock (emit (Finished (Detached t) g) s')))
  ∧ (∀ t, detached s' !! t = Some DLock →
       step (Detached t) s'
       = match m s' with
         | None => Step (set_detached t DDecr (set_m (Some (Detached t)) s'))
         | Some _ => NoStep
         end)
  ∧ (∀ t, detached s' !! t = Some DUnlock →
       m s' = Some (Detached t)
       ∧ step (Detached t) s'
         = Step (set_detached t DExited (set_m None s')))
  ∧ (∀ t g, detached s' !! t = Some (DCall g) → m s' = None →
       run (replicate 5 (Detached t)) s' = Step (lambda_done t g s')).
Proof.
  intros Hr Hpc Hrun Hk.
  pose proof (runner_inv_reachable _ _ _ Hr) as I.
  pose proof (runner_run_reachable _ _ _ _ Hr Hrun) as Hr'.
  pose proof (runner_inv_reachable _ _ _ Hr') as I'.
  pose proof (Run_effect_run cap todo0 _ f s sched eq_refl 0 s s' I
                (Run_effect_start f s Hpc _) Hrun Hk) as He.
  simpl in He.
  split; [apply (ri_lock_caller _ I); by rewrite Hpc|].
  split; [done|].
  destruct He as (Hpc' & _ & _ & _ & Hlen & Hev & Hth).
  pose proof (threads_ran_reachable _ _ _ Hr') as Hran.
  assert (Hal : ∀ t pc, detached s' !! t = Some pc → pc ≠ DExited →
            alive s' = true).
  { intros t pc Hd Hne. unfold alive. destruct (caller s') eqn:Hc; try done.
    by apply (ri_closing _ I' (or_intror Hc)) in Hd. }
  split; [|split; [|split; [|split; [|split; [|split; [|split;
    [|split; [|split; [|split; [|split; [|split; [|split]]]]]]]]]]]].
  - intros Hlt. rewrite Hpc'.
    destruct (count_caller sched) as [|[|[|[|k]]]];
      [| | | |lia]; by destruct (threads_active s <? max_threads s).
  - intros Hc Hlt. rewrite Hc in *.
    apply Z.ltb_lt in Hlt. rewrite Hlt in *. simpl in *.
    rewrite app_nil_r in Hev. split; [done|]. split; [lia|done].
  - intros Hc Hge. rewrite Hc in *.
    assert (Hf : (threads_active s <? max_threads s) = false)
      by (apply Z.ltb_ge; lia).
    rewrite Hf in *. simpl in *.
    split; [done|]. split; [lia|done].
  - apply I'.
  - apply I'.
  - by apply (threads_events_reachable cap todo0).
  - intros t Hd.
    pose proof (ri_lock_detached _ I' _ _ Hd) as [Hld _].
    split; [by apply Hld|].
    pose proof (runner_counted_positive _ _ _ _ _ I' Hd eq_refl) as Hpos.
    simpl. unfold detached_step. rewrite Hd, (Hal _ _ Hd) by done.
    unfold int_pred. destruct (Z.ltb_spec INT_MIN (threads_active s'));
      [|unfold INT_MIN in *; lia].
    eexists. split; [done|]. simpl. split; [done|].
    apply list_lookup_insert_eq. by eapply lookup_lt_Some.
  - apply Hran.
  - intros Hc Hlt. rewrite Hc in *.
    apply Z.ltb_lt in Hlt. rewrite Hlt in *. simpl in *.
    specialize (Hth eq_refl (le_n _)).
    destruct (lookup_lt_is_Some_2 (detached s') (length (detached s)))
      as [pc Hd]; [lia|].
    exists pc. split; [done|]. by apply started_runs_task.
  - intros t g Hd. simpl. unfold detached_step. by rewrite Hd.
  - intros t g Hd. simpl. unfold detached_step. by rewrite Hd.
  - intros t Hd. simpl. unfold detached_step.
    by rewrite Hd, (Hal _ _ Hd).
  - intros t Hd.
    pose proof (ri_lock_detached _ I' _ _ Hd) as [Hld _].
    split; [by apply Hld|].
    simpl. unfold detached_step. by rewrite Hd, (Hal _ _ Hd).
  - intros t g Hd Hm.
    pose proof (runner_counted_positive _ _ _ _ _ I' Hd eq_refl) as Hpos.
    apply lambda_runs_alone; [done|done|by apply (Hal _ _ Hd)|].
    unfold INT_MIN. lia.
Qed.

Lemma Run_branches_witness :
  ∃ s s', reachable (init 1 [7; 8]%nat) s ∧ caller s = RunTest 7
          ∧ run (replicate 4 Caller) s = Step s'
          ∧ (count_caller (replicate 4 Caller) ≤ 4)%nat
          ∧ caller s' = Idle ∧ detached s' = [DCall 7]
          ∧ run (replicate 5 (Detached 0)) s'
            = Step (mkState 0 1 None Idle [8%nat] [DExited]
                      [Started (Detached 0) 7; Finished (Detached 0) 7])
          ∧ length (detached s') = S (length (detached s)).
Proof.
  set (s := mkState 0 1 (Some Caller) (RunTest 7) [8%nat] [] []).
  set (s' := mkState 1 1 None Idle [8%nat] [DCall 7] []).
  assert (Hr : reachable (init 1 [7; 8]%nat) s).
  { apply (runner_run_reachable _ (replicate 2 Caller) _ s (reach_init _)).
    vm_compute. reflexivity. }
  assert (Hpc : caller s = RunTest 7) by reflexivity.
  assert (Hrun : run (replicate 4 Caller) s = Step s')
    by (vm_compute; reflexivity).
  assert (Hk : (count_caller (replicate 4 Caller) ≤ 4)%nat)
    by (vm_compute; lia).
  exists s, s'.
  split; [exact Hr|]. split; [exact Hpc|]. split; [exact Hrun|].
  split; [exact Hk|]. split; [reflexivity|]. split; [reflexivity|].
  destruct (Run_branches 1 [7; 8]%nat s 7 (replicate 4 Caller) s'
              Hr Hpc Hrun Hk)
    as (_ & _ & _ & Ha & _ & _ & _ & _ & _ & _ & _ & _ & _ & _ & _ & Hl).
  split; [exact (Hl 0%nat 7%nat eq_refl eq_refl)|].
  refine (proj1 (proj2 (Ha eq_refl _))).
  vm_compute. reflexivity.
Defined.



(** C6 as stated fails: a runner made with capacity -1 starts with
    [threads_active = 0], which is above its capacity. *)
Lemma runner_counter_negative_capacity :
  ¬ (∀ s, reachable (init (-1) [7]%nat) s →
          0 ≤ threads_active s ≤ max_threads s).
Proof.
  intros Hclaim. specialize (Hclaim _ (reach_init _)). simpl in Hclaim. lia.
Qed.

(** C6, amended.  In every state a runner of capacity [cap] can reach,
    under every sequence of calls of [Run] and every interleaving with the
    threads it started, [max_threads] is still [cap] and
    [0 <= threads_active <= max cap 0], so that
    [0 <= threads_active <= max_threads] for every capacity that is not
    negative; and a statement that changes [threads_active] changes it by
    one and is performed by the thread that holds the mutex. *)
Theorem runner_counter_bounds (cap : Z) (todo0 : list nat) (s : state) :
  reachable (init cap todo0) s →
  max_threads s = cap
  ∧ 0 ≤ threads_active s ≤ Z.max cap 0
  ∧ (0 ≤ cap → 0 ≤ threads_active s ≤ max_threads s)
  ∧ (∀ a s', step a s = Step s' → threads_active s' ≠ threads_active s →
       m s = Some a
       ∧ (threads_active s' = threads_active s + 1
          ∨ threads_active s' = threads_active s - 1)).
Proof.
  intros Hr. pose proof (runner_inv_reachable _ _ _ Hr) as I.
  pose proof (ri_cap _ I) as Hcap.
  assert (H0 : 0 ≤ threads_active s).
  { rewrite (ri_count _ I).
    assert (0 ≤ owed (caller s)) by (destruct (caller s); simpl; lia). lia. }
  pose proof (ri_le _ I) as Hle.
  split; [done|]. split; [done|]. split; [lia|].
  intros a s' Hs Hne. destruct a as [|t]; simpl in Hs.
  - unfold caller_step in Hs.
    pose proof (ri_lock_caller _ I) as Hlc.
    destruct (caller s) eqn:Hpc; simpl in *;
      repeat match type of Hs with
             | context [match ?x with _ => _ end] => destruct x eqn:?
             end; simplify_eq; simpl in Hne; try done.
    match goal with
    | H : int_succ _ = Some _ |- _ => apply int_succ_Some in H as [? ->]
    end.
    split; [by apply Hlc|by left].
  - unfold detached_step in Hs.
    destruct (detached s !! t) as [pc|] eqn:Hd; [|done].
    pose proof (ri_lock_detached _ I _ _ Hd) as Hld.
    destruct pc; simpl in Hld;
      repeat match type of Hs with
             | context [match ?x with _ => _ end] => destruct x eqn:?
             end; simplify_eq; simpl in Hne; try done.
    match goal with
    | H : int_pred _ = Some _ |- _ => apply int_pred_Some in H as [? ->]
    end.
    split; [by apply Hld|by right].
Qed.

Lemma runner_counter_bounds_witness :
  ∃ s, reachable (init 1 [7; 8]%nat) s
       ∧ threads_active s = 1 ∧ max_threads s = 1
       ∧ 0 ≤ threads_active s ≤ max_threads s.
Proof.
  assert (Hrun : run (replicate 4 Caller) (init 1 [7; 8]%nat)
            = Step (mkState 1 1 (Some Caller) (RunUnlockAsync 7)
                            [8%nat] [] []))
    by (vm_compute; reflexivity).
  eexists.
  assert (Hr : reachable (init 1 [7; 8]%nat)
                 (mkState 1 1 (Some Caller) (RunUnlockAsync 7) [8%nat] [] []))
    by exact (runner_run_reachable _ _ _ _ (reach_init _) Hrun).
  split; [exact Hr|]. split; [reflexivity|]. split; [reflexivity|].
  refine (proj1 (proj2 (proj2 (runner_counter_bounds 1 [7; 8]%nat _ Hr))) _).
  lia.
Defined.

(** C10.  A runner made with [max_threads <= 0], whatever is submitted
    to it: in every state it reaches the test
    [threads_active < max_threads] is false, [threads_active] is 0, no
    thread has been started, every task event is on the owner's thread,
    [Run] is never in its asynchronous branch and the destructor never on
    its way round its loop.  The owner alone runs to the end: six
    statements for each [Run], which starts and finishes the task before
    it returns, and four for the destructor, whose first test succeeds. *)
Theorem nonpositive_capacity (cap : Z) (todo0 : list nat) :
  cap ≤ 0 →
  (∀ s, reachable (init cap todo0) s →
     (threads_active s <? max_threads s) = false
     ∧ threads_active s = 0
     ∧ detached s = []
     ∧ (∀ e, e ∈ trace s → event_actor e = Caller)
     ∧ (∀ f, caller s ≠ RunIncr f ∧ caller s ≠ RunUnlockAsync f
             ∧ caller s ≠ RunSpawn f)
     ∧ caller s ≠ DtorUnlockRetry
     ∧ (∀ t, step (Detached t) s = NoStep))
  ∧ run (replicate (6 * length todo0 + 4) Caller) (init cap todo0)
    = Step (mkState 0 cap None Destroyed [] [] (all_synchronous todo0)).
Proof.
  intros Hcap. split.
  - intros s [Hc Hcnt Hdet Hpc Htr Hm]%(sync_inv_reachable cap Hcap).
    split; [apply Z.ltb_ge; lia|]. split; [done|]. split; [done|].
    split; [done|]. split; [|split].
    + intros f. by destruct (caller s).
    + by destruct (caller s).
    + intros t. simpl. unfold detached_step. by rewrite Hdet.
  - apply (sync_run cap Hcap todo0 []).
Qed.

Lemma nonpositive_capacity_witness :
  0 ≤ 0
  ∧ run (replicate 16 Caller) (init 0 [7; 8]%nat)
    = Step (mkState 0 0 None Destroyed [] []
              [Started Caller 7; Finished Caller 7;
               Started Caller 8; Finished Caller 8]).
Proof.
  assert (H0 : 0 ≤ 0) by lia.
  split; [exact H0|].
  exact (proj2 (nonpositive_capacity 0 [7; 8]%nat H0)).
Defined.

End RunnerClaims.

(** * More of the code: the mutex, the order of the calls, the wrappers *)

(** ** One worker *)

Section DispatchSerial.
Import Dispatch.
Context {St : Type}.
Variable exit_test : Z → bool.
Variable call_f : Z → St → option St.

Lemma serial_inv_step a (s s' : state St) :
  (length (threads s) ≤ 1)%nat → serial_inv s →
  step exit_test call_f 1 a s = Step s' → serial_inv s'.
Proof.
  intros Hlen [Hn Hc] Hs. destruct a as [|t]; simpl in Hs.
  - unfold main_step in Hs. destruct (main s) as [i|j|]; [| |done].
    + destruct (i <? 1).
      * destruct (int_succ i); [|done]. simplify_eq. split; simpl; [done|].
        change (calls s ++ pending (spawn s) = seqZ 0 (next_index s)).
        unfold pending, spawn; simpl. by rewrite omap_app, app_nil_r.
      * by simplify_eq.
    + destruct (threads s !! j) as [[]|]; by simplify_eq.
  - unfold worker_step in Hs. unfold serial_inv, pending in *.
    destruct (threads s) as [|pc [|pc' l]] eqn:Hth; [done| |simpl in Hlen; lia].
    destruct t as [|t]; [|done]. simpl in Hs.
    destruct pc; simpl in *.
    + destruct (index_m s); [done|]. simplify_eq. simpl. by rewrite Hth.
    + destruct (exit_test (next_index s)); simplify_eq; simpl; by rewrite Hth.
    + simplify_eq. simpl. by rewrite Hth.
    + destruct (int_succ (next_index s)) as [n|] eqn:Hsucc; [|done].
      apply int_succ_Some in Hsucc as [_ ->]. simplify_eq. simpl.
      rewrite Hth. simpl. split; [lia|].
      rewrite app_nil_r in Hc. rewrite Hc.
      replace (next_index s + 1) with (Z.of_nat (S (Z.to_nat (next_index s))))
        by lia.
      rewrite seqZ_S, Z2Nat.id by lia. by rewrite Z.add_0_l.
    + simplify_eq. simpl. by rewrite Hth.
    + destruct (call_f my_index (user s)); [|done]. simplify_eq. simpl.
      rewrite Hth. simpl. by rewrite app_nil_r.
    + done.
Qed.

Lemma serial_inv_reachable u0 s :
  reachable exit_test call_f 1 (init u0) s → serial_inv s.
Proof.
  assert (HK : 1 ≤ 1 ≤ INT_MAX) by (unfold INT_MAX; lia).
  induction 1 as [|s a s' Hr IH Hs].
  - split; simpl; [lia|done].
  - apply (serial_inv_step a s s'); [|done|done].
    by destruct (spawned_at_most exit_test call_f 1 HK u0 s Hr).
Qed.

End DispatchSerial.

Lemma NoDup_omap_lookup {A B} (g : A → option B) (l : list A) t1 t2 x y i :
  NoDup (omap g l) → l !! t1 = Some x → l !! t2 = Some y →
  g x = Some i → g y = Some i → t1 = t2.
Proof.
  revert t1 t2. induction l as [|a l IH]; intros t1 t2 Hnd H1 H2 Hx Hy;
    [done|].
  assert (Hin : ∀ t z, l !! t = Some z → g z = Some i → i ∈ omap g l).
  { intros t z Hz Hg. apply list_elem_of_omap. exists z.
    split; [by eapply list_elem_of_lookup_2|done]. }
  destruct t1 as [|t1], t2 as [|t2]; simplify_eq/=.
  - done.
  - rewrite Hx in Hnd. apply NoDup_cons in Hnd as [Hni _].
    destruct Hni. by eapply Hin.
  - rewrite Hy in Hnd. apply NoDup_cons in Hnd as [Hni _].
    destruct Hni. by eapply Hin.
  - f_equal. apply IH; try done.
    destruct (g a); [by apply NoDup_cons in Hnd as [_ ?]|done].
Qed.

Lemma pending_all_exited {St} (s : Dispatch.state St) :
  (∀ t pc, Dispatch.threads s !! t = Some pc → pc = Dispatch.Exited) →
  Dispatch.pending s = [].
Proof.
  unfold Dispatch.pending. induction (Dispatch.threads s) as [|pc l IH];
    intros Hex; [done|].
  rewrite (Hex 0%nat pc eq_refl). simpl. apply IH.
  intros t pc' Ht. by apply (Hex (S t)).
Qed.

Lemma seqZ_nonpos m n : n ≤ 0 → seqZ m n = [].
Proof. intros Hn. unfold seqZ. by replace (Z.to_nat n) with 0%nat by lia. Qed.

Lemma replay_cons {St} (call_f : Z → St → option St) i cs u u1 :
  call_f i u = Some u1 →
  Dispatch.replay call_f (i :: cs) u = Dispatch.replay call_f cs u1.
Proof. intros Hu. unfold Dispatch.replay. simpl. by rewrite Hu. Qed.

(** ** [UnParallelComp] *)

Section UnParallelCompProofs.
Context {St : Type}.
Variable num : Z.
Variable call_f : Z → St → option St.
Variable UI : St → Prop.
Hypothesis num_range : num ≤ INT_MAX.
Hypothesis call_ok :
  ∀ i u, 0 ≤ i < num → UI u → ∃ u', call_f i u = Some u' ∧ UI u'.

Lemma UnParallelComp_loop (fuel : nat) i cs u :
  0 ≤ i → num - i ≤ Z.of_nat fuel → UI u →
  ∃ u', UnParallelComp.loop num call_f fuel i cs u
        = Some (cs ++ seqZ i (num - i), u')
        ∧ Dispatch.replay call_f (seqZ i (num - i)) u = Some u' ∧ UI u'.
Proof.
  revert i cs u. induction fuel as [|fuel IH]; intros i cs u Hi Hf Hu.
  - exists u. simpl. destruct (Z.ltb_spec i num); [lia|].
    rewrite seqZ_nonpos by lia. by rewrite app_nil_r.
  - simpl. destruct (Z.ltb_spec i num) as [Hlt|Hge].
    + destruct (call_ok i u ltac:(lia) Hu) as (u1 & Hu1 & HUI1).
      rewrite Hu1.
      assert (Hs : int_succ i = Some (i + 1)) by (apply int_succ_Some; lia).
      rewrite Hs.
      destruct (IH (i + 1) (cs ++ [i]) u1 ltac:(lia) ltac:(lia) HUI1)
        as (u' & Hl & Hr & HUI').
      exists u'. rewrite Hl, (seqZ_cons i (num - i)) by lia.
      replace (Z.succ i) with (i + 1) by lia.
      replace (Z.pred (num - i)) with (num - (i + 1)) by lia.
      split; [by rewrite <- app_assoc|]. split; [|done].
      by rewrite (replay_cons _ _ _ _ _ Hu1).
    + exists u. rewrite seqZ_nonpos by lia. by rewrite app_nil_r.
Qed.

End UnParallelCompProofs.

Section DispatchExtras.
Import Dispatch.

(** X1.  [ParallelAppi(vec, f, m)] on a vector of at most [INT_MAX] items,
    for a function [f] whose call on an item of [vec] with its index is
    defined whatever the shared data are.  [f] is observed through the
    indices it is called on, and nothing is said of the data it shares
    with its caller, whose accesses the caller must synchronize.  Some
    schedule runs the call to its return and no schedule runs more than
    [5 * size + 5 * max_concurrency + 2] statements, a call of [f] being
    one.  In every state that is reached: no statement has undefined
    behaviour, so that [vec[my_index]] is always inside [vec]; until the
    return some thread can perform a statement; [f] has been called on
    distinct indices below the size; when the call has returned [f] has
    been called on every index, once. *)
Theorem ParallelAppi_exactly_once {T St} (vec : list T)
    (f : Z → T → St → option St) (m : Z) (u0 : St) :
  ParallelAppi.size vec ≤ INT_MAX →
  (∀ (i : nat) x u, vec !! i = Some x → is_Some (f (Z.of_nat i) x u)) →
  (∃ sched s, ParallelAppi.run vec f m sched (init u0) = Step s
              ∧ main s = Returned)
  ∧ (∀ sched s, ParallelAppi.run vec f m sched (init u0) = Step s →
       Z.of_nat (length sched)
       ≤ 5 * ParallelAppi.size vec + 5 * ParallelAppi.max_concurrency vec m
         + 2)
  ∧ (∀ s, ParallelAppi.reachable vec f m u0 s →
       (∀ a, ParallelAppi.step vec f m a s ≠ UB)
       ∧ (main s ≠ Returned → ∃ a s', ParallelAppi.step vec f m a s = Step s')
       ∧ NoDup (calls s)
       ∧ (∀ i, i ∈ calls s → 0 ≤ i < ParallelAppi.size vec)
       ∧ (main s = Returned → calls s ≡ₚ seqZ 0 (ParallelAppi.size vec))).
Proof.
  intros Hsz Hf.
  assert (Hf' : ∀ (i : nat) x u, vec !! i = Some x → True →
            ∃ u', f (Z.of_nat i) x u = Some u' ∧ True).
  { intros i x u Hx _. destruct (Hf i x u Hx) as [u' Hu']. by exists u'. }
  split; [by apply (ParallelAppi_returns vec f m (λ _, True) u0)|].
  split; [by apply (ParallelAppi_bounded vec f m (λ _, True) u0)|].
  intros s Hr.
  pose proof (ParallelAppi_inv vec f m (λ _, True) u0 Hsz I Hf' s Hr) as Iv.
  destruct (ParallelAppi_safe vec f m (λ _, True) u0 Hsz I Hf' s Hr)
    as (Hub & Hpr & Hret).
  destruct (dispatch_calls_distinct _ _ _ _ _ _ Iv) as [Hnd Hin].
  split; [done|]. split; [done|]. split; [done|].
  split; [done|]. intros Hm. by apply Hret.
Qed.

Lemma ParallelAppi_exactly_once_witness :
  ∃ s, ParallelAppi.reachable [10; 20; 30]
         (λ i x (log : list (Z * Z)), Some (log ++ [(i, x)])) 2 [] s
       ∧ main s = Returned
       ∧ calls s ≡ₚ [0; 1; 2].
Proof.
  set (f := λ (i x : Z) (log : list (Z * Z)), Some (log ++ [(i, x)])).
  assert (Hsz : ParallelAppi.size [10; 20; 30] ≤ INT_MAX)
    by (vm_compute; discriminate).
  assert (Hf : ∀ (i : nat) x (u : list (Z * Z)),
            [10; 20; 30] !! i = Some x → is_Some (f (Z.of_nat i) x u)).
  { intros i x u _. exists (u ++ [(Z.of_nat i, x)]). reflexivity. }
  destruct (ParallelAppi_exactly_once [10; 20; 30] f 2 [] Hsz Hf)
    as ((sched & s & Hrun & Hm) & _ & Hs).
  exists s.
  assert (Hr : ParallelAppi.reachable [10; 20; 30] f 2 [] s)
    by exact (dispatch_run_reachable _ _ _ _ sched _ s (reach_init _ _ _ _)
                Hrun).
  split; [exact Hr|]. split; [exact Hm|].
  exact (proj2 (proj2 (proj2 (proj2 (Hs s Hr)))) Hm).
Defined.

(** X5.  The mutex [index_m] of [ParallelComp] and [ParallelAppi], for
    every limit (a negative [num] and a vector of any size among them),
    every [f] and every number of workers.  In every state that is reached
    a worker is between [index_m.lock()] and [index_m.unlock()] exactly
    when it holds the mutex, so that two workers are never there together,
    and a worker that is calling [f] does not hold it.  A statement that
    changes [next_index] is performed by the worker that holds the mutex,
    which keeps it; a statement that changes the mutex is a worker taking
    the free mutex for itself or the holder releasing it. *)
Theorem index_m_mutual_exclusion {St} (exit_test : Z → bool)
    (call_f : Z → St → option St) (K : Z) (u0 : St) (s : state St) :
  reachable exit_test call_f K (init u0) s →
  (∀ t pc, threads s !! t = Some pc →
     (holds_mutex pc = true ↔ index_m s = Some t))
  ∧ (∀ t1 t2 pc1 pc2, threads s !! t1 = Some pc1 → threads s !! t2 = Some pc2 →
       holds_mutex pc1 = true → holds_mutex pc2 = true → t1 = t2)
  ∧ (∀ t i, threads s !! t = Some (AtCall i) → index_m s ≠ Some t)
  ∧ (∀ a s', step exit_test call_f K a s = Step s' →
       (next_index s' ≠ next_index s →
          ∃ t, a = Worker t ∧ index_m s = Some t ∧ index_m s' = Some t)
       ∧ (index_m s' ≠ index_m s →
          ∃ t, a = Worker t
               ∧ (index_m s = None ∧ index_m s' = Some t
                  ∨ index_m s = Some t ∧ index_m s' = None))).
Proof.
  intros Hr. pose proof (lock_inv_reachable _ _ _ _ _ Hr) as I.
  destruct I as [Hl Hh]. split; [done|]. split; [|split].
  - intros t1 t2 pc1 pc2 H1 H2 Hh1 Hh2.
    apply (Hl _ _ H1) in Hh1. apply (Hl _ _ H2) in Hh2. congruence.
  - intros t i Ht Hm. by apply (Hl _ _ Ht) in Hm.
  - intros a s' Hs.
    pose proof (lock_inv_step _ _ _ _ _ _ (conj Hl Hh) Hs) as [Hl' _].
    split.
    + intros Hne.
      destruct (next_index_step _ _ _ _ _ _ Hs) as [?|(_ & t & -> & Ht & Ht')];
        [done|].
      exists t. split; [done|].
      split; [by apply (Hl _ _ Ht)|by apply (Hl' _ _ Ht')].
    + intros Hne.
      destruct (index_m_step _ _ _ _ _ _ (conj Hl Hh) Hs)
        as [?|(t & -> & [(? & ? & _)|[? ?]])]; [done| |].
      * exists t. split; [done|]. by left.
      * exists t. split; [done|]. by right.
Qed.

Lemma index_m_mutual_exclusion_witness :
  ∃ s, ParallelComp.reachable 3 2 s
       ∧ threads s = [AtTest; AtLock]
       ∧ ParallelComp.step 3 2 (Worker 1) s = NoStep
       ∧ index_m s = Some 0%nat.
Proof.
  set (s := mkState 0 (Some 0%nat) [AtTest; AtLock] (Spawning 2) [] tt).
  assert (Hr : ParallelComp.reachable 3 2 s).
  { apply (ParallelComp_run_reachable 3 2 [Main; Main; Worker 0]).
    vm_compute. reflexivity. }
  exists s. split; [exact Hr|]. split; [reflexivity|].
  split; [vm_compute; reflexivity|].
  exact (proj1 (proj1 (index_m_mutual_exclusion _ _ _ _ s Hr) 0%nat AtTest
                  eq_refl) eq_refl).
Defined.

Lemma ParallelComp_at_return (num m : Z) (s : state unit) :
  0 ≤ num ≤ INT_MAX → ParallelComp.reachable num m s → main s = Returned →
  length (threads s) = Z.to_nat (ParallelComp.max_concurrency num m)
  ∧ (∀ t pc, threads s !! t = Some pc → pc = Exited)
  ∧ next_index s = num.
Proof.
  intros Hnum Hr Hm. pose proof (ParallelComp_inv num m s Hnum Hr) as I.
  pose proof (inv_main _ I) as Im. rewrite Hm in Im. destruct Im as [Hlen Hex].
  pose proof (ParallelComp_workers_range num m ltac:(lia)) as HK.
  split; [done|]. split; [done|].
  destruct (threads s !! 0%nat) as [pc|] eqn:H0.
  - eapply (inv_exit _ I); [exact H0|]. right. by eapply Hex.
  - apply lookup_ge_None in H0. lia.
Qed.

(** X8.  The joins of [ParallelComp(num, f, m)] for [0 <= num].  The
    calling thread is past the join of a worker only when that worker has
    returned.  When the call has returned, there are [max_concurrency]
    workers and every one of them has returned, the mutex is free,
    [next_index] is [num], and no thread can perform a statement any more:
    nothing uses [index_m], [next_index] or [f] after the return. *)
Theorem ParallelComp_joins_all (num m : Z) (s : state unit) :
  0 ≤ num ≤ INT_MAX → ParallelComp.reachable num m s →
  (∀ j, main s = Joining j →
     ∀ t, (t < j)%nat → threads s !! t = Some Exited)
  ∧ (main s = Returned →
       length (threads s) = Z.to_nat (ParallelComp.max_concurrency num m)
       ∧ (∀ t pc, threads s !! t = Some pc → pc = Exited)
       ∧ index_m s = None
       ∧ next_index s = num
       ∧ ∀ a, ParallelComp.step num m a s = NoStep).
Proof.
  intros Hnum Hr. pose proof (ParallelComp_inv num m s Hnum Hr) as I.
  pose proof (inv_main _ I) as Im.
  split.
  - intros j Hj. rewrite Hj in Im. by destruct Im as (_ & _ & ?).
  - intros Hm.
    destruct (ParallelComp_at_return num m s Hnum Hr Hm) as (Hlen & Hex & Hn).
    split; [done|]. split; [done|]. split; [|split; [done|]].
    + destruct (index_m s) as [h|] eqn:Hh; [|done].
      destruct (inv_holder _ I _ Hh) as [pc Hpc].
      pose proof (proj2 (inv_lock _ I _ _ Hpc) Hh) as Hhold.
      rewrite (Hex _ _ Hpc) in Hhold. done.
    + intros [|t]; unfold ParallelComp.step; simpl.
      * unfold main_step. by rewrite Hm.
      * unfold worker_step. destruct (threads s !! t) as [pc|] eqn:Ht; [|done].
        by rewrite (Hex _ _ Ht).
Qed.

Lemma ParallelComp_joins_all_witness :
  0 ≤ 3 ≤ INT_MAX
  ∧ ∃ s, ParallelComp.reachable 3 2 s ∧ main s = Returned
         ∧ length (threads s) = 2%nat ∧ index_m s = None ∧ next_index s = 3.
Proof.
  assert (H3 : 0 ≤ 3 ≤ INT_MAX) by (unfold INT_MAX; lia).
  split; [exact H3|].
  destruct (ParallelComp_returns 3 2 H3) as (sched & s & Hrun & Hm).
  assert (Hr : ParallelComp.reachable 3 2 s)
    by exact (ParallelComp_run_reachable 3 2 sched s Hrun).
  exists s. split; [exact Hr|]. split; [exact Hm|].
  destruct (proj2 (ParallelComp_joins_all 3 2 s H3 Hr) Hm)
    as (Hlen & _ & Hfree & Hn & _).
  split; [exact Hlen|]. split; [exact Hfree|exact Hn].
Defined.

Lemma ParallelComp_one_worker num m :
  m ≤ 1 ∨ num ≤ 1 → ParallelComp.max_concurrency num m = 1.
Proof. unfold ParallelComp.max_concurrency. lia. Qed.

Lemma ParallelComp_one_worker_returned num m s :
  0 ≤ num ≤ INT_MAX → m ≤ 1 ∨ num ≤ 1 →
  ParallelComp.reachable num m s → main s = Returned → calls s = seqZ 0 num.
Proof.
  intros Hnum Hone Hr Hm.
  destruct (ParallelComp_at_return num m s Hnum Hr Hm) as (_ & Hex & Hn).
  unfold ParallelComp.reachable in Hr.
  rewrite (ParallelComp_one_worker num m Hone) in Hr.
  destruct (serial_inv_reachable _ _ _ _ Hr) as [_ Hc].
  by rewrite (pending_all_exited s Hex), app_nil_r, Hn in Hc.
Qed.

(** X9.  [ParallelComp(num, f, m)] for [0 <= num], with [m <= 1] (or
    [num <= 1]), has one worker, and [f] is then called on 0, 1, 2, ... in
    this order: in every state that is reached the indices passed to [f],
    followed by the one the worker has claimed if it has one, are the
    indices below [next_index] in increasing order, and when the call has
    returned they are 0, ..., [num - 1] in this order. *)
Theorem ParallelComp_one_worker_in_order (num m : Z) (s : state unit) :
  0 ≤ num ≤ INT_MAX → m ≤ 1 ∨ num ≤ 1 →
  ParallelComp.reachable num m s →
  ParallelComp.max_concurrency num m = 1
  ∧ (length (threads s) ≤ 1)%nat
  ∧ calls s ++ pending s = seqZ 0 (next_index s)
  ∧ calls s = seqZ 0 (Z.of_nat (length (calls s)))
  ∧ (main s = Returned → calls s = seqZ 0 num).
Proof.
  intros Hnum Hone Hr.
  pose proof (ParallelComp_one_worker num m Hone) as HK.
  assert (Hlen : (length (threads s) ≤ 1)%nat).
  { destruct (spawned_at_most (ParallelComp.exit_test num) ParallelComp.call_f
                (ParallelComp.max_concurrency num m)
                ltac:(rewrite HK; unfold INT_MAX; lia) tt s Hr) as [Hle _].
    rewrite HK in Hle. lia. }
  assert (Hser : serial_inv s).
  { unfold ParallelComp.reachable in Hr. rewrite HK in Hr.
    by eapply serial_inv_reachable. }
  destruct Hser as [Hn Hc].
  split; [done|]. split; [done|]. split; [done|]. split.
  - unfold pending in Hc.
    destruct (threads s) as [|pc [|pc' l]]; [| |simpl in Hlen; lia];
      simpl in Hc.
    + rewrite app_nil_r in Hc. rewrite Hc at 1.
      by rewrite Hc, length_seqZ, Z2Nat.id.
    + destruct (claimed pc) as [i|]; simpl in Hc.
      * assert (Hl : length (calls s ++ [i])
                     = length (seqZ 0 (next_index s))) by by rewrite Hc.
        rewrite length_app, length_seqZ in Hl. simpl in Hl.
        replace (next_index s)
          with (Z.of_nat (S (length (calls s)))) in Hc by lia.
        rewrite seqZ_S in Hc. by apply app_inj_tail in Hc as [? _].
      * rewrite app_nil_r in Hc. rewrite Hc at 1.
        by rewrite Hc, length_seqZ, Z2Nat.id.
  - by apply (ParallelComp_one_worker_returned num m).
Qed.

Lemma ParallelComp_one_worker_in_order_witness :
  (0 ≤ 4 ≤ INT_MAX ∧ (1 ≤ 1 ∨ 4 ≤ 1))
  ∧ ∃ s, ParallelComp.reachable 4 1 s ∧ main s = Returned
         ∧ calls s = [0; 1; 2; 3].
Proof.
  assert (H4 : 0 ≤ 4 ≤ INT_MAX) by (unfold INT_MAX; lia).
  assert (H1 : 1 ≤ 1 ∨ 4 ≤ 1) by (left; lia).
  split; [exact (conj H4 H1)|].
  destruct (ParallelComp_returns 4 1 H4) as (sched & s & Hrun & Hm).
  assert (Hr : ParallelComp.reachable 4 1 s)
    by exact (ParallelComp_run_reachable 4 1 sched s Hrun).
  exists s. split; [exact Hr|]. split; [exact Hm|].
  exact (proj2 (proj2 (proj2 (proj2
           (ParallelComp_one_worker_in_order 4 1 s H4 H1 Hr)))) Hm).
Defined.

(** X10.  [UnParallelComp(num, f, _)] for every [int num] and a function
    [f] that is defined on every index below [num], in every state of the
    shared data that satisfies [UI], and that keeps [UI].  The loop
    returns, and it has called [f] on 0, ..., [num - 1] in this order and
    on nothing else; its counter never overflows; the third argument is
    not used.  For [num <= 0] it returns at once, [f] not called and the
    shared data as they were. *)
Theorem UnParallelComp_in_order {St} (num : Z) (call_f : Z → St → option St)
    (UI : St → Prop) (ignored : Z) (u0 : St) :
  num ≤ INT_MAX → UI u0 →
  (∀ i u, 0 ≤ i < num → UI u → ∃ u', call_f i u = Some u' ∧ UI u') →
  (∃ u', UnParallelComp.UnParallelComp num call_f ignored u0
         = Some (seqZ 0 num, u')
         ∧ replay call_f (seqZ 0 num) u0 = Some u' ∧ UI u')
  ∧ (num ≤ 0 →
       UnParallelComp.UnParallelComp num call_f ignored u0 = Some ([], u0)).
Proof.
  intros Hnum Hu0 Hf.
  destruct (UnParallelComp_loop num call_f UI Hnum Hf (Z.to_nat num) 0 [] u0
              ltac:(lia) ltac:(lia) Hu0) as (u' & Hl & Hr & HUI).
  rewrite Z.sub_0_r in Hl, Hr. simpl in Hl. split.
  - by exists u'.
  - intros H0. unfold UnParallelComp.UnParallelComp.
    rewrite Hl. rewrite seqZ_nonpos in * by done.
    unfold replay in Hr. simpl in Hr. by simplify_eq.
Qed.

Lemma UnParallelComp_in_order_witness :
  UnParallelComp.UnParallelComp 3
    (λ i (log : list Z), Some (log ++ [10 * i])) 8 []
  = Some ([0; 1; 2], [0; 10; 20]).
Proof.
  assert (H3 : 3 ≤ INT_MAX) by (unfold INT_MAX; lia).
  destruct (UnParallelComp_in_order 3
              (λ i (log : list Z), Some (log ++ [10 * i])) (λ _, True) 8 []
              H3 I) as [(u' & Hrun & Hrep & _) _].
  { intros i u _ _. exists (u ++ [10 * i]). split; reflexivity. }
  rewrite Hrun. vm_compute in Hrep. injection Hrep as <-. reflexivity.
Defined.

(** X11.  [UnParallelComp] as a replacement of [ParallelComp], for a
    function observed through the indices it is called on.  For
    [0 <= num], when [ParallelComp(num, f, m)] has returned it has called
    [f] on the indices [UnParallelComp(num, f, _)] calls it on, each once,
    in some order, and in the same order when [m <= 1].  For [num < 0]
    the two differ: [UnParallelComp] returns without a call, and
    [ParallelComp] reaches a state in which it has called [f(0)]. *)
Theorem UnParallelComp_drop_in (num m ignored : Z) :
  INT_MIN ≤ num ≤ INT_MAX →
  ∃ cs,
    UnParallelComp.UnParallelComp num ParallelComp.call_f ignored tt
    = Some (cs, tt)
    ∧ (0 ≤ num →
         (∃ sched s, ParallelComp.run num m sched ParallelComp.init = Step s
                     ∧ main s = Returned)
         ∧ ∀ s, ParallelComp.reachable num m s → main s = Returned →
             calls s ≡ₚ cs ∧ (m ≤ 1 → calls s = cs))
    ∧ (num < 0 →
         cs = [] ∧ ∃ s, ParallelComp.reachable num m s ∧ calls s = [0]).
Proof.
  intros Hnum. exists (seqZ 0 num).
  destruct (UnParallelComp_loop num ParallelComp.call_f (λ _, True)
              ltac:(lia) (λ i u _ _, ex_intro _ u (conj eq_refl I))
              (Z.to_nat num) 0 [] tt ltac:(lia) ltac:(lia) I)
    as ([] & Hl & _).
  rewrite Z.sub_0_r in Hl. split; [exact Hl|]. split.
  - intros H0. split; [apply ParallelComp_returns; lia|].
    intros s Hr Hm. split.
    + by apply (ParallelComp_safe num m s ltac:(lia) Hr).
    + intros Hone. apply (ParallelComp_one_worker_returned num m); auto.
      lia.
  - intros Hneg. split; [by apply seqZ_nonpos; lia|].
    destruct (ParallelComp_negative_claims num m 1 Hneg
                ltac:(unfold INT_MAX; lia)) as [sched Hrun].
    eexists. split; [exact (ParallelComp_run_reachable _ _ _ _ Hrun)|done].
Qed.

Lemma UnParallelComp_drop_in_witness :
  INT_MIN ≤ 3 ≤ INT_MAX
  ∧ ∃ cs, UnParallelComp.UnParallelComp 3 ParallelComp.call_f 1 tt
          = Some (cs, tt)
          ∧ ∃ s, ParallelComp.reachable 3 1 s ∧ main s = Returned
                 ∧ calls s = cs.
Proof.
  assert (H3 : INT_MIN ≤ 3 ≤ INT_MAX) by (unfold INT_MIN, INT_MAX; lia).
  split; [exact H3|].
  destruct (UnParallelComp_drop_in 3 1 1 H3) as (cs & Hser & Hpos & _).
  exists cs. split; [exact Hser|].
  destruct (Hpos ltac:(lia)) as ((sched & s & Hrun & Hm) & Hs).
  assert (Hr : ParallelComp.reachable 3 1 s)
    by exact (ParallelComp_run_reachable 3 1 sched s Hrun).
  exists s. split; [exact Hr|]. split; [exact Hm|].
  exact (proj2 (Hs s Hr Hm) ltac:(lia)).
Defined.

End DispatchExtras.

(** ** [ParallelApp] and the slots of [ParallelMap] *)


Section WrapperExtras.
Import Dispatch.



(** X6.  One writer to each slot of [ParallelMap], on a vector of at most
    [INT_MAX] items.  In every state that is reached, a worker that is
    about to run [data[idx] = f(arg)] has an index inside the vector,
    which no call of [run_write] has been made on yet, so that the slot
    still holds the default value, and which no other worker has claimed:
    no two assignments are to the same slot, at the same time or one after
    the other. *)
Theorem ParallelMap_one_writer_per_slot {T R} (dflt : R) (vec : list T)
    (f : T → R) (m : Z) (s : state (list R)) :
  ParallelAppi.size vec ≤ INT_MAX → ParallelMap.reachable dflt vec f m s →
  ∀ t i, threads s !! t = Some (AtCall i) →
    0 ≤ i < ParallelAppi.size vec
    ∧ (i ∉ calls s)
    ∧ user s !! Z.to_nat i = Some dflt
    ∧ ∀ t' pc', threads s !! t' = Some pc' → claimed pc' = Some i → t' = t.
Proof.
  intros Hsz Hr t i Ht.
  pose proof (ParallelAppi_inv vec (ParallelMap.run_write f) m (sized vec)
                (ParallelMap.result0 dflt vec) Hsz
                (length_replicate _ _) (run_write_ok vec f) s Hr) as I.
  pose proof (inv_perm _ I) as Hp. pose proof (inv_range _ I) as Hn.
  assert (Hnd : NoDup (calls s ++ pending s))
    by (rewrite Hp; apply NoDup_seqZ).
  apply NoDup_app in Hnd as (Hndc & Hdisj & Hndp).
  assert (Hpend : i ∈ pending s).
  { unfold pending. apply list_elem_of_omap. exists (AtCall i).
    split; [by eapply list_elem_of_lookup_2|done]. }
  assert (Hi : 0 ≤ i < ParallelAppi.size vec).
  { assert (i ∈ seqZ 0 (next_index s)) as Hin
      by (rewrite <- Hp; apply elem_of_app; by right).
    apply elem_of_seqZ in Hin. lia. }
  assert (Hnc : i ∉ calls s) by (intros Hc; by apply (Hdisj i Hc)).
  split; [done|]. split; [done|]. split.
  - destruct (dispatch_calls_distinct _ _ _ _ _ _ I) as [_ Hin].
    destruct (replay_run_write vec f (calls s) (ParallelMap.result0 dflt vec)
                (user s) (length_replicate _ _) Hin (inv_replay _ I))
      as [_ Hslots].
    unfold ParallelAppi.size in Hi.
    destruct (lookup_lt_is_Some_2 vec (Z.to_nat i) ltac:(lia)) as [x Hx].
    rewrite (Hslots _ _ Hx), Z2Nat.id by lia.
    destruct (decide (i ∈ calls s)); [done|].
    apply lookup_replicate_2. lia.
  - intros t' pc' Ht' Hc.
    by apply (NoDup_omap_lookup claimed (threads s) t' t pc' (AtCall i) i).
Qed.

Lemma ParallelMap_one_writer_per_slot_witness :
  ∃ s, ParallelMap.reachable 0 [1; 2; 3; 4] (λ x, x * x) 3 s
       ∧ threads s = [AtCall 0; AtCall 1]
       ∧ user s !! 0%nat = Some 0 ∧ user s !! 1%nat = Some 0.
Proof.
  set (s := mkState 2 None [AtCall 0; AtCall 1] (Spawning 2) []
              [0; 0; 0; 0]).
  assert (Hsz : ParallelAppi.size [1; 2; 3; 4] ≤ INT_MAX)
    by (vm_compute; discriminate).
  assert (Hr : ParallelMap.reachable 0 [1; 2; 3; 4] (λ x, x * x) 3 s).
  { apply (dispatch_run_reachable _ _ _ _
             (Main :: Main :: replicate 4 (Worker 0) ++ replicate 4 (Worker 1))
             _ s (reach_init _ _ _ _)).
    vm_compute. reflexivity. }
  exists s. split; [exact Hr|]. split; [reflexivity|].
  pose proof (ParallelMap_one_writer_per_slot 0 [1; 2; 3; 4] (λ x, x * x) 3 s
                Hsz Hr) as Hw.
  split.
  - exact (proj1 (proj2 (proj2 (Hw 0%nat 0 eq_refl)))).
  - exact (proj1 (proj2 (proj2 (Hw 1%nat 1 eq_refl)))).
Defined.

(** X7.  The vector [ParallelMap] is filling, on a vector of at most
    [INT_MAX] items.  In every state that is reached it has as many slots
    as [vec] has items, and the slot of an item [x] holds [f x] once
    [run_write] has been called on its index and the default value until
    then: a slot never holds anything else. *)
Theorem ParallelMap_partial_results {T R} (dflt : R) (vec : list T)
    (f : T → R) (m : Z) (s : state (list R)) :
  ParallelAppi.size vec ≤ INT_MAX → ParallelMap.reachable dflt vec f m s →
  length (user s) = length vec
  ∧ ∀ (i : nat) x, vec !! i = Some x →
      user s !! i
      = Some (if decide (Z.of_nat i ∈ calls s) then f x else dflt).
Proof.
  intros Hsz Hr.
  pose proof (ParallelAppi_inv vec (ParallelMap.run_write f) m (sized vec)
                (ParallelMap.result0 dflt vec) Hsz
                (length_replicate _ _) (run_write_ok vec f) s Hr) as I.
  destruct (dispatch_calls_distinct _ _ _ _ _ _ I) as [_ Hin].
  destruct (replay_run_write vec f (calls s) (ParallelMap.result0 dflt vec)
              (user s) (length_replicate _ _) Hin (inv_replay _ I))
    as [Hlen Hslots].
  split; [done|]. intros i x Hx. rewrite (Hslots _ _ Hx).
  destruct (decide (Z.of_nat i ∈ calls s)); [done|].
  apply lookup_replicate_2. by eapply lookup_lt_Some.
Qed.

Lemma ParallelMap_partial_results_witness :
  ∃ s, ParallelMap.reachable 0 [1; 2; 3; 4] (λ x, x * x) 3 s
       ∧ calls s = [1]
       ∧ user s = [0; 4; 0; 0]
       ∧ user s !! 1%nat = Some 4 ∧ user s !! 2%nat = Some 0.
Proof.
  set (s := mkState 2 None [AtCall 0; AtLock] (Spawning 2) [1]
              [0; 4; 0; 0]).
  assert (Hsz : ParallelAppi.size [1; 2; 3; 4] ≤ INT_MAX)
    by (vm_compute; discriminate).
  assert (Hr : ParallelMap.reachable 0 [1; 2; 3; 4] (λ x, x * x) 3 s).
  { apply (dispatch_run_reachable _ _ _ _
             (Main :: Main :: replicate 4 (Worker 0) ++ replicate 5 (Worker 1))
             _ s (reach_init _ _ _ _)).
    vm_compute. reflexivity. }
  exists s. split; [exact Hr|]. split; [reflexivity|]. split; [reflexivity|].
  pose proof (proj2 (ParallelMap_partial_results 0 [1; 2; 3; 4] (λ x, x * x)
                       3 s Hsz Hr)) as Hs.
  split.
  - exact (Hs 1%nat 2 eq_refl).
  - exact (Hs 2%nat 3 eq_refl).
Defined.

End WrapperExtras.

(** ** [Asynchronously]: how many threads, and the loop of the destructor *)

Lemma unlock_weight_zero l :
  (∀ t pc, l !! t = Some pc → Asynchronously.detached_holds pc = false) →
  sum_list_with unlock_weight l = 0%nat.
Proof.
  induction l as [|pc l IH]; intros Hno; [done|]. simpl.
  rewrite IH by (intros t pc' Hl; by apply (Hno (S t))).
  specialize (Hno 0%nat pc eq_refl). by destruct pc.
Qed.

Lemma user_weight_split l :
  sum_list_with user_weight l
  = (sum_list_with Asynchronously.count_weight l
     + sum_list_with unlock_weight l)%nat.
Proof.
  induction l as [|pc l IH]; [done|]. simpl. rewrite IH.
  unfold user_weight, Asynchronously.count_weight. destruct pc; simpl; lia.
Qed.

Lemma detached_task_users l :
  (length (omap Asynchronously.detached_task l)
   ≤ sum_list_with user_weight l)%nat.
Proof.
  induction l as [|pc l IH]; [done|].
  change (omap Asynchronously.detached_task (pc :: l))
    with (match Asynchronously.detached_task pc with
          | Some f => f :: omap Asynchronously.detached_task l
          | None => omap Asynchronously.detached_task l
          end).
  change (sum_list_with user_weight (pc :: l))
    with (user_weight pc + sum_list_with user_weight l)%nat.
  destruct pc;
    cbn [Asynchronously.detached_task user_weight uses_runner length]; lia.
Qed.

Section RunnerThrottleProofs.
Import Asynchronously.
Variable cap : Z.
Variable todo0 : list nat.

Lemma release_inv_step a s s' :
  runner_inv cap todo0 s → release_inv cap s → step a s = Step s' →
  release_inv cap s'.
Proof.
  unfold release_inv. intros I Hl Hs. destruct a as [|t]; simpl in Hs.
  - unfold caller_step in Hs.
    pose proof (ri_lock_caller _ I) as Hlc.
    pose proof (ri_incr _ I) as Hincr.
    destruct (caller s) eqn:Hpc; simpl in *;
      repeat match type of Hs with
             | context [match ?x with _ => _ end] => destruct x eqn:?
             end; simplify_eq; simpl; try done.
    + match goal with
      | H : int_succ _ = Some _ |- _ => apply int_succ_Some in H as [? ->]
      end.
      rewrite unlock_weight_zero.
      * specialize (Hincr _ eq_refl). lia.
      * intros t pc Hd. pose proof (ri_lock_detached _ I _ _ Hd) as Hld.
        destruct (detached_holds pc); [|done].
        destruct Hlc as [Hlc _], Hld as [Hld _].
        specialize (Hlc eq_refl). specialize (Hld eq_refl). congruence.
    + rewrite sum_list_with_app. simpl. lia.
  - unfold detached_step in Hs.
    destruct (detached s !! t) as [pc|] eqn:Hd; [|done].
    pose proof (λ pc', sum_list_with_insert unlock_weight _ _ _ pc' Hd) as Hsum.
    destruct pc;
      repeat match type of Hs with
             | context [match ?x with _ => _ end] => destruct x eqn:?
             end; simplify_eq; simpl;
      match goal with
      | |- context [<[t:=?pc']> _] => specialize (Hsum pc')
      end; simpl in Hsum;
      try match goal with
          | H : int_pred _ = Some _ |- _ => apply int_pred_Some in H as [? ->]
          end; lia.
Qed.

Lemma release_inv_reachable s : reachable (init cap todo0) s → release_inv cap s.
Proof.
  induction 1 as [|s a s' Hr IH Hs].
  - unfold release_inv. simpl. lia.
  - exact (release_inv_step _ _ _ (runner_inv_reachable _ _ _ Hr) IH Hs).
Qed.

Hypothesis cap_room : Z.of_nat (length todo0) ≤ cap.

Lemma room_inv_init : room_inv cap todo0 (init cap todo0).
Proof.
  constructor; simpl; try done; try lia. intros e. by rewrite elem_of_nil.
Qed.

Lemma room_inv_step a s s' :
  room_inv cap todo0 s → step a s = Step s' → room_inv cap todo0 s'.
Proof.
  intros [Hcap Hroom Hpc Htr Hth] Hs.
  assert (Hev : ∀ e0, event_actor e0 ≠ Caller →
            ∀ e, e ∈ trace s ++ [e0] → event_actor e ≠ Caller).
  { intros e0 He0 e [?|He]%elem_of_app; [auto|].
    apply list_elem_of_singleton in He. by subst. }
  destruct a as [|t]; simpl in Hs.
  - unfold caller_step in Hs.
    destruct (caller s) eqn:Hc; simpl in *; try done;
      repeat match type of Hs with
             | context [match ?x with _ => _ end] => destruct x eqn:?
             end; simplify_eq;
      try match goal with
          | H : int_succ _ = Some _ |- _ => apply int_succ_Some in H as [? ->]
          end;
      try match goal with
          | H : (_ <? _) = false |- _ => apply Z.ltb_ge in H; lia
          end;
      constructor; simpl in *; rewrite ?length_app; simpl; auto;
      try match goal with
          | H : todo s = _ |- _ => rewrite ?H; simpl
          end; lia.
  - unfold detached_step in Hs.
    destruct (detached s !! t) as [pc|] eqn:Hd; [|done].
    destruct pc;
      repeat match type of Hs with
             | context [match ?x with _ => _ end] => destruct x eqn:?
             end; simplify_eq;
      try match goal with
          | H : int_pred _ = Some _ |- _ => apply int_pred_Some in H as [? ->]
          end;
      constructor; simpl; rewrite ?length_insert; auto; try lia;
      by apply Hev.
Qed.

Lemma room_inv_reachable s :
  reachable (init cap todo0) s → room_inv cap todo0 s.
Proof. induction 1; eauto using room_inv_init, room_inv_step. Qed.

End RunnerThrottleProofs.

Section RunnerPolling.
Import Asynchronously.

(** Once round the loop of the destructor. *)
Lemma destructor_round s :
  caller s = DtorLock → m s = None → threads_active s ≠ 0 →
  run (replicate 3 Caller) s = Step s.
Proof.
  destruct s as [ta mt h pc td dt tr]. simpl. intros -> -> Hne.
  unfold caller_step. simpl.
  destruct (Z.eqb_spec ta 0) as [?|_]; [done|]. simpl. done.
Qed.

Lemma destructor_rounds s n :
  caller s = DtorLock → m s = None → threads_active s ≠ 0 →
  run (replicate (3 * n) Caller) s = Step s.
Proof.
  intros Hpc Hm Hne. induction n as [|n IH]; [done|].
  replace (3 * S n)%nat with (3 + 3 * n)%nat by lia.
  by rewrite replicate_add,
    (runner_run_app _ _ _ _ (destructor_round s Hpc Hm Hne)).
Qed.

End RunnerPolling.

Section RunnerExtras.
Import Asynchronously.

(** X13.  The threads of a runner of capacity [cap], whatever is submitted
    to it.  In every state that is reached, the detached threads that
    have not yet released the mutex for the last time (the [m.unlock()] of
    [~MutexLock], their last access to the runner) are at most
    [max cap 0]: [Run] increments [threads_active] below the capacity and
    with the mutex held, and a thread that has decremented it holds the
    mutex until that release.  Nothing is said of a thread that has
    released the mutex and has not yet returned from its lambda: [Run] can
    start a thread while it still exists.  The tasks that detached threads
    run or are about to run are at most as many, and [threads_active] is
    never below the number of detached threads that have not decremented
    it. *)
Theorem runner_throttles (cap : Z) (todo0 : list nat) (s : state) :
  reachable (init cap todo0) s →
  Z.of_nat (runner_users s) ≤ Z.max cap 0
  ∧ (length (omap detached_task (detached s)) ≤ runner_users s)%nat
  ∧ Z.of_nat (sum_list_with count_weight (detached s)) ≤ threads_active s.
Proof.
  intros Hr. pose proof (runner_inv_reachable _ _ _ Hr) as I.
  pose proof (release_inv_reachable _ _ _ Hr) as Hl. unfold release_inv in Hl.
  pose proof (ri_count _ I) as Hc.
  assert (H0 : 0 ≤ owed (caller s)) by (destruct (caller s); simpl; lia).
  assert (Hlive : Z.of_nat (runner_users s) ≤ Z.max cap 0).
  { unfold runner_users. rewrite user_weight_split. lia. }
  split; [done|]. split; [apply detached_task_users|lia].
Qed.

Lemma runner_throttles_witness :
  ∃ s, reachable (init 2 [7; 8; 9]%nat) s
       ∧ detached s = [DCall 7; DCall 8]
       ∧ Z.of_nat (runner_users s) ≤ 2.
Proof.
  set (s := mkState 2 2 None Idle [] [DCall 7; DCall 8]
              [Started Caller 9; Finished Caller 9]).
  assert (Hr : reachable (init 2 [7; 8; 9]%nat) s).
  { apply (runner_run_reachable _ (replicate 18 Caller) _ s (reach_init _)).
    vm_compute. reflexivity. }
  exists s. split; [exact Hr|]. split; [reflexivity|].
  exact (proj1 (runner_throttles 2 [7; 8; 9]%nat s Hr)).
Defined.

(** X14.  A runner whose capacity is at least the number of tasks
    submitted to it.  In every state that is reached the capacity test of
    [Run] holds where the owner is at it, the owner is never in the branch
    that runs the task on its own thread and no task event is on the
    owner's thread: every task is run by a detached thread, and when the
    destructor has returned there has been one thread for each task. *)
Theorem runner_capacity_suffices (cap : Z) (todo0 : list nat) (s : state) :
  Z.of_nat (length todo0) ≤ cap → reachable (init cap todo0) s →
  (∀ f, caller s = RunTest f → threads_active s < max_threads s)
  ∧ (∀ f, caller s ≠ RunUnlockSync f ∧ caller s ≠ RunCall f
          ∧ caller s ≠ RunInCall f)
  ∧ (∀ e, e ∈ trace s → event_actor e ≠ Caller)
  ∧ (length (detached s) ≤ length todo0)%nat
  ∧ (caller s = Destroyed → length (detached s) = length todo0).
Proof.
  intros Hcap Hr.
  destruct (room_inv_reachable cap todo0 Hcap s Hr)
    as [Hc Hroom Hpc Htr Hth].
  destruct (dtor_inv_reachable _ _ _ Hr) as [Htodo _].
  split; [|split; [|split; [|split]]].
  - intros f Hf. rewrite Hf in Hroom. simpl in Hroom. lia.
  - intros f. by destruct (caller s).
  - done.
  - lia.
  - intros Hd. rewrite Hd in Hth, Htodo. rewrite Htodo in Hth by done.
    simpl in Hth. lia.
Qed.

Lemma runner_capacity_suffices_witness :
  Z.of_nat (length [7; 8]%nat) ≤ 2
  ∧ ∃ s, reachable (init 2 [7; 8]%nat) s ∧ caller s = Destroyed
         ∧ length (detached s) = 2%nat.
Proof.
  assert (H2 : Z.of_nat (length [7; 8]%nat) ≤ 2) by (simpl; lia).
  split; [exact H2|].
  destruct (runner_drains 2 [7; 8]%nat ltac:(unfold INT_MAX; lia)
              (init 2 [7; 8]%nat) (runner_inv_init _ _))
    as (sched & s & Hrun & Hpc).
  assert (Hr : reachable (init 2 [7; 8]%nat) s)
    by exact (runner_run_reachable _ sched _ s (reach_init _) Hrun).
  exists s. split; [exact Hr|]. split; [exact Hpc|].
  exact (proj2 (proj2 (proj2 (proj2
           (runner_capacity_suffices 2 [7; 8]%nat s H2 Hr)))) Hpc).
Defined.

(** X15.  The destructor polls.  From a state in which the destructor is
    about to lock the free mutex and [threads_active] is not 0, three
    statements of the owner (lock, test, unlock) lead back to the very same
    state: as long as no detached thread performs a statement, the owner
    goes round the loop any number of times, changes nothing and does not
    return. *)
Theorem destructor_polls (s : state) :
  caller s = DtorLock → m s = None → threads_active s ≠ 0 →
  (∀ n, run (replicate (3 * n) Caller) s = Step s)
  ∧ (∀ k, ∃ s', run (replicate k Caller) s = Step s'
                ∧ caller s' ≠ Destroyed
                ∧ threads_active s' = threads_active s
                ∧ detached s' = detached s ∧ trace s' = trace s).
Proof.
  intros Hpc Hm Hne. split; [intros n; by apply destructor_rounds|].
  intros k. pose proof (Nat.mod_upper_bound k 3 ltac:(lia)) as Hlt.
  rewrite (Nat.div_mod_eq k 3), replicate_add,
    (runner_run_app _ _ _ _ (destructor_rounds s (k / 3)%nat Hpc Hm Hne)).
  destruct (k mod 3)%nat as [|[|[|r]]]; [| | |lia];
    destruct s as [ta mt h pc td dt tr]; simpl in *; subst.
  - by eexists.
  - by eexists.
  - unfold caller_step. simpl.
    destruct (Z.eqb_spec ta 0) as [?|_]; [done|]. by eexists.
Qed.

Lemma destructor_polls_witness :
  run (replicate 7 Caller ++ replicate 300 Caller) (init 1 [7]%nat)
  = Step (mkState 1 1 None DtorLock [] [DCall 7] []).
Proof.
  set (s := mkState 1 1 None DtorLock [] [DCall 7] []).
  assert (Hs : run (replicate 7 Caller) (init 1 [7]%nat) = Step s)
    by (vm_compute; reflexivity).
  rewrite (runner_run_app _ _ _ _ Hs).
  exact (proj1 (destructor_polls s eq_refl eq_refl ltac:(simpl; lia)) 100%nat).
Defined.

End RunnerExtras.

(** ** [ReadWithLock] and [WriteWithLock] *)

Section WithLockProofs.
Import WithLock.
Context {T : Type}.
Implicit Types (s : state T) (th : thread T) (c : call T).

Lemma cell_lock_inv_init (c0 : T) progs : cell_lock_inv (init c0 progs).
Proof.
  split; simpl; [|done]. intros t th Ht.
  apply list_lookup_fmap_Some in Ht as (p & -> & _). done.
Qed.

(** A statement of thread [t] that leaves the mutex to the other threads
    as it was. *)
Lemma cell_lock_inv_update s s' t th th' :
  cell_lock_inv s → threads s !! t = Some th →
  threads s' = <[t := th']> (threads s) →
  (holds (at_pc th') = true ↔ m s' = Some t) →
  (∀ t0, t0 ≠ t → m s' = Some t0 ↔ m s = Some t0) →
  cell_lock_inv s'.
Proof.
  intros [Hl Hh] Ht Hth Hown Hother. split.
  - intros t0 th0. rewrite Hth. intros Hlk.
    apply list_lookup_insert_Some in Hlk as [(-> & -> & _)|(Hne & Hlk)];
      [done|].
    rewrite (Hl _ _ Hlk). symmetry. apply Hother. congruence.
  - intros t0 Hm. rewrite Hth. apply lookup_lt_is_Some.
    rewrite length_insert. destruct (decide (t0 = t)) as [->|Hne].
    + by eapply lookup_lt_Some.
    + apply lookup_lt_is_Some, Hh. by apply Hother.
Qed.

Lemma cell_lock_inv_step t s s' :
  cell_lock_inv s → step t s = Step s' → cell_lock_inv s'.
Proof.
  intros I Hs. unfold step in Hs.
  destruct (threads s !! t) as [th|] eqn:Ht; [|done].
  pose proof (proj1 I _ _ Ht) as Hown.
  destruct th as [p td g]. simpl in *.
  destruct p; simpl in Hown.
  - destruct td as [|c rest]; [done|].
    destruct (m s) eqn:Hm; [done|]. simplify_eq.
    eapply (cell_lock_inv_update s _ t _ _ I Ht); [done|..]; simpl.
    + by destruct c.
    + intros t0 Hne. split; congruence.
  - simplify_eq. by eapply (cell_lock_inv_update s _ t _ _ I Ht).
  - destruct Hown as [Hown _]. specialize (Hown eq_refl). simplify_eq.
    eapply (cell_lock_inv_update s _ t _ _ I Ht); [done|..]; simpl.
    + done.
    + intros t0 Hne. split; congruence.
  - simplify_eq. by eapply (cell_lock_inv_update s _ t _ _ I Ht).
  - destruct Hown as [Hown _]. specialize (Hown eq_refl). simplify_eq.
    eapply (cell_lock_inv_update s _ t _ _ I Ht); [done|..]; simpl.
    + done.
    + intros t0 Hne. split; congruence.
Qed.

Lemma cell_lock_inv_reachable (c0 : T) progs s :
  reachable (init c0 progs) s → cell_lock_inv s.
Proof. induction 1; eauto using cell_lock_inv_init, cell_lock_inv_step. Qed.

Lemma cell_run_reachable s0 sched s s' :
  reachable s0 s → run sched s = Step s' → reachable s0 s'.
Proof.
  revert s. induction sched as [|t sched IH]; intros s Hr Hrun; simpl in Hrun.
  - by simplify_eq.
  - destruct (step t s) as [s1| |] eqn:Hs; [|done|done].
    eapply IH; [|done]. by eapply reach_step.
Qed.

(** Every statement is one of the three of a call. *)
Lemma cell_measure_step t s s' :
  step t s = Step s' → measure s = S (measure s').
Proof.
  intros Hs. unfold step in Hs. unfold measure.
  destruct (threads s !! t) as [th|] eqn:Ht; [|done].
  pose proof (λ th', sum_list_with_insert weight _ _ _ th' Ht) as Hsum.
  destruct th as [p td g]. simpl in *.
  destruct p; [destruct td as [|c rest]; [done|]; destruct (m s); [done|]|..];
    simplify_eq; simpl;
    match goal with
    | |- context [<[t:=?th']> _] => specialize (Hsum th')
    end; unfold weight in *; simpl in *; try destruct c; simpl in *; lia.
Qed.

Lemma cell_measure_run sched s s' :
  run sched s = Step s' → measure s = (length sched + measure s')%nat.
Proof.
  revert s. induction sched as [|t sched IH]; intros s Hrun; simpl in Hrun.
  - by simplify_eq.
  - destruct (step t s) as [s1| |] eqn:Hs; [|done|done].
    rewrite (cell_measure_step _ _ _ Hs), (IH _ Hrun). simpl. lia.
Qed.

Lemma cell_measure_init (c0 : T) progs :
  measure (init c0 progs) = (3 * length (concat progs))%nat.
Proof.
  unfold measure, init. cbn [threads].
  induction progs as [|p progs IH]; [done|].
  rewrite fmap_cons. cbn [sum_list_with concat].
  rewrite IH, length_app. unfold weight. simpl. lia.
Qed.

Lemma cell_measure_zero s :
  measure s = 0%nat → ∀ t th, threads s !! t = Some th → finished th.
Proof.
  unfold measure. induction (threads s) as [|th0 l IH]; intros Hz t th Ht;
    [done|].
  simpl in Hz. destruct t as [|t]; simplify_eq/=.
  - unfold weight in Hz. destruct th as [p td g]. simpl in *.
    split; simpl; [by destruct p; simpl in Hz; try lia|].
    destruct td; simpl in Hz; [done|lia].
  - apply (IH ltac:(lia) t th Ht).
Qed.

Lemma cell_measure_finished s :
  (∀ t th, threads s !! t = Some th → finished th) → measure s = 0%nat.
Proof.
  unfold measure. induction (threads s) as [|th0 l IH]; intros Hfin; [done|].
  simpl. rewrite IH by (intros t th Ht; by apply (Hfin (S t))).
  destruct (Hfin 0%nat th0 eq_refl) as [Hpc Htd].
  unfold weight. by rewrite Hpc, Htd.
Qed.

Lemma cell_measure_pos s t th :
  threads s !! t = Some th → ¬ finished th → (0 < measure s)%nat.
Proof.
  unfold measure. revert t. induction (threads s) as [|th0 l IH];
    intros t Ht Hnf; [done|].
  destruct t as [|t]; simplify_eq/=.
  - unfold finished, weight in *. destruct th as [p td g]. simpl in *.
    destruct p, td; simpl; try lia. by destruct Hnf.
  - specialize (IH t Ht Hnf). lia.
Qed.

(** Some thread can perform a statement as long as a thread has a call to
    make or to end. *)
Lemma cell_progress s :
  cell_lock_inv s → (0 < measure s)%nat → ∃ t s', step t s = Step s'.
Proof.
  intros [Hl Hh] Hpos. destruct (m s) as [h|] eqn:Hm.
  - destruct (Hh _ eq_refl) as [th Hth].
    pose proof (proj2 (Hl _ _ Hth) eq_refl) as Hhold.
    exists h. unfold step. rewrite Hth.
    destruct th as [p td g]. simpl in *. destruct p; try done; eauto.
  - assert (∃ t th, threads s !! t = Some th ∧ todo th ≠ []
                    ∧ at_pc th = Outside) as (t & th & Hth & Htd & Hpc).
    { assert (Hout : ∀ t th, threads s !! t = Some th → at_pc th = Outside).
      { intros t th Hth. pose proof (Hl _ _ Hth) as Hown.
        destruct (at_pc th); try done; simpl in Hown;
          destruct Hown as [Hown _]; by specialize (Hown eq_refl). }
      unfold measure in Hpos. clear -Hpos Hout.
      induction (threads s) as [|th0 l IH]; [simpl in Hpos; lia|].
      destruct (todo th0) eqn:Htd.
      - destruct IH as (t & th & Hth & ?).
        + simpl in Hpos. unfold weight in Hpos at 1.
          rewrite Htd, (Hout 0%nat th0 eq_refl) in Hpos. simpl in Hpos. lia.
        + intros t th Hth. by apply (Hout (S t)).
        + by exists (S t), th.
      - exists 0%nat, th0. split; [done|]. split; [by rewrite Htd|].
        by apply (Hout 0%nat). }
    exists t. unfold step. rewrite Hth, Hpc, Hm.
    destruct (todo th); [done|eauto].
Qed.

Lemma cell_completes s :
  cell_lock_inv s → ∃ sched s', run sched s = Step s' ∧ measure s' = 0%nat.
Proof.
  intros I. remember (measure s) as n eqn:Hn. revert s I Hn.
  induction n as [|n IH]; intros s I Hn.
  - by exists [], s.
  - destruct (cell_progress s I ltac:(lia)) as (t & s1 & Hs).
    pose proof (cell_measure_step _ _ _ Hs) as Hdec.
    destruct (IH s1 (cell_lock_inv_step _ _ _ I Hs) ltac:(lia))
      as (sched & s' & Hrun & Hz).
    exists (t :: sched), s'. simpl. by rewrite Hs.
Qed.

Lemma reads_of_app (c0 : T) l1 l2 :
  reads_of c0 (l1 ++ l2) = reads_of c0 l1 ++ reads_of (cell_after c0 l1) l2.
Proof.
  revert c0. induction l1 as [|[|val] l1 IH]; intros c0; simpl; [done|..].
  - by rewrite IH.
  - by rewrite IH.
Qed.

Lemma cell_after_app (c0 : T) l1 l2 :
  cell_after c0 (l1 ++ l2) = cell_after (cell_after c0 l1) l2.
Proof.
  revert c0. induction l1 as [|[|val] l1 IH]; intros c0; simpl; auto.
Qed.

Section SingleWriter.
Variable c0 : T.
Variable progs : list (list (call T)).
Variable w : nat.
Hypothesis others_read :
  ∀ t p, progs !! t = Some p → t ≠ w → Forall (λ c, c = Read) p.

Lemma single_writer_inv_init : single_writer_inv c0 progs w (init c0 progs).
Proof.
  split; simpl.
  - intros t th Ht Hne.
    apply list_lookup_fmap_Some in Ht as (p & -> & Hp).
    split; simpl; [by eapply others_read|done].
  - intros th p Ht Hp. rewrite list_lookup_fmap, Hp in Ht. simplify_eq/=.
    by exists [].
Qed.

Lemma single_writer_inv_step t s s' :
  single_writer_inv c0 progs w s → step t s = Step s' →
  single_writer_inv c0 progs w s'.
Proof.
  intros [Hrd Hwr] Hs. unfold step in Hs.
  destruct (threads s !! t) as [th|] eqn:Ht; [|done].
  destruct (decide (t = w)) as [->|Hne].
  - (* the writer *)
    assert (Hothers : ∀ th' t0 th0,
              <[w := th']> (threads s) !! t0 = Some th0 →
              t0 ≠ w → reads_only th0).
    { intros th' t0 th0 Hl Hne.
      rewrite list_lookup_insert_ne in Hl by done. by eapply Hrd. }
    assert (Hlen : (w < length (threads s))%nat) by by eapply lookup_lt_Some.
    destruct th as [p td g]. simpl in *.
    destruct p.
    + destruct td as [|c rest]; [done|]. destruct (m s); [done|]. simplify_eq.
      split; [apply Hothers|]. simpl.
      intros th p Hl Hp. rewrite list_lookup_insert_eq in Hl by done.
      simplify_eq. destruct (Hwr _ _ Ht Hp) as (dn & Hg & Hpd & Hc).
      exists dn. simpl in *. split; [done|]. by destruct c.
    + simplify_eq. split; [apply Hothers|]. simpl.
      intros th p Hl Hp. rewrite list_lookup_insert_eq in Hl by done.
      simplify_eq. destruct (Hwr _ _ Ht Hp) as (dn & Hg & Hpd & Hc).
      exists dn. simpl in *. done.
    + simplify_eq. split; [apply Hothers|]. simpl.
      intros th p Hl Hp. rewrite list_lookup_insert_eq in Hl by done.
      simplify_eq. destruct (Hwr _ _ Ht Hp) as (dn & Hg & Hpd & Hc & Hv).
      exists (dn ++ [Read]). simpl in *.
      rewrite reads_of_app, cell_after_app, <- app_assoc. simpl.
      split; [by rewrite Hg, Hv, Hc|done].
    + simplify_eq. split; [apply Hothers|]. simpl.
      intros th p Hl Hp. rewrite list_lookup_insert_eq in Hl by done.
      simplify_eq. destruct (Hwr _ _ Ht Hp) as (dn & Hg & Hpd & Hc).
      exists dn. simpl in *. done.
    + simplify_eq. split; [apply Hothers|]. simpl.
      intros th p Hl Hp. rewrite list_lookup_insert_eq in Hl by done.
      simplify_eq. destruct (Hwr _ _ Ht Hp) as (dn & Hg & Hpd).
      exists (dn ++ [Write (cell s)]). simpl in *.
      rewrite reads_of_app, cell_after_app, <- app_assoc. simpl.
      rewrite app_nil_r. done.
  - (* a thread that only reads *)
    destruct (Hrd _ _ Ht Hne) as [Hall Hpc].
    assert (Hkeep : ∀ th' h,
              reads_only th' →
              single_writer_inv c0 progs w (set_thread t th' (set_m h s))).
    { intros th' h Hro. split; simpl.
      - intros t0 th0 Hl Hne0.
        apply list_lookup_insert_Some in Hl as [(_ & <- & _)|(_ & Hl)];
          [done|by eapply Hrd].
      - intros th0 p Hl Hp. rewrite list_lookup_insert_ne in Hl by done.
        destruct (Hwr _ _ Hl Hp) as (dn & Hg & Hrest). by exists dn. }
    destruct th as [p td g]. simpl in *.
    destruct p; try done.
    + destruct td as [|c rest]; [done|]. destruct (m s) eqn:Hm; [done|].
      simplify_eq. apply Forall_cons in Hall as [-> Hall].
      by apply Hkeep.
    + simplify_eq.
      replace s with (set_m (m s) s) at 2 by by destruct s.
      by apply Hkeep.
    + simplify_eq. by apply Hkeep.
Qed.

Lemma single_writer_inv_reachable s :
  reachable (init c0 progs) s → single_writer_inv c0 progs w s.
Proof.
  induction 1; eauto using single_writer_inv_init, single_writer_inv_step.
Qed.

End SingleWriter.
End WithLockProofs.

Section WithLockExtras.
Import WithLock.

(** X16.  [ReadWithLock] and [WriteWithLock] on one object with its mutex,
    by any number of threads making any calls.  In every state that is
    reached a thread is inside a call, between the construction of its
    [MutexLock] and its destruction, exactly when it holds the mutex, so
    that two threads are never inside together.  The object is changed
    only by the assignment of [WriteWithLock], made by the thread that
    holds the mutex and keeps it; [ReadWithLock] copies the object while
    its thread holds the mutex; and when every thread is outside, the
    mutex is free: every call has released it. *)
Theorem WithLock_mutual_exclusion {T} (c0 : T) (progs : list (list (call T)))
    (s : state T) :
  reachable (init c0 progs) s →
  (∀ t th, threads s !! t = Some th →
     (holds (at_pc th) = true ↔ m s = Some t))
  ∧ (∀ t1 t2 th1 th2, threads s !! t1 = Some th1 → threads s !! t2 = Some th2 →
       holds (at_pc th1) = true → holds (at_pc th2) = true → t1 = t2)
  ∧ (∀ t s', step t s = Step s' → cell s' ≠ cell s →
       m s = Some t ∧ m s' = Some t
       ∧ ∃ th, threads s !! t = Some th ∧ at_pc th = WriteLocked (cell s'))
  ∧ (∀ t th, threads s !! t = Some th → at_pc th = ReadLocked →
       m s = Some t
       ∧ ∃ s', step t s = Step s' ∧ m s' = Some t
               ∧ ∃ th', threads s' !! t = Some th'
                        ∧ at_pc th' = ReadCopied (cell s))
  ∧ ((∀ t th, threads s !! t = Some th → at_pc th = Outside) → m s = None).
Proof.
  intros Hr. destruct (cell_lock_inv_reachable _ _ _ Hr) as [Hl Hh].
  split; [done|]. split; [|split; [|split]].
  - intros t1 t2 th1 th2 H1 H2 Hh1 Hh2.
    apply (Hl _ _ H1) in Hh1. apply (Hl _ _ H2) in Hh2. congruence.
  - intros t s' Hs Hne. unfold step in Hs.
    destruct (threads s !! t) as [th|] eqn:Ht; [|done].
    pose proof (Hl _ _ Ht) as Hown.
    destruct th as [p td g]. simpl in *.
    destruct p; [destruct td as [|c rest]; [done|]; destruct (m s); [done|]|..];
      simplify_eq; simpl in *; try done.
    destruct Hown as [Hown _]. specialize (Hown eq_refl).
    split; [done|]. split; [done|]. by eexists.
  - intros t th Ht Hpc. pose proof (Hl _ _ Ht) as Hown.
    rewrite Hpc in Hown. destruct Hown as [Hown _]. specialize (Hown eq_refl).
    split; [done|]. unfold step. rewrite Ht, Hpc. eexists. split; [done|].
    simpl. split; [done|]. eexists.
    split; [apply list_lookup_insert_eq; by eapply lookup_lt_Some|done].
  - intros Hout. destruct (m s) as [h|] eqn:Hm; [|done].
    destruct (Hh _ eq_refl) as [th Hth].
    pose proof (proj2 (Hl _ _ Hth) eq_refl) as Hhold.
    by rewrite (Hout _ _ Hth) in Hhold.
Qed.

Lemma WithLock_mutual_exclusion_witness :
  ∃ s, reachable (init 0 [[Write 5; Read]; [Read]]) s
       ∧ cell s = 5
       ∧ threads s = [mkThread WriteDone [Read] []; mkThread Outside [Read] []]
       ∧ step 1 s = NoStep
       ∧ m s = Some 0%nat.
Proof.
  set (s := mkState 5 (Some 0%nat)
              [mkThread WriteDone [Read] []; mkThread Outside [Read] []]).
  assert (Hr : reachable (init 0 [[Write 5; Read]; [Read]]) s).
  { apply (cell_run_reachable _ [0; 0]%nat _ s (reach_init _)).
    vm_compute. reflexivity. }
  exists s. split; [exact Hr|]. split; [reflexivity|]. split; [reflexivity|].
  split; [vm_compute; reflexivity|].
  exact (proj1 (proj1 (WithLock_mutual_exclusion 0 _ s Hr) 0%nat _ eq_refl)
           eq_refl).
Defined.

(** X17.  The calls of [ReadWithLock] and [WriteWithLock] all end, for any
    threads and any calls.  Every call takes three statements (the lock,
    the access, the unlock), so that no schedule has more than three
    statements for every call, and it has that many exactly when every
    thread has made all its calls.  In every state that is reached either
    some thread can perform a statement or every thread has made all its
    calls and the mutex is free, so that no thread waits for ever for the
    mutex; and some schedule makes all the calls. *)
Theorem WithLock_calls_complete {T} (c0 : T) (progs : list (list (call T))) :
  (∀ sched s, run sched (init c0 progs) = Step s →
     (length sched ≤ 3 * length (concat progs))%nat
     ∧ (length sched = (3 * length (concat progs))%nat ↔
          ∀ t (th : thread T), threads s !! t = Some th → finished th))
  ∧ (∀ s, reachable (init c0 progs) s →
       (∃ t s', step t s = Step s')
       ∨ (m s = None
          ∧ ∀ t (th : thread T), threads s !! t = Some th → finished th))
  ∧ (∃ sched s, run sched (init c0 progs) = Step s
                ∧ length sched = (3 * length (concat progs))%nat
                ∧ m s = None
                ∧ ∀ t (th : thread T), threads s !! t = Some th → finished th).
Proof.
  assert (Hfree : ∀ s, cell_lock_inv s →
            (∀ t (th : thread T), threads s !! t = Some th → finished th) →
            m s = None).
  { intros s [Hl Hh] Hfin. destruct (m s) as [h|] eqn:Hm; [|done].
    destruct (Hh _ eq_refl) as [th Hth].
    pose proof (proj2 (Hl _ _ Hth) eq_refl) as Hhold.
    destruct (Hfin _ _ Hth) as [Hpc _]. by rewrite Hpc in Hhold. }
  split; [|split].
  - intros sched s Hrun. pose proof (cell_measure_run _ _ _ Hrun) as Hm.
    rewrite cell_measure_init in Hm. split; [lia|]. split.
    + intros Hlen. apply cell_measure_zero. lia.
    + intros Hfin%cell_measure_finished. lia.
  - intros s Hr. pose proof (cell_lock_inv_reachable _ _ _ Hr) as I.
    destruct (decide (measure s = 0)%nat) as [Hz|Hnz].
    + right. pose proof (cell_measure_zero s Hz) as Hfin.
      split; [by apply Hfree|done].
    + left. apply cell_progress; [done|lia].
  - destruct (cell_completes (init c0 progs) (cell_lock_inv_init c0 progs))
      as (sched & s & Hrun & Hz).
    exists sched, s. split; [done|].
    pose proof (cell_measure_run _ _ _ Hrun) as Hm.
    rewrite cell_measure_init in Hm.
    pose proof (cell_measure_zero s Hz) as Hfin.
    split; [lia|]. split; [|done]. apply Hfree; [|done].
    eapply cell_lock_inv_reachable, cell_run_reachable; [constructor|done].
Qed.

(** X18.  What is written with [WriteWithLock] is read back with
    [ReadWithLock].  Let one thread [w] make any calls and all the other
    threads only call [ReadWithLock].  Then in every state that is
    reached, whenever thread [w] is between two calls, the values its
    calls of [ReadWithLock] have returned and the content of the object
    are those of the calls it has made so far, made with nothing in
    between: every read returns the value of its last write before, or the
    first content of the object when there is none.  So it is when it has
    made all its calls. *)
Theorem WithLock_reads_back {T} (c0 : T) (progs : list (list (call T)))
    (w : nat) (s : state T) :
  (∀ t p, progs !! t = Some p → t ≠ w → Forall (λ c, c = Read) p) →
  reachable (init c0 progs) s →
  ∀ th p, threads s !! w = Some th → progs !! w = Some p →
    (at_pc th = Outside →
       ∃ done, p = done ++ todo th ∧ got th = reads_of c0 done
               ∧ cell s = cell_after c0 done)
    ∧ (finished th → got th = reads_of c0 p ∧ cell s = cell_after c0 p).
Proof.
  intros Hro Hr th p Hth Hp.
  destruct (single_writer_inv_reachable c0 progs w Hro s Hr) as [_ Hwr].
  destruct (Hwr _ _ Hth Hp) as (dn & Hg & Hrest).
  split.
  - intros Hpc. rewrite Hpc in Hrest. destruct Hrest as [-> Hc].
    by exists dn.
  - intros [Hpc Htd]. rewrite Hpc, Htd, app_nil_r in Hrest.
    destruct Hrest as [-> Hc]. done.
Qed.

Lemma WithLock_reads_back_witness :
  ∃ s, reachable (init 0 [[Write 5; Read]; [Read; Read]]) s
       ∧ threads s
         = [mkThread Outside [] [5]; mkThread Outside [] [0; 5]]
       ∧ [5] = reads_of 0 [Write 5; Read]
       ∧ cell s = cell_after 0 [Write 5; Read].
Proof.
  set (progs := [[Write 5; Read]; [Read; Read]]).
  set (s := mkState 5 None
              [mkThread Outside [] [5]; mkThread Outside [] [0; 5]]).
  assert (Hro : ∀ t p, progs !! t = Some p → t ≠ 0%nat →
            Forall (λ c, c = Read) p).
  { intros [|[|t]] p Hp Hne; [done| |done].
    injection Hp as <-. repeat constructor. }
  assert (Hr : reachable (init 0 progs) s).
  { apply (cell_run_reachable _ [1; 1; 1; 0; 0; 0; 0; 0; 0; 1; 1; 1]%nat _ s
             (reach_init _)).
    vm_compute. reflexivity. }
  exists s. split; [exact Hr|]. split; [reflexivity|].
  exact (proj2 (WithLock_reads_back 0 progs 0%nat s Hro Hr _ _ eq_refl eq_refl)
           (conj eq_refl eq_refl)).
Defined.

End WithLockExtras.

(** ** Workers inside [f] together, and vectors of any size above [INT_MAX] *)

Section DispatchOverlap.
Import Dispatch.
Context {St : Type}.
Variable exit_test : Z → bool.
Variable call_f : Z → St → option St.
Variable K : Z.

(** The spawn loop, as far as [k] workers. *)
Lemma spawn_loop (k : nat) (u : St) :
  Z.of_nat k ≤ K → K ≤ INT_MAX →
  run exit_test call_f K (replicate k Main) (init u)
  = Step (mkState 0 None (replicate k AtLock) (Spawning (Z.of_nat k)) [] u).
Proof.
  intros Hk HK. induction k as [|k IH]; [done|].
  rewrite replicate_S_end, (dispatch_run_app _ _ _ _ _ _ _ (IH ltac:(lia))).
  simpl. unfold main_step. simpl.
  destruct (Z.ltb_spec (Z.of_nat k) K); [|lia].
  assert (Hs : int_succ (Z.of_nat k) = Some (Z.of_nat (S k)))
    by (apply int_succ_Some; lia).
  rewrite Hs. unfold spawn, set_main. simpl. by rewrite <- replicate_S_end.
Qed.

(** Worker [length l1] takes the mutex, claims the next index, releases
    the mutex and is about to call [f]. *)
Lemma worker_claims (l1 l2 : list wpc) n n' pc cs (u : St) :
  exit_test n = false → int_succ n = Some n' →
  run exit_test call_f K (replicate 4 (Worker (length l1)))
      (mkState n None (l1 ++ AtLock :: l2) pc cs u)
  = Step (mkState n' None (l1 ++ AtCall n :: l2) pc cs u).
Proof.
  intros He Hn.
  assert (Hlk : ∀ x, (l1 ++ x :: l2) !! length l1 = Some x)
    by (intros x; by apply list_lookup_middle).
  assert (Hins : ∀ x y, <[length l1 := y]> (l1 ++ x :: l2) = l1 ++ y :: l2).
  { intros x y. by rewrite insert_app_r_alt, Nat.sub_diag by lia. }
  cbn [replicate run step]. unfold worker_step at 1.
  cbn [threads index_m]. rewrite Hlk.
  unfold set_thread, set_mutex.
  cbn [threads index_m next_index main calls user].
  rewrite Hins. unfold worker_step at 1. cbn [threads next_index].
  rewrite Hlk, He.
  unfold set_thread. cbn [threads index_m next_index main calls user].
  rewrite Hins. unfold worker_step at 1. cbn [threads next_index].
  rewrite Hlk, Hn.
  unfold set_thread, set_next_index.
  cbn [threads index_m next_index main calls user].
  rewrite Hins. unfold worker_step at 1. cbn [threads].
  rewrite Hlk.
  unfold set_thread, set_mutex.
  cbn [threads index_m next_index main calls user].
  by rewrite Hins.
Qed.

End DispatchOverlap.

Section OverlapExtras.
Import Dispatch.

(** The schedule that starts [k] workers and lets the first [j] of them
    claim an index each, one after the other. *)
Lemma ParallelComp_overlap_run (num m : Z) (k j : nat) :
  Z.of_nat k = ParallelComp.max_concurrency num m → Z.of_nat k ≤ num →
  num ≤ INT_MAX → (j ≤ k)%nat →
  ∃ sched,
    ParallelComp.run num m sched ParallelComp.init
    = Step (mkState (Z.of_nat j) None
              ((AtCall <$> seqZ 0 (Z.of_nat j)) ++ replicate (k - j) AtLock)
              (Spawning (Z.of_nat k)) [] tt).
Proof.
  intros Hk Hle Hnum. induction j as [|j IH]; intros Hj.
  - exists (replicate k Main). rewrite Nat.sub_0_r.
    unfold ParallelComp.run. rewrite <- Hk. apply spawn_loop; [lia|].
    rewrite Hk. apply ParallelComp_workers_range. lia.
  - destruct (IH ltac:(lia)) as [sched Hrun].
    exists (sched ++ replicate 4 (Worker j)).
    unfold ParallelComp.run in *.
    rewrite (dispatch_run_app _ _ _ _ _ _ _ Hrun).
    replace (k - j)%nat with (S (k - S j)) by lia.
    rewrite (replicate_S (k - S j) AtLock).
    assert (Hlen : length (AtCall <$> seqZ 0 (Z.of_nat j)) = j)
      by (rewrite length_fmap, length_seqZ; lia).
    assert (He : ParallelComp.exit_test num (Z.of_nat j) = false).
    { unfold ParallelComp.exit_test. apply Z.eqb_neq. lia. }
    assert (Hn : int_succ (Z.of_nat j) = Some (Z.of_nat (S j))).
    { apply int_succ_Some. lia. }
    pose proof (worker_claims (ParallelComp.exit_test num) ParallelComp.call_f
                  (ParallelComp.max_concurrency num m)
                  (AtCall <$> seqZ 0 (Z.of_nat j)) (replicate (k - S j) AtLock)
                  _ _ (Spawning (Z.of_nat k)) [] tt He Hn) as Hw.
    rewrite Hlen in Hw. rewrite Hw.
    rewrite seqZ_S, fmap_app, <- app_assoc. simpl. by rewrite Z.add_0_l.
Qed.

(** X19.  Calls of [f] do overlap.  For [1 <= m <= num], some execution
    of [ParallelComp(num, f, m)] reaches a state in which all the [m]
    workers are about to call [f] at once, each on an index of its own
    (worker [i] on index [i]), none of them holding the mutex and none of
    the calls made yet: [f] has to bear [m] calls at the same time. *)
Theorem ParallelComp_calls_overlap (num m : Z) :
  1 ≤ m ≤ num → num ≤ INT_MAX →
  ∃ s, ParallelComp.reachable num m s
       ∧ threads s = AtCall <$> seqZ 0 m
       ∧ index_m s = None
       ∧ next_index s = m
       ∧ calls s = [].
Proof.
  intros Hm Hnum.
  assert (Hk : Z.of_nat (Z.to_nat m) = ParallelComp.max_concurrency num m)
    by (unfold ParallelComp.max_concurrency; lia).
  destruct (ParallelComp_overlap_run num m (Z.to_nat m) (Z.to_nat m) Hk
              ltac:(lia) Hnum ltac:(lia)) as [sched Hrun].
  rewrite Nat.sub_diag, app_nil_r, !Z2Nat.id in Hrun by lia.
  eexists. split; [exact (ParallelComp_run_reachable _ _ _ _ Hrun)|].
  done.
Qed.

Lemma ParallelComp_calls_overlap_witness :
  (1 ≤ 3 ≤ 5 ∧ 5 ≤ INT_MAX)
  ∧ ∃ s, ParallelComp.reachable 5 3 s
         ∧ threads s = [AtCall 0; AtCall 1; AtCall 2].
Proof.
  assert (H3 : 1 ≤ 3 ≤ 5) by lia.
  assert (H5 : 5 ≤ INT_MAX) by (unfold INT_MAX; lia).
  split; [exact (conj H3 H5)|].
  destruct (ParallelComp_calls_overlap 5 3 H3 H5) as (s & Hr & Hth & _).
  exists s. split; [exact Hr|exact Hth].
Defined.

(** X20.  Vectors of more than [INT_MAX] items, whatever their items, the
    function and the concurrency.  [ParallelMap] never returns: in every
    state that is reached every worker is in its loop and the calling
    thread has not returned, and some execution runs into the increment of
    [next_index] at [INT_MAX], which C++ leaves undefined.  The loop of
    [UnParallelMap] has no defined result either, however long it may
    run. *)
Theorem oversize_vectors {T R} (dflt : R) (vec : list T) (f : T → R)
    (m ignored : Z) :
  INT_MAX < ParallelAppi.size vec →
  (∀ s, ParallelMap.reachable dflt vec f m s →
     main s ≠ Returned
     ∧ ∀ t pc, threads s !! t = Some pc → pc ≠ AtExit ∧ pc ≠ Exited)
  ∧ (∀ result, ¬ ParallelMap.returns dflt vec f m result)
  ∧ (∃ sched,
       ParallelMap.run vec f m sched (ParallelMap.init dflt vec) = UB)
  ∧ UnParallelMap.UnParallelMap dflt vec f ignored = None
  ∧ (∀ fuel,
       UnParallelMap.loop vec f fuel 0 (replicate (length vec) dflt) = None).
Proof.
  intros Hsz. split; [|split; [|split; [|split]]].
  - intros s Hr.
    pose proof (ParallelAppi_oversize_noexit vec (ParallelMap.run_write f) m
                  (ParallelMap.result0 dflt vec) s Hsz Hr) as Hne.
    split; [|apply (ne_loop _ _ Hne)].
    intros Hm. pose proof (ne_main _ _ Hne) as Hmain. by rewrite Hm in Hmain.
  - intros result. by apply ParallelMap_oversize_never_returns.
  - by apply ParallelMap_oversize_overflows.
  - apply UnParallelMap_loop_oversize; [done|]. unfold INT_MAX. lia.
  - intros fuel. apply UnParallelMap_loop_oversize; [done|].
    unfold INT_MAX. lia.
Qed.

Lemma oversize_vectors_witness :
  INT_MAX < ParallelAppi.size oversize
  ∧ UnParallelMap.UnParallelMap 0 oversize (λ _, 1) 4 = None.
Proof.
  split; [exact oversize_above_int|].
  exact (proj1 (proj2 (proj2 (proj2
           (oversize_vectors 0 oversize (λ _, 1) 4 4 oversize_above_int))))).
Defined.

End OverlapExtras.

(** ** A negative [num] where the overflow wraps round *)

Section WrappingProofs.
Import Dispatch.
Context {St : Type}.
Variable exit_test : Z → bool.
Variable call_f : Z → St → option St.
Variable K : Z.

Lemma wrapping_step_defined a (s : state St) :
  (∀ t, a = Worker t → threads s !! t = Some AtClaim →
     next_index s < INT_MAX) →
  Wrapping.step exit_test call_f K a s = step exit_test call_f K a s.
Proof.
  intros Hlt. destruct a as [|t]; [done|]. simpl.
  unfold Wrapping.worker_step, worker_step.
  destruct (threads s !! t) as [pc|] eqn:Ht; [|done].
  destruct pc; try done.
  unfold int_succ, Wrapping.int_succ_wrap.
  specialize (Hlt t eq_refl Ht).
  by destruct (Z.ltb_spec (next_index s) INT_MAX); [|lia].
Qed.

Lemma wrapping_run_app sched1 sched2 (s s1 : state St) :
  Wrapping.run exit_test call_f K sched1 s = Step s1 →
  Wrapping.run exit_test call_f K (sched1 ++ sched2) s
  = Wrapping.run exit_test call_f K sched2 s1.
Proof.
  revert s. induction sched1 as [|a sched1 IH]; intros s Hrun; simpl in *.
  - by simplify_eq.
  - destruct (Wrapping.step exit_test call_f K a s); [|done|done].
    by apply IH.
Qed.

(** One turn of the loop of a worker that runs alone. *)
Lemma wrapping_turn n pc cs u u' :
  exit_test n = false → call_f n u = Some u' →
  Wrapping.run exit_test call_f K (replicate 5 (Worker 0%nat))
    (mkState n None [AtLock] pc cs u)
  = Step (mkState (Wrapping.int_succ_wrap n) None [AtLock] pc (cs ++ [n]) u').
Proof.
  intros He Hc. simpl. unfold Wrapping.worker_step, worker_step. simpl.
  rewrite He. simpl. by rewrite Hc.
Qed.

(** The worker leaves its loop and the calling thread joins it. *)
Lemma wrapping_exit n cs u :
  exit_test n = true → K = 1 →
  Wrapping.run exit_test call_f K
    (replicate 3 (Worker 0%nat) ++ replicate 3 Main)
    (mkState n None [AtLock] (Spawning 1) cs u)
  = Step (mkState n None [Exited] Returned cs u).
Proof.
  intros He ->. simpl. unfold Wrapping.worker_step, worker_step. simpl.
  rewrite He. simpl. done.
Qed.

End WrappingProofs.

Section WrappingClaims.
Import Dispatch.

(** [k] turns of the one worker, from [n] on, when the counter stays
    below the overflow and the exit test fails on the way. *)
Lemma wrapping_turns num m (k : nat) n pc cs :
  n + Z.of_nat k ≤ INT_MAX →
  (∀ i, n ≤ i < n + Z.of_nat k → i ≠ num) →
  ∃ sched,
    Wrapping.run (ParallelComp.exit_test num) ParallelComp.call_f
      (ParallelComp.max_concurrency num m) sched
      (mkState n None [AtLock] pc cs tt)
    = Step (mkState (n + Z.of_nat k) None [AtLock] pc
              (cs ++ seqZ n (Z.of_nat k)) tt).
Proof.
  induction k as [|k IH]; intros Hle Hne.
  - exists []. simpl. by rewrite Z.add_0_r, app_nil_r.
  - destruct IH as [sched Hrun]; [lia|intros; apply Hne; lia|].
    exists (sched ++ replicate 5 (Worker 0%nat)).
    rewrite (wrapping_run_app _ _ _ _ _ _ _ Hrun).
    rewrite (wrapping_turn _ _ _ _ _ _ tt tt).
    + unfold Wrapping.int_succ_wrap.
      destruct (Z.ltb_spec (n + Z.of_nat k) INT_MAX); [|lia].
      rewrite seqZ_S, app_assoc.
      replace (n + Z.of_nat k + 1) with (n + Z.of_nat (S k)) by lia.
      reflexivity.
    + unfold ParallelComp.exit_test. apply Z.eqb_neq. apply Hne. lia.
    + reflexivity.
Qed.

Lemma wrapping_round num m (k1 k2 : nat) :
  Z.of_nat k1 = INT_MAX → Z.of_nat k2 = num - INT_MIN → num < 0 →
  ∃ sched,
    Wrapping.run (ParallelComp.exit_test num) ParallelComp.call_f
      (ParallelComp.max_concurrency num m) sched ParallelComp.init
    = Step (mkState num None [Exited] Returned
              (seqZ 0 (Z.of_nat (S k1)) ++ seqZ INT_MIN (Z.of_nat k2)) tt).
Proof.
  intros Hk1 Hk2 Hnum.
  assert (HK : ParallelComp.max_concurrency num m = 1)
    by (unfold ParallelComp.max_concurrency; lia).
  assert (Hmin : INT_MIN < 0) by (unfold INT_MIN; lia).
  destruct (wrapping_turns num m k1 0 (Spawning 1) [])
    as [sched1 Hrun1]; [lia|intros; lia|].
  destruct (wrapping_turns num m k2 INT_MIN (Spawning 1)
              (seqZ 0 (Z.of_nat (S k1))))
    as [sched2 Hrun2]; [lia|intros; lia|].
  exists ([Main] ++ sched1 ++ replicate 5 (Worker 0%nat) ++ sched2
          ++ (replicate 3 (Worker 0%nat) ++ replicate 3 Main)).
  rewrite (wrapping_run_app _ _ _ [Main] _ _
             (mkState 0 None [AtLock] (Spawning 1) [] tt)).
  2: { unfold ParallelComp.init, init. simpl. unfold main_step. simpl.
       by rewrite HK. }
  rewrite (wrapping_run_app _ _ _ _ _ _ _ Hrun1).
  rewrite (wrapping_run_app _ _ _ (replicate 5 (Worker 0%nat)) _ _
             (mkState INT_MIN None [AtLock] (Spawning 1)
                (seqZ 0 (Z.of_nat (S k1))) tt)).
  2: { rewrite (wrapping_turn _ _ _ _ _ _ tt tt).
       - unfold Wrapping.int_succ_wrap.
         destruct (Z.ltb_spec (0 + Z.of_nat k1) INT_MAX); [lia|].
         by rewrite seqZ_S, app_nil_l.
       - unfold ParallelComp.exit_test. apply Z.eqb_neq. lia.
       - reflexivity. }
  rewrite (wrapping_run_app _ _ _ _ _ _ _ Hrun2).
  replace (INT_MIN + Z.of_nat k2) with num by lia.
  rewrite HK. apply wrapping_exit; [|done].
  unfold ParallelComp.exit_test. apply Z.eqb_refl.
Qed.

(** X21.  [ParallelComp(num, f, m)] for [num < 0] in a build where [int]
    arithmetic wraps round on overflow, which C++ does not promise.  There
    is one worker, and some execution returns: the worker has called [f]
    on 0, ..., [INT_MAX] and then on [INT_MIN], ..., [num - 1], and has
    left its loop when [next_index] has come round to [num].  Such a build
    does what the dispatcher does in every statement but the claim made
    with [next_index = INT_MAX]. *)
Theorem ParallelComp_negative_wraps (num m : Z) :
  INT_MIN ≤ num < 0 →
  ParallelComp.max_concurrency num m = 1
  ∧ (∃ sched,
       Wrapping.run (ParallelComp.exit_test num) ParallelComp.call_f
         (ParallelComp.max_concurrency num m) sched ParallelComp.init
       = Step (mkState num None [Exited] Returned
                 (seqZ 0 (INT_MAX + 1) ++ seqZ INT_MIN (num - INT_MIN)) tt))
  ∧ (∀ a s,
       (∀ t, a = Worker t → threads s !! t = Some AtClaim →
          next_index s < INT_MAX) →
       Wrapping.step (ParallelComp.exit_test num) ParallelComp.call_f
         (ParallelComp.max_concurrency num m) a s
       = ParallelComp.step num m a s).
Proof.
  intros Hnum. split; [unfold ParallelComp.max_concurrency; lia|]. split.
  - destruct (Z_of_nat_complete INT_MAX) as [k1 Hk1];
      [unfold INT_MAX; lia|].
    destruct (Z_of_nat_complete (num - INT_MIN)) as [k2 Hk2]; [lia|].
    destruct (wrapping_round num m k1 k2) as [sched Hrun]; [done|done|lia|].
    exists sched.
    by rewrite Nat2Z.inj_succ, <- Z.add_1_r, <- Hk1, <- Hk2 in Hrun.
  - intros a s. apply wrapping_step_defined.
Qed.

Lemma ParallelComp_negative_wraps_witness :
  INT_MIN ≤ -1 < 0
  ∧ ∃ sched,
      Wrapping.run (ParallelComp.exit_test (-1)) ParallelComp.call_f
        (ParallelComp.max_concurrency (-1) 2) sched ParallelComp.init
      = Step (mkState (-1) None [Exited] Returned
                (seqZ 0 (INT_MAX + 1) ++ seqZ INT_MIN (-1 - INT_MIN)) tt).
Proof.
  assert (H : INT_MIN ≤ -1 < 0) by (unfold INT_MIN; lia).
  split; [exact H|].
  exact (proj1 (proj2 (ParallelComp_negative_wraps (-1) 2 H))).
Defined.

End WrappingClaims.

(** ** The scenarios of the specification, run *)

Section Scenarios.

(** [ParallelComp(5, f, 2)], the workers taking turns. *)
Example ParallelComp_5_2_in_turn :
  ParallelComp.run 5 2
    (Dispatch.Main :: Dispatch.Worker 0 :: Dispatch.Main
     :: Dispatch.Worker 0 :: Dispatch.Main
     :: [Dispatch.Worker 0; Dispatch.Worker 0; Dispatch.Worker 1;
         Dispatch.Worker 0; Dispatch.Worker 1; Dispatch.Worker 1;
         Dispatch.Worker 1; Dispatch.Worker 0; Dispatch.Worker 1;
         Dispatch.Worker 0; Dispatch.Worker 0; Dispatch.Worker 0;
         Dispatch.Worker 1; Dispatch.Worker 0; Dispatch.Worker 1;
         Dispatch.Worker 1; Dispatch.Worker 1; Dispatch.Worker 0;
         Dispatch.Worker 1; Dispatch.Worker 0; Dispatch.Worker 0;
         Dispatch.Worker 0; Dispatch.Worker 1; Dispatch.Worker 0;
         Dispatch.Worker 1; Dispatch.Worker 1; Dispatch.Worker 0;
         Dispatch.Worker 0; Dispatch.Worker 0; Dispatch.Main;
         Dispatch.Main; Dispatch.Main])
    ParallelComp.init
  = Step (Dispatch.mkState 5 None [Dispatch.Exited; Dispatch.Exited]
            Dispatch.Returned [0; 1; 2; 3; 4] tt).
Proof. vm_compute. reflexivity. Qed.

(** The same call when the second worker overtakes the first between its
    claim of index 0 and its call of [f]: [f] is called on 1 before 0. *)
Example ParallelComp_5_2_overtaking :
  ParallelComp.run 5 2
    (Dispatch.Main :: Dispatch.Main :: Dispatch.Main
     :: replicate 4 (Dispatch.Worker 0) ++ replicate 5 (Dispatch.Worker 1)
     ++ [Dispatch.Worker 0; Dispatch.Worker 1; Dispatch.Worker 1;
         Dispatch.Worker 1; Dispatch.Worker 1; Dispatch.Worker 0;
         Dispatch.Worker 1; Dispatch.Worker 0; Dispatch.Worker 0;
         Dispatch.Worker 0; Dispatch.Worker 1; Dispatch.Worker 0;
         Dispatch.Worker 1; Dispatch.Worker 1; Dispatch.Worker 1;
         Dispatch.Worker 0; Dispatch.Worker 1; Dispatch.Worker 0;
         Dispatch.Worker 0; Dispatch.Main; Dispatch.Worker 1;
         Dispatch.Worker 1; Dispatch.Worker 1; Dispatch.Main;
         Dispatch.Main])
    ParallelComp.init
  = Step (Dispatch.mkState 5 None [Dispatch.Exited; Dispatch.Exited]
            Dispatch.Returned [1; 0; 2; 3; 4] tt).
Proof. vm_compute. reflexivity. Qed.

(** A worker that has not returned keeps the caller in [join]. *)
Example ParallelComp_join_waits :
  ParallelComp.run 5 2
    [Dispatch.Main; Dispatch.Main; Dispatch.Main; Dispatch.Main]
    ParallelComp.init
  = NoStep.
Proof. vm_compute. reflexivity. Qed.

(** Capacity 2 and three tasks, neither detached thread having run yet:
    the third [Run] runs its task on the owner's thread. *)
Example Asynchronously_backpressure :
  Asynchronously.run (replicate 18 Asynchronously.Caller)
    (Asynchronously.init 2 [7; 8; 9]%nat)
  = Step (Asynchronously.mkState 2 2 None Asynchronously.Idle []
            [Asynchronously.DCall 7; Asynchronously.DCall 8]
            [Asynchronously.Started Asynchronously.Caller 9;
             Asynchronously.Finished Asynchronously.Caller 9]).
Proof. vm_compute. reflexivity. Qed.

(** The destructor then goes round its loop once, while the first thread
    is still inside its task, and returns when both have decremented. *)
Example Asynchronously_drain :
  Asynchronously.run
    (replicate 18 Asynchronously.Caller
     ++ [Asynchronously.Detached 1; Asynchronously.Detached 1;
         Asynchronously.Detached 0]
     ++ replicate 3 (Asynchronously.Detached 1)
     ++ replicate 4 Asynchronously.Caller
     ++ replicate 4 (Asynchronously.Detached 0)
     ++ replicate 3 Asynchronously.Caller)
    (Asynchronously.init 2 [7; 8; 9]%nat)
  = Step (Asynchronously.mkState 0 2 None Asynchronously.Destroyed []
            [Asynchronously.DExited; Asynchronously.DExited]
            [Asynchronously.Started Asynchronously.Caller 9;
             Asynchronously.Finished Asynchronously.Caller 9;
             Asynchronously.Started (Asynchronously.Detached 1) 8;
             Asynchronously.Finished (Asynchronously.Detached 1) 8;
             Asynchronously.Started (Asynchronously.Detached 0) 7;
             Asynchronously.Finished (Asynchronously.Detached 0) 7]).
Proof. vm_compute. reflexivity. Qed.

(** The destructor cannot take the mutex while a detached thread holds
    it. *)
Example Asynchronously_destructor_waits :
  Asynchronously.run
    (replicate 6 Asynchronously.Caller
     ++ replicate 3 (Asynchronously.Detached 0)
     ++ replicate 2 Asynchronously.Caller)
    (Asynchronously.init 1 [7]%nat)
  = NoStep.
Proof. vm_compute. reflexivity. Qed.

(** [UnParallelMap] on the squares. *)
Example UnParallelMap_squares :
  UnParallelMap.UnParallelMap 0 [1; 2; 3; 4] (λ x, x * x) 3
  = Some [1; 4; 9; 16].
Proof. vm_compute. reflexivity. Qed.

End Scenarios.
